(** * The outline engine of the annotation editor (class [Outliner])

    A shallow embedding of [Outliner] (outliner.js), in two forms.

    On values: the constructor (quantization, bounding box, last point,
    baseline groups and line rectangles), the sweep of [getOutlines] with
    its interval array ([#binarySearch], [#insert], [#remove],
    [#breakEdge]) and the polygon tracing of [#getOutlines].

    On a store of objects (module [Store]): the same code with every array
    and every object as a cell of the store, to tell which objects a call
    writes.

    Numbers.  A JavaScript number is modelled by [number]: an exact rational,
    [+Infinity], [-Infinity] or [NaN].  Arithmetic is exact: the rounding of
    IEEE doubles and the sign of zero are outside the model.  Finite values
    are kept in lowest terms ([Qred]), so that equal values are equal terms
    whenever the inputs are in lowest terms.

    The definitions come first.  The properties follow: the interval array,
    [#breakEdge] and the sweep; the constructor; the store. *)

From Stdlib Require Import String Ascii DecimalString.
From Stdlib Require Import ZArith QArith Qround Qminmax Lqa Lia.
From Stdlib Require Import List Bool Permutation Sorted.
Import ListNotations.

Set Implicit Arguments.
Local Open Scope Q_scope.

(* ================================================================== *)
(** ** JavaScript numbers *)

Module Num.

Inductive number : Type :=
| Fin (q : Q)
| PInf
| NInf
| NaN.

Definition finite (n : number) : Prop :=
  match n with Fin _ => True | _ => False end.

(** The value of a finite number. *)
Definition qv (n : number) : Q :=
  match n with Fin q => q | _ => 0%Q end.

Definition is_nan (n : number) : bool :=
  match n with NaN => true | _ => false end.

(** The sign of a rational, as a comparison with zero. *)
Definition sgn (q : Q) : comparison := q ?= 0.

Definition neg (a : number) : number :=
  match a with
  | Fin q => Fin (Qred (- q))
  | PInf => NInf
  | NInf => PInf
  | NaN => NaN
  end.

(** [a + b] *)
Definition add (a b : number) : number :=
  match a, b with
  | NaN, _ | _, NaN => NaN
  | Fin p, Fin q => Fin (Qred (p + q))
  | PInf, NInf | NInf, PInf => NaN
  | PInf, _ | _, PInf => PInf
  | NInf, _ | _, NInf => NInf
  end.

(** [a - b] *)
Definition sub (a b : number) : number :=
  match a, b with
  | NaN, _ | _, NaN => NaN
  | Fin p, Fin q => Fin (Qred (p - q))
  | PInf, PInf | NInf, NInf => NaN
  | PInf, _ | _, NInf => PInf
  | NInf, _ | _, PInf => NInf
  end.

Definition signed_inf (c : comparison) : number :=
  match c with Gt => PInf | Lt => NInf | Eq => NaN end.

Definition flip (c : comparison) : comparison := CompOpp c.

(** [a * b] *)
Definition mul (a b : number) : number :=
  match a, b with
  | NaN, _ | _, NaN => NaN
  | Fin p, Fin q => Fin (Qred (p * q))
  | Fin p, PInf | PInf, Fin p => signed_inf (sgn p)
  | Fin p, NInf | NInf, Fin p => signed_inf (flip (sgn p))
  | PInf, PInf | NInf, NInf => PInf
  | PInf, NInf | NInf, PInf => NInf
  end.

(** [a / b]; a zero divisor is taken as [+0]. *)
Definition div (a b : number) : number :=
  match a, b with
  | NaN, _ | _, NaN => NaN
  | Fin p, Fin q =>
      match sgn q with
      | Eq => signed_inf (sgn p)
      | _ => Fin (Qred (p / q))
      end
  | Fin _, _ => Fin 0
  | PInf, Fin q => match sgn q with Lt => NInf | _ => PInf end
  | NInf, Fin q => match sgn q with Lt => PInf | _ => NInf end
  | _, _ => NaN
  end.

(** [Math.floor] and [Math.ceil] *)
Definition floor (a : number) : number :=
  match a with Fin q => Fin (inject_Z (Qfloor q)) | _ => a end.

Definition ceil (a : number) : number :=
  match a with Fin q => Fin (inject_Z (Qceiling q)) | _ => a end.

(** [a < b], [a <= b], [a > b], [a >= b]: false as soon as a [NaN] is
    compared. *)
Definition ltb (a b : number) : bool :=
  match a, b with
  | NaN, _ | _, NaN => false
  | Fin p, Fin q => match p ?= q with Lt => true | _ => false end
  | NInf, NInf => false
  | NInf, _ => true
  | _, NInf => false
  | PInf, _ => false
  | _, PInf => true
  end.

(** [a === b] on numbers *)
Definition eqb (a b : number) : bool :=
  match a, b with
  | Fin p, Fin q => Qeq_bool p q
  | PInf, PInf | NInf, NInf => true
  | _, _ => false
  end.

Definition leb (a b : number) : bool := ltb a b || eqb a b.
Definition gtb (a b : number) : bool := ltb b a.
Definition geb (a b : number) : bool := leb b a.

(** [Math.min(a, b)] and [Math.max(a, b)] *)
Definition min (a b : number) : number :=
  match a, b with
  | NaN, _ | _, NaN => NaN
  | _, _ => if ltb b a then b else a
  end.

Definition max (a b : number) : number :=
  match a, b with
  | NaN, _ | _, NaN => NaN
  | _, _ => if ltb a b then b else a
  end.

(** Truthiness of a number, as [||] tests it: [0] and [NaN] are falsy. *)
Definition truthy (a : number) : bool :=
  match a with
  | NaN => false
  | Fin q => negb (Qeq_bool q 0)
  | _ => true
  end.

(** [a || b] on numbers *)
Definition or_else (a b : number) : number := if truthy a then a else b.

Definition of_Z (z : Z) : number := Fin (inject_Z z).

End Num.

Import Num.

Arguments Num.add : simpl never.
Arguments Num.sub : simpl never.
Arguments Num.mul : simpl never.
Arguments Num.div : simpl never.
Arguments Num.ltb : simpl never.
Arguments Num.leb : simpl never.
Arguments Num.gtb : simpl never.
Arguments Num.geb : simpl never.
Arguments Num.eqb : simpl never.
Arguments Num.min : simpl never.
Arguments Num.max : simpl never.

Declare Scope num_scope.
Delimit Scope num_scope with num.
Infix "+" := Num.add : num_scope.
Infix "-" := Num.sub : num_scope.
Infix "*" := Num.mul : num_scope.
Infix "/" := Num.div : num_scope.
Infix "<?" := Num.ltb : num_scope.
Infix "<=?" := Num.leb : num_scope.
Infix ">?" := Num.gtb : num_scope.
Infix ">=?" := Num.geb : num_scope.
Infix "===" := Num.eqb (at level 70) : num_scope.

Local Open Scope num_scope.

(* ================================================================== *)
(** ** Arrays and sorting *)

(** [Array.prototype.sort(cmp)]: a stable sort; [x] goes after [y] exactly
    when [cmp x y > 0].  For a comparator that is a consistent total
    preorder, every stable sort gives this result. *)
Section Sort.
Variable A : Type.
Variable cmp : A -> A -> number.

Fixpoint sort_insert (x : A) (l : list A) : list A :=
  match l with
  | [] => [x]
  | y :: l' => if cmp x y >? Fin 0 then y :: sort_insert x l' else x :: l
  end.

Fixpoint sortBy (l : list A) : list A :=
  match l with
  | [] => []
  | x :: l' => sort_insert x (sortBy l')
  end.

End Sort.

(** [array.splice(i, 0, v)] and [array.splice(i, 1)] *)
Definition splice_in (A : Type) (i : nat) (v : A) (l : list A) : list A :=
  firstn i l ++ v :: skipn i l.

Definition splice_out (A : Type) (i : nat) (l : list A) : list A :=
  firstn i l ++ skipn (S i) l.

(* ================================================================== *)
(** ** Edges, intervals and fragments *)

(** A vertical edge [[x, y1, y2, isLeft]]. *)
Record edge : Type := Edge {
  ex : number;
  ey1 : number;
  ey2 : number;
  isLeft : bool
}.

(** An active interval [[y1, y2]]. *)
Abbreviation interval := (number * number)%type (only parsing).

(** A fragment of an edge [[x, y1, y2]], as [#breakEdge] returns them. *)
Abbreviation frag := (number * number * number)%type (only parsing).

Definition frag_x (f : frag) : number := fst (fst f).
Definition frag_y1 (f : frag) : number := snd (fst f).
Definition frag_y2 (f : frag) : number := snd f.

(* ================================================================== *)
(** ** The interval array: [#binarySearch], [#insert], [#remove] *)

(** The loop of [#binarySearch] on the bounds [start] and [end]; each round
    shrinks [end - start], so [fuel] rounds are enough as soon as [fuel]
    exceeds the length of the array (lemma [binarySearch_loop_fuel]). *)
Fixpoint binarySearch_loop (fuel : nat) (array : list interval) (y : number)
    (start end_ : Z) : Z :=
  match fuel with
  | O => (end_ + 1)%Z
  | S fuel' =>
      if (start <=? end_)%Z then
        let middle := Z.shiftr (start + end_) 1 in
        let y1 := fst (nth (Z.to_nat middle) array (NaN, NaN)) in
        if y1 === y then middle
        else if y1 <? y then binarySearch_loop fuel' array y (middle + 1) end_
        else binarySearch_loop fuel' array y start (middle - 1)
      else (end_ + 1)%Z
  end.

Definition binarySearch (array : list interval) (y : number) : nat :=
  Z.to_nat
    (binarySearch_loop (S (length array)) array y 0
       (Z.of_nat (length array) - 1)).

(** [#insert([, y1, y2])] *)
Definition insert (intervals : list interval) (e : edge) : list interval :=
  let index := binarySearch intervals (ey1 e) in
  splice_in index (ey1 e, ey2 e) intervals.

(** The first loop of [#remove]: [l] is the array from index [i] on. *)
Fixpoint remove_up (y1 y2 : number) (l : list interval) (i : nat) : option nat :=
  match l with
  | [] => None
  | (start, end_) :: l' =>
      if negb (start === y1) then None
      else if (start === y1) && (end_ === y2) then Some i
      else remove_up y1 y2 l' (S i)
  end.

(** The second loop of [#remove]: [l] is the array below index [i], read
    downwards. *)
Fixpoint remove_down (y1 y2 : number) (l : list interval) (i : nat) : option nat :=
  match l, i with
  | (start, end_) :: l', S i' =>
      if negb (start === y1) then None
      else if (start === y1) && (end_ === y2) then Some i'
      else remove_down y1 y2 l' i'
  | _, _ => None
  end.

(** [#remove([, y1, y2])] *)
Definition remove (intervals : list interval) (e : edge) : list interval :=
  let index := binarySearch intervals (ey1 e) in
  match remove_up (ey1 e) (ey2 e) (skipn index intervals) index with
  | Some i => splice_out i intervals
  | None =>
      match remove_down (ey1 e) (ey2 e) (rev (firstn index intervals)) index with
      | Some i => splice_out i intervals
      | None => intervals
      end
  end.

(* ================================================================== *)
(** ** [#breakEdge] *)

(** One round of the inner loop against the interval [[start, end]].  The
    array [results] is [done ++ todo ++ pushed]: [done] holds the fragments
    already visited and kept, [todo] those still to visit (so [jj] is
    [length done + length todo]) and [pushed] the ones appended in this
    round.  [None] is the early [return []]. *)
Fixpoint breakRound (x start end_ : number) (done todo pushed : list frag)
  : option (list frag) :=
  match todo with
  | [] => Some (done ++ pushed)
  | (x', y3, y4) :: todo' =>
      if (end_ <=? y3) || (y4 <=? start) then
        breakRound x start end_ (done ++ [(x', y3, y4)]) todo' pushed
      else if y3 >=? start then
        if y4 >? end_ then
          breakRound x start end_ (done ++ [(x', end_, y4)]) todo' pushed
        else if Nat.eqb (length done + length todo) 1 then None
        else breakRound x start end_ done todo' pushed
      else
        breakRound x start end_ (done ++ [(x', y3, start)]) todo'
          (if y4 >? end_ then pushed ++ [(x, end_, y4)] else pushed)
  end.

(** The outer loop, over the intervals below [index]. *)
Fixpoint breakLoop (x : number) (ivs : list interval) (results : list frag)
  : list frag :=
  match ivs with
  | [] => results
  | (start, end_) :: ivs' =>
      match breakRound x start end_ [] results [] with
      | None => []
      | Some results' => breakLoop x ivs' results'
      end
  end.

Definition breakEdge (intervals : list interval) (e : edge) : list frag :=
  let index := binarySearch intervals (ey2 e) in
  breakLoop (ex e) (firstn index intervals) [(ex e, ey1 e, ey2 e)].

(* ================================================================== *)
(** ** The sweep of [getOutlines] *)

(** The comparator of the edge sort: [a[0] - b[0] || a[1] - b[1] || a[2] - b[2]]. *)
Definition edge_cmp (a b : edge) : number :=
  or_else (ex a - ex b) (or_else (ey1 a - ey1 b) (ey2 a - ey2 b)).

(** One round of the sweep loop: the interval array and the outline edges
    collected so far. *)
Definition sweep_step (st : list interval * list frag) (e : edge)
  : list interval * list frag :=
  let '(intervals, out) := st in
  if isLeft e then
    (insert intervals e, out ++ breakEdge intervals e)
  else
    let intervals' := remove intervals e in
    (intervals', out ++ breakEdge intervals' e).

Definition sweep (intervals : list interval) (edges : list edge)
  : list interval * list frag :=
  fold_left sweep_step edges (intervals, []).

(* ================================================================== *)
(** ** [#getOutlines]: linking the outline edges and tracing the polygons

    The outline edges are JavaScript arrays compared by identity; here an
    outline edge is its position in [outlineVerticalEdges].  The references
    pushed on an edge array (its elements 3, 4, ...) are kept per edge in
    [nbrs]; the [Set] [allEdges] is a list in insertion order, which is the
    order in which a [Set] is iterated. *)

(** A vertex [[x, y, edge]]. *)
Abbreviation vertex := (number * number * nat)%type (only parsing).

Definition vertex_x (v : vertex) : number := fst (fst v).
Definition vertex_y (v : vertex) : number := snd (fst v).
Definition vertex_edge (v : vertex) : nat := snd v.

(** The comparator of the vertex sort: [a[1] - b[1] || a[0] - b[0]]. *)
Definition vertex_cmp (a b : vertex) : number :=
  or_else (vertex_y a - vertex_y b) (vertex_x a - vertex_x b).

Fixpoint vertices_from (i : nat) (es : list frag) : list vertex :=
  match es with
  | [] => []
  | (x, y1, y2) :: es' => (x, y1, i) :: (x, y2, i) :: vertices_from (S i) es'
  end.

(** [edge.push(n)] on the edge at position [i]. *)
Fixpoint push_at (i : nat) (n : nat) (nbrs : list (list nat)) : list (list nat) :=
  match nbrs, i with
  | [], _ => []
  | l :: r, O => (l ++ [n]) :: r
  | l :: r, S i' => l :: push_at i' n r
  end.

Definition set_has (s : list nat) (e : option nat) : bool :=
  match e with
  | Some n => existsb (Nat.eqb n) s
  | None => false
  end.

Definition set_add (n : nat) (s : list nat) : list nat :=
  if set_has s (Some n) then s else s ++ [n].

Definition set_delete (n : nat) (s : list nat) : list nat :=
  filter (fun m => negb (Nat.eqb n m)) s.

(** The pairing loop: every pair of consecutive vertices links its two
    edges.  The vertex array has two entries per edge, hence an even length. *)
Fixpoint link (vs : list vertex) (st : list (list nat) * list nat)
  : list (list nat) * list nat :=
  match vs with
  | v1 :: v2 :: vs' =>
      let '(nbrs, allEdges) := st in
      let edge1 := vertex_edge v1 in
      let edge2 := vertex_edge v2 in
      link vs'
        (push_at edge2 edge1 (push_at edge1 edge2 nbrs),
         set_add edge2 (set_add edge1 allEdges))
  | _ => st
  end.

(** The destructuring [[x, y1, y2, edge1, edge2] = edge]. *)
Definition edge_coords (es : list frag) (e : nat) : frag :=
  nth e es (NaN, NaN, NaN).

Definition edge_nbr (nbrs : list (list nat)) (e : nat) (k : nat) : option nat :=
  nth_error (nth e nbrs []) k.

(** The inner [while (true)] loop.  Every round deletes an edge of
    [allEdges], so [length allEdges] rounds of fuel are never used up
    (lemma [walk_fuel]). *)
Fixpoint walk (fuel : nat) (es : list frag) (nbrs : list (list nat))
    (allEdges : list nat) (edge1 edge2 : option nat)
    (lastPointX lastPointY : number) (outline : list number)
  : list number * list nat :=
  let stop := (outline ++ [lastPointX; lastPointY], allEdges) in
  match fuel with
  | O => stop
  | S fuel' =>
      let next :=
        if set_has allEdges edge1 then edge1
        else if set_has allEdges edge2 then edge2
        else None in
      match next with
      | None => stop
      | Some e =>
          let allEdges' := set_delete e allEdges in
          let '(x, y1, y2) := edge_coords es e in
          let outline' :=
            if negb (lastPointX === x) then
              outline ++ [lastPointX; lastPointY; x;
                          if lastPointY === y1 then y1 else y2]
            else outline in
          let lastPointX' := if negb (lastPointX === x) then x else lastPointX in
          let lastPointY' := if lastPointY === y1 then y2 else y1 in
          walk fuel' es nbrs allEdges' (edge_nbr nbrs e 0) (edge_nbr nbrs e 1)
            lastPointX' lastPointY' outline'
      end
  end.

(** The outer [while (allEdges.size > 0)] loop. *)
Fixpoint trace (fuel : nat) (es : list frag) (nbrs : list (list nat))
    (allEdges : list nat) (outlines : list (list number))
  : list (list number) :=
  match fuel, allEdges with
  | S fuel', e :: _ =>
      let '(x, y1, y2) := edge_coords es e in
      let allEdges' := set_delete e allEdges in
      let '(outline, allEdges'') :=
        walk (List.length allEdges') es nbrs allEdges'
          (edge_nbr nbrs e 0) (edge_nbr nbrs e 1) x y1 [x; y2] in
      trace fuel' es nbrs allEdges'' (outlines ++ [outline])
  | _, _ => outlines
  end.

Definition traceOutlines (outlineVerticalEdges : list frag) : list (list number) :=
  let edges := sortBy vertex_cmp (vertices_from 0 outlineVerticalEdges) in
  let '(nbrs, allEdges) :=
    link edges (map (fun _ => []) outlineVerticalEdges, []) in
  trace (List.length allEdges) outlineVerticalEdges nbrs allEdges [].

(* ================================================================== *)
(** ** Objects keyed by numbers: [lineByBaseHeight]

    A property key is the string of a number.  A key is kept here as the
    number itself, which [ToNumber] gives back from the string ([+a],
    [y2 - obj.minY1]); its string is [toString].  Two numbers name the same
    property when they are the same value. *)

Definition digit_of (d : Z) : ascii :=
  ascii_of_nat (48 + Z.to_nat d).

(** The digits after the decimal point of [0 <= r < 1]. *)
Fixpoint frac_digits (fuel : nat) (r : Q) : string :=
  match fuel with
  | O => EmptyString
  | S fuel' =>
      if Qeq_bool r 0 then EmptyString
      else
        let d := Qfloor (r * 10) in
        String (digit_of d) (frac_digits fuel' (Qred (r * 10 - inject_Z d)))
  end.

Definition toString_pos (q : Q) : string :=
  let i := Qfloor q in
  let r := Qred (q - inject_Z i) in
  let int_part := DecimalString.NilZero.string_of_uint (N.to_uint (Z.to_N i)) in
  if Qeq_bool r 0 then int_part
  else (int_part ++ String "."%char (frac_digits 20 r))%string.

(** [String(n)]: the decimal expansion of the exact value.  It is the
    string JavaScript gives for the values used as keys, the multiples of
    [EPSILON] below [1e21] in magnitude. *)
Definition toString (n : number) : string :=
  match n with
  | NaN => "NaN"%string
  | PInf => "Infinity"%string
  | NInf => "-Infinity"%string
  | Fin q =>
      match (q ?= 0)%Q with
      | Lt => String "-"%char (toString_pos (Qred (- q)))
      | _ => toString_pos q
      end
  end.

(** [a >= b] on strings compares them code unit by code unit. *)
Definition string_geb (a b : string) : bool := String.leb b a.

Definition key_eqb (a b : number) : bool :=
  match a, b with
  | NaN, NaN => true
  | _, _ => a === b
  end.

(** An array index is an integer key in [0, 2^32 - 2]. *)
Definition is_index (k : number) : bool :=
  match k with
  | Fin q =>
      Qeq_bool q (inject_Z (Qfloor q)) && (0 <=? Qfloor q)%Z
      && (Qfloor q <? 4294967295)%Z
  | _ => false
  end.

Section Dict.
Variable V : Type.

(** The properties in creation order. *)
Definition dict : Type := list (number * V).

Fixpoint lookup (k : number) (d : dict) : option V :=
  match d with
  | [] => None
  | (k', v) :: d' => if key_eqb k k' then Some v else lookup k d'
  end.

(** [d[k] = v] *)
Fixpoint assign (k : number) (v : V) (d : dict) : dict :=
  match d with
  | [] => [(k, v)]
  | (k', v') :: d' =>
      if key_eqb k k' then (k', v) :: d' else (k', v') :: assign k v d'
  end.

(** [delete d[k]] *)
Definition delete (k : number) (d : dict) : dict :=
  filter (fun kv => negb (key_eqb k (fst kv))) d.

(** [Object.entries(d)]: the array indices in ascending order, then the
    other keys in creation order. *)
Definition entries (d : dict) : list (number * V) :=
  sortBy (fun a b => fst a - fst b) (filter (fun kv => is_index (fst kv)) d)
  ++ filter (fun kv => negb (is_index (fst kv))) d.

(** [Object.keys(d)] *)
Definition keys (d : dict) : list number := map fst (entries d).

End Dict.

(* ================================================================== *)
(** ** The constructor *)

Inductive error : Type :=
| TypeError.

(** How a call ends: it returns a value or throws. *)
Inductive completion (A : Type) : Type :=
| Normal (a : A)
| Throw (e : error).

Arguments Normal {A} a.
Arguments Throw {A} e.

Definition bind (A B : Type) (c : completion A) (k : A -> completion B)
  : completion B :=
  match c with
  | Normal a => k a
  | Throw e => Throw e
  end.

(** A rectangle [{x, y, width, height}] of the caller. *)
Record rect : Type := Rect {
  x : number;
  y : number;
  width : number;
  height : number
}.

(** A box [{x1, y1, x2}] saved under its baseline. *)
Record lbox : Type := LBox {
  x1 : number;
  y1 : number;
  x2 : number
}.

(** A baseline group [{boxes, minY1}]. *)
Record group : Type := Group {
  boxes : list lbox;
  minY1 : number
}.

(** A line rectangle [{x1, x2, y1, y2}], relative to the box. *)
Record lineRect : Type := LineRect {
  lr_x1 : number;
  lr_x2 : number;
  lr_y1 : number;
  lr_y2 : number
}.

(** [this.#box] *)
Record bbox : Type := BBox {
  box_x : number;
  box_y : number;
  box_width : number;
  box_height : number;
  lastPoint : number * number
}.

(** The private fields of the instance. *)
Record Outliner : Type := MkOutliner {
  o_box : bbox;
  o_verticalEdges : list edge;
  o_intervals : list interval;
  o_lineRects : list lineRect
}.

Definition NUMBER_OF_DIGITS : Z := 4.

(** [10 ** -NUMBER_OF_DIGITS] *)
Definition EPSILON : number := Fin (1 # Z.to_pos (10 ^ NUMBER_OF_DIGITS)).

(** The variables of the first loop. *)
Record bounds : Type := Bounds {
  b_edges : list edge;
  minX : number;
  maxX : number;
  minY : number;
  maxY : number;
  lineByBaseHeight : dict group
}.

Definition bounds0 : bounds :=
  {| b_edges := []; minX := PInf; maxX := NInf; minY := PInf; maxY := NInf;
     lineByBaseHeight := [] |}.

(** The rounded coordinates [(x1, x2, y1, y2)] of a rectangle. *)
Definition quantize (borderWidth : number) (b : rect)
  : number * number * number * number :=
  let x1 := floor ((x b - borderWidth) / EPSILON) * EPSILON in
  let x2 := ceil ((x b + width b + borderWidth) / EPSILON) * EPSILON in
  let y1 := floor ((y b - borderWidth) / EPSILON) * EPSILON in
  let y2 := ceil ((y b + height b + borderWidth) / EPSILON) * EPSILON in
  (x1, x2, y1, y2).

(** The body of the loop over [boxes]. *)
Definition round_box (borderWidth : number) (st : bounds) (b : rect) : bounds :=
  let '(x1, x2, y1, y2) := quantize borderWidth b in
  let left := Edge x1 y1 y2 true in
  let right := Edge x2 y1 y2 false in
  let d := lineByBaseHeight st in
  let d1 :=
    match lookup y2 d with
    | None => assign y2 {| boxes := []; minY1 := PInf |} d
    | Some _ => d
    end in
  let d2 :=
    match lookup y2 d1 with
    | Some prev =>
        assign y2
          {| boxes := boxes prev ++ [LBox x1 y1 x2];
             minY1 := Num.min (minY1 prev) y1 |} d1
    | None => d1
    end in
  {| b_edges := b_edges st ++ [left; right];
     minX := Num.min (minX st) x1;
     maxX := Num.max (maxX st) x2;
     minY := Num.min (minY st) y1;
     maxY := Num.max (maxY st) y2;
     lineByBaseHeight := d2 |}.

(** [array.at(-k - 1)] *)
Definition at_back (A : Type) (k : nat) (l : list A) : option A :=
  nth_error (rev l) k.

(** The loop that merges similar baselines.  [prevObj] was stored in the
    round before and [currentY2] is a key of [lineByBaseHeight], so both
    lookups find an object; reading [minY1] of [undefined] would throw. *)
Fixpoint mergeLoop (lineByBaseHeight : dict group) (prevY2 : number)
    (rest : list number) (newLineByBaseHeight : dict group)
  : completion (dict group) :=
  match rest with
  | [] => Normal newLineByBaseHeight
  | currentY2 :: rest' =>
      match lookup prevY2 newLineByBaseHeight,
            lookup currentY2 lineByBaseHeight with
      | Some prevObj, Some currentObj =>
          if string_geb (toString currentY2) (toString prevY2)
             && (minY1 prevObj >=? minY1 currentObj)
          then
            mergeLoop lineByBaseHeight currentY2 rest'
              (delete prevY2
                 (assign currentY2
                    {| boxes := boxes prevObj ++ boxes currentObj;
                       minY1 := Num.min (minY1 prevObj) (minY1 currentObj) |}
                    newLineByBaseHeight))
          else
            mergeLoop lineByBaseHeight currentY2 rest'
              (assign currentY2 currentObj newLineByBaseHeight)
      | _, _ => Throw TypeError
      end
  end.

Definition mergeLines (lineByBaseHeight : dict group) : completion (dict group) :=
  let lineKeys := keys lineByBaseHeight in
  match sortBy (fun a b => a - b) lineKeys with
  | [] => Normal lineByBaseHeight
  | firstValue :: rest =>
      match lookup firstValue lineByBaseHeight with
      | Some g => mergeLoop lineByBaseHeight firstValue rest [(firstValue, g)]
      | None => Throw TypeError
      end
  end.

(** The loop that cuts the sorted boxes of a line into runs;
    [partitionedBoxes] is [done ++ [lastBox]]. *)
Fixpoint partitionLoop (maxSpaceSize : number) (done : list lbox)
    (lastBox : lbox) (rest : list lbox) : list lbox :=
  match rest with
  | [] => done ++ [lastBox]
  | currentBox :: rest' =>
      if x2 currentBox - x2 lastBox >? maxSpaceSize then
        partitionLoop maxSpaceSize (done ++ [lastBox]) currentBox rest'
      else
        partitionLoop maxSpaceSize done
          {| x1 := Num.min (x1 currentBox) (x1 lastBox);
             y1 := Num.min (y1 currentBox) (y1 lastBox);
             x2 := Num.max (x2 currentBox) (x2 lastBox) |} rest'
  end.

(** The callback of [Object.entries(lineByBaseHeight).map].  A group holds
    at least one box; destructuring the [undefined] first box of an empty
    group would throw. *)
Definition partitionLine (entry : number * group)
  : completion (number * list lbox) :=
  let '(y2, obj) := entry in
  let boxesSorted := sortBy (fun a b => x1 a - x1 b) (boxes obj) in
  let averageHeight := y2 - minY1 obj in
  let maxSpaceSize := averageHeight * Fin 2 in
  match boxesSorted with
  | [] => Throw TypeError
  | first :: rest => Normal (y2, partitionLoop maxSpaceSize [] first rest)
  end.

Fixpoint mapM (A B : Type) (f : A -> completion B) (l : list A)
  : completion (list B) :=
  match l with
  | [] => Normal []
  | a :: l' =>
      bind (f a) (fun b => bind (mapM f l') (fun bs => Normal (b :: bs)))
  end.

(** A box of a run as a line rectangle, in coordinates relative to the
    bounding box. *)
Definition toLineRect (shiftedMinX shiftedMinY bboxWidth bboxHeight : number)
    (y2 : number) (b : lbox) : lineRect :=
  {| lr_x1 := (x1 b - shiftedMinX) / bboxWidth;
     lr_x2 := (x2 b - shiftedMinX) / bboxWidth;
     lr_y1 := (y1 b - shiftedMinY) / bboxHeight;
     lr_y2 := (y2 - shiftedMinY) / bboxHeight |}.

(** The conversion of the runs into line rectangles. *)
Definition toLineRects (shiftedMinX shiftedMinY bboxWidth bboxHeight : number)
    (partitionedLines : list (number * list lbox)) : list lineRect :=
  flat_map
    (fun '(y2, partitionedBoxes) =>
       map (toLineRect shiftedMinX shiftedMinY bboxWidth bboxHeight y2)
           partitionedBoxes)
    partitionedLines.

(** An edge in coordinates relative to the bounding box. *)
Definition toBoxEdge (shiftedMinX shiftedMinY bboxWidth bboxHeight : number)
    (e : edge) : edge :=
  {| ex := (ex e - shiftedMinX) / bboxWidth;
     ey1 := (ey1 e - shiftedMinY) / bboxHeight;
     ey2 := (ey2 e - shiftedMinY) / bboxHeight;
     isLeft := isLeft e |}.

(** [new Outliner(boxes, borderWidth, innerMargin, isLTR, skipLineRects)] *)
Definition construct (boxes : list rect) (borderWidth innerMargin : number)
    (isLTR skipLineRects : bool) : completion Outliner :=
  let st := fold_left (round_box borderWidth) boxes bounds0 in
  let bboxWidth := maxX st - minX st + Fin 2 * innerMargin in
  let bboxHeight := maxY st - minY st + Fin 2 * innerMargin in
  let shiftedMinX := minX st - innerMargin in
  let shiftedMinY := minY st - innerMargin in
  match at_back (if isLTR then 0 else 1) (b_edges st) with
  | None => Throw TypeError
  | Some lastEdge =>
      let lastPoint := (ex lastEdge, ey2 lastEdge) in
      let verticalEdges :=
        map (toBoxEdge shiftedMinX shiftedMinY bboxWidth bboxHeight)
          (b_edges st) in
      let box :=
        {| box_x := shiftedMinX; box_y := shiftedMinY;
           box_width := bboxWidth; box_height := bboxHeight;
           lastPoint := lastPoint |} in
      if skipLineRects then
        Normal (MkOutliner box verticalEdges [] [])
      else
        bind (mergeLines (lineByBaseHeight st)) (fun merged =>
        bind (mapM partitionLine (entries merged)) (fun partitionedLines =>
        Normal
          (MkOutliner box verticalEdges []
             (toLineRects shiftedMinX shiftedMinY bboxWidth bboxHeight
                partitionedLines))))
  end.

(** What [getOutlines] returns. *)
Record outlines_result : Type := OutlinesResult {
  outlines : list (list number);
  res_box : bbox;
  res_lineRects : list lineRect
}.

(** [getOutlines()]: the instance after the call and the result. *)
Definition getOutlines (o : Outliner) : Outliner * outlines_result :=
  let sorted := sortBy edge_cmp (o_verticalEdges o) in
  let '(intervals, outlineVerticalEdges) := sweep (o_intervals o) sorted in
  (MkOutliner (o_box o) sorted intervals (o_lineRects o),
   OutlinesResult (traceOutlines outlineVerticalEdges) (o_box o)
     (o_lineRects o)).

(** [getUnderlinesAndStrikeouts()] *)
Definition getUnderlinesAndStrikeouts (o : Outliner) : bbox * list lineRect :=
  (o_box o, o_lineRects o).


(* ================================================================== *)
(** ** Vocabulary of the statements *)

Definition finite_interval (iv : interval) : Prop :=
  finite (fst iv) /\ finite (snd iv).

Definition finite_edge (e : edge) : Prop :=
  finite (ex e) /\ finite (ey1 e) /\ finite (ey2 e).

Definition finite_frag (f : frag) : Prop :=
  finite (frag_x f) /\ finite (frag_y1 f) /\ finite (frag_y2 f).

(** The interval array is sorted by the start of its intervals. *)
Definition start_le (a b : interval) : Prop := (fst a <=? fst b) = true.

Definition sorted_by_start (ivs : list interval) : Prop :=
  StronglySorted start_le ivs.

(** The test of [#remove]: both ends are those of the edge. *)
Definition matches (y1 y2 : number) (iv : interval) : bool :=
  (fst iv === y1) && (snd iv === y2).

(** The start of the interval at index [i], as a rational. *)
Definition st (array : list interval) (i : nat) : Q :=
  qv (fst (nth i array (NaN, NaN))).

(** The new interval comes after every interval of the same start. *)
Definition inserted_after_ties (ivs : list interval) (e : edge) : Prop :=
  exists l1 l2,
    ivs = l1 ++ l2 /\ insert ivs e = l1 ++ (ey1 e, ey2 e) :: l2 /\
    Forall (fun iv => (fst iv === ey1 e) = false) l2.

(** The ends of intervals and fragments, as rationals. *)
Definition iv_s (iv : interval) : Q := qv (fst iv).
Definition iv_e (iv : interval) : Q := qv (snd iv).
Definition fy1 (f : frag) : Q := qv (frag_y1 f).
Definition fy2 (f : frag) : Q := qv (frag_y2 f).

Definition proper_interval (iv : interval) : Prop := (iv_s iv < iv_e iv)%Q.

(** A fragment of the edge at [x] from [y1] to [y2]: a segment of positive
    length inside the edge. *)
Definition frag_ok (x : number) (y1 y2 : Q) (f : frag) : Prop :=
  finite_frag f /\ frag_x f = x /\
  (y1 <= fy1 f)%Q /\ (fy1 f < fy2 f)%Q /\ (fy2 f <= y2)%Q.

(** [f] lies below [g], with a gap between them. *)
Definition frag_before (f g : frag) : Prop := (fy2 f < fy1 g)%Q.

(** The interval does not reach inside the fragment. *)
Definition clear_of (iv : interval) (f : frag) : Prop :=
  (iv_e iv <= fy1 f)%Q \/ (fy2 f <= iv_s iv)%Q.

(** Every point of the edge lies on a fragment or in an interval that
    starts below the top of the edge. *)
Definition covered_or_kept (y1 y2 : Q) (ivs : list interval) (R : list frag)
  : Prop :=
  forall t : Q, (y1 <= t <= y2)%Q ->
    Exists (fun f => (fy1 f <= t <= fy2 f)%Q) R \/
    Exists (fun iv => (iv_s iv < y2)%Q /\ (iv_s iv <= t <= iv_e iv)%Q) ivs.

(** The state of [#breakEdge] between two rounds of its outer loop: [ivs]
    are the intervals already used and [b] is the start of the last one. *)
Record break_inv (x : number) (y1 y2 b : Q) (ivs : list interval)
    (R : list frag) : Prop := BreakInv {
  bi_ok : Forall (frag_ok x y1 y2) R;
  bi_sep : StronglySorted frag_before R;
  bi_clear : Forall (fun f => Forall (fun iv => clear_of iv f) ivs) R;
  bi_cov : covered_or_kept y1 y2 ivs R;
  bi_final : forall pre last, R = pre ++ [last] ->
             Forall (fun f => (fy2 f <= b)%Q) pre
}.

(** A fragment that the interval [[s, e]] does not meet is kept as it is. *)
Definition skipped (s e : number) (f : frag) : Prop :=
  ((e <=? frag_y1 f) || (frag_y2 f <=? s)) = true.

(* ------------------------------------------------------------------ *)
(** *** The rectangles behind the edges *)

(** A rectangle with finite coordinates: the rounded rectangle of a box, in
    the coordinates in which the edges are swept. *)
Record qrect : Type := QRect {
  rx1 : Q;
  rx2 : Q;
  ry1 : Q;
  ry2 : Q
}.

Definition wf_rect (r : qrect) : Prop :=
  (rx1 r < rx2 r)%Q /\ (ry1 r < ry2 r)%Q.

(** The two edges pushed for a rectangle: [left] and [right]. *)
Definition left_edge (r : qrect) : edge :=
  Edge (Fin (rx1 r)) (Fin (ry1 r)) (Fin (ry2 r)) true.

Definition right_edge (r : qrect) : edge :=
  Edge (Fin (rx2 r)) (Fin (ry1 r)) (Fin (ry2 r)) false.

Definition edges_of (r : qrect) : list edge := [left_edge r; right_edge r].

Definition all_edges (rects : list qrect) : list edge :=
  flat_map edges_of rects.

(** The lexicographic order of the edge sort. *)
Definition edge_lex (a b : edge) : Prop :=
  (qv (ex a) < qv (ex b))%Q \/
  ((qv (ex a) == qv (ex b))%Q /\
   ((qv (ey1 a) < qv (ey1 b))%Q \/
    ((qv (ey1 a) == qv (ey1 b))%Q /\ (qv (ey2 a) <= qv (ey2 b))%Q))).

(** [t] is not the ordinate of a horizontal side. *)
Definition generic (rects : list qrect) (t : Q) : Prop :=
  Forall (fun r => ~ (t == ry1 r)%Q /\ ~ (t == ry2 r)%Q) rects.

(** At ordinate [t], the union of the rectangles covers the left side,
    or the right side, of the vertical line at [x]. *)
Definition covers_left (rects : list qrect) (x t : Q) : Prop :=
  Exists (fun r => (rx1 r < x)%Q /\ (x <= rx2 r)%Q /\
                   (ry1 r < t)%Q /\ (t < ry2 r)%Q) rects.

Definition covers_right (rects : list qrect) (x t : Q) : Prop :=
  Exists (fun r => (rx1 r <= x)%Q /\ (x < rx2 r)%Q /\
                   (ry1 r < t)%Q /\ (t < ry2 r)%Q) rects.

(** The point [(x, t)] is on the boundary of the union: exactly one side of
    the line at [x] is covered. *)
Definition on_boundary (rects : list qrect) (x t : Q) : Prop :=
  (covers_left rects x t /\ ~ covers_right rects x t) \/
  (~ covers_left rects x t /\ covers_right rects x t).

(** The point [(x, t)] lies on one of the fragments. *)
Definition emitted (out : list frag) (x t : Q) : Prop :=
  Exists (fun f => finite_frag f /\ (qv (frag_x f) == x)%Q /\
                   (fy1 f <= t)%Q /\ (t <= fy2 f)%Q) out.

(** No right side lies on the line of a left side with ordinates in
    common. *)
Definition no_abutting (rects : list qrect) : Prop :=
  forall r r', In r rects -> In r' rects -> (rx2 r == rx1 r')%Q ->
    (ry2 r <= ry1 r')%Q \/ (ry2 r' <= ry1 r)%Q.

(** The number of elements that pass a test. *)
Definition count (A : Type) (p : A -> bool) (l : list A) : nat :=
  List.length (filter p l).

(** Tests on edges and intervals, for an ordinate [t] and an abscissa [x]. *)
Definition has_t (t : Q) (e : edge) : bool :=
  (ey1 e <? Fin t) && (Fin t <? ey2 e).

Definition iv_has (t : Q) (iv : interval) : bool :=
  (fst iv <? Fin t) && (Fin t <? snd iv).

Definition left_if (p : edge -> bool) (e : edge) : bool := isLeft e && p e.
Definition right_if (p : edge -> bool) (e : edge) : bool := negb (isLeft e) && p e.

Definition andp (A : Type) (p r : A -> bool) (a : A) : bool := p a && r a.

Definition x_below (x : Q) (e : edge) : bool := ex e <? Fin x.
Definition x_at (x : Q) (e : edge) : bool := ex e === Fin x.

(** A test on the two ordinates of an edge or an interval that does not
    tell equal numbers apart. *)
Definition compat (phi : number -> number -> bool) : Prop :=
  forall a a' b b', (a === a') = true -> (b === b') = true ->
    phi a b = phi a' b'.

Definition on_edge (phi : number -> number -> bool) (e : edge) : bool :=
  phi (ey1 e) (ey2 e).

Definition on_interval (phi : number -> number -> bool) (iv : interval) : bool :=
  phi (fst iv) (snd iv).

(** An edge with finite coordinates and [y1 < y2]. *)
Definition proper_edge (e : edge) : Prop :=
  finite_edge e /\ (qv (ey1 e) < qv (ey2 e))%Q.

(** The state of the sweep after the edges [P]: the intervals are those
    of the left edges of [P] whose right edge is not in [P]. *)
Record sweep_inv (P : list edge) (I : list interval) : Prop := SweepInv {
  si_finite : Forall finite_interval I;
  si_proper : Forall proper_interval I;
  si_sorted : sorted_by_start I;
  si_count : forall phi, compat phi ->
      (count (on_interval phi) I + count (right_if (on_edge phi)) P
       = count (left_if (on_edge phi)) P)%nat
}.

(** Before every right edge, more left edges than right edges of its
    ordinates have been met. *)
Definition balanced (L : list edge) : Prop :=
  forall P e S, L = P ++ e :: S -> isLeft e = false ->
    (count (right_if (on_edge (fun a b => (a === ey1 e) && (b === ey2 e)))) P
     < count (left_if (on_edge (fun a b => (a === ey1 e) && (b === ey2 e)))) P)%nat.

(** [t] is not an end of the edge, or of the interval. *)
Definition off_edge (t : Q) (e : edge) : Prop :=
  ~ (t == qv (ey1 e))%Q /\ ~ (t == qv (ey2 e))%Q.

Definition off_interval (t : Q) (iv : interval) : Prop :=
  ~ (t == iv_s iv)%Q /\ ~ (t == iv_e iv)%Q.

(** The edge [e], met after the edges [P], lies at [x], spans [t], and as
    many left as right edges that span [t] have been met (itself counted
    when it is a right edge). *)
Definition emits (P : list edge) (e : edge) (x t : Q) : Prop :=
  (qv (ex e) == x)%Q /\ has_t t e = true /\
  (count (left_if (has_t t)) P
   = count (right_if (has_t t)) P + (if isLeft e then 0 else 1))%nat.

(** Tests on rectangles: [t] is between the horizontal sides, and the line
    at [x] is right of the left side and at most at the right side
    ([r_mid]), strictly between the sides ([r_in]), at the right side
    ([r_at2]), at the left side ([r_at1]). *)
Definition r_has (t : Q) (r : qrect) : bool :=
  (Fin (ry1 r) <? Fin t) && (Fin t <? Fin (ry2 r)).

Definition r_mid (x t : Q) (r : qrect) : bool :=
  r_has t r && ((Fin (rx1 r) <? Fin x) && (Fin x <=? Fin (rx2 r))).

Definition r_in (x t : Q) (r : qrect) : bool :=
  r_has t r && ((Fin (rx1 r) <? Fin x) && (Fin x <? Fin (rx2 r))).

Definition r_at1 (x t : Q) (r : qrect) : bool :=
  r_has t r && (Fin (rx1 r) === Fin x).

Definition r_at2 (x t : Q) (r : qrect) : bool :=
  r_has t r && (Fin (rx2 r) === Fin x).

Definition r_below1 (x t : Q) (r : qrect) : bool :=
  r_has t r && (Fin (rx1 r) <? Fin x).

Definition r_below2 (x t : Q) (r : qrect) : bool :=
  r_has t r && (Fin (rx2 r) <? Fin x).

(* ------------------------------------------------------------------ *)
(** *** Sample inputs *)

Definition num (z : Z) : number := Fin (inject_Z z).

(** An array of three intervals, two of them equal. *)
Definition sample_intervals : list interval :=
  [(num 0, num 1); (num 0, num 1); (num 1, num 2)].

Definition sample_right_edge : edge := Edge (num 5) (num 0) (num 1) false.

(** Two intervals inside the edge from 0 to 10. *)
Definition sample_gaps : list interval := [(num 2, num 3); (num 5, num 7)].

Definition sample_edge : edge := Edge (num 4) (num 0) (num 10) true.

(** An interval that covers the edge from 2 to 3. *)
Definition sample_cover : list interval := [(num 1, num 5)].

Definition sample_short_edge : edge := Edge (num 4) (num 2) (num 3) true.

(** Two abutting unit squares, the left one first, as rectangles of the
    caller and in the coordinates of their bounding box. *)
Definition abutting_boxes : list rect :=
  [Rect (num 0) (num 0) (num 1) (num 1); Rect (num 1) (num 0) (num 1) (num 1)].

Definition abutting_rects : list qrect :=
  [QRect 0 (1 # 2) 0 1; QRect (1 # 2) 1 0 1].

(** Two overlapping squares in the coordinates of their bounding box. *)
Definition overlapping_rects : list qrect :=
  [QRect 0 (2 # 3) 0 (2 # 3); QRect (1 # 3) 1 (1 # 3) 1].

(** Two overlapping squares of side 2, at [(0, 0)] and at [(1, 1)]. *)
Definition overlapping_boxes : list rect :=
  [Rect (num 0) (num 0) (num 2) (num 2); Rect (num 1) (num 1) (num 2) (num 2)].

(* ------------------------------------------------------------------ *)
(** *** Baseline groups *)

(** The canonical form of a key: two numbers name the same property when
    their canonical forms are equal. *)
Definition key_of (n : number) : number :=
  match n with Fin q => Fin (Qred q) | _ => n end.

Definition entry_key (V : Type) (kv : number * V) : number := key_of (fst kv).

(** An object has one property per key. *)
Definition keys_distinct (V : Type) (d : dict V) : Prop :=
  NoDup (map (@entry_key V) d).

(** A property of the groups of an object: of the keys, and of the boxes,
    of which every group has at least one. *)
Definition group_ok (K : number -> Prop) (B : lbox -> Prop)
    (kv : number * group) : Prop :=
  K (fst kv) /\ boxes (snd kv) <> [] /\ Forall B (boxes (snd kv)).

(** A test on boxes that the union of two boxes passes when both do. *)
Definition union_closed (B : lbox -> Prop) : Prop :=
  forall a b, B a -> B b ->
    B {| x1 := Num.min (x1 a) (x1 b);
         y1 := Num.min (y1 a) (y1 b);
         x2 := Num.max (x2 a) (x2 b) |}.

(* ------------------------------------------------------------------ *)
(** *** The constructor *)

(** The two edges pushed for a rectangle of the caller. *)
Definition box_edges (borderWidth : number) (b : rect) : list edge :=
  let '(x1, x2, y1, y2) := quantize borderWidth b in
  [Edge x1 y1 y2 true; Edge x2 y1 y2 false].

(** The edges pushed by the first loop, in the order of the boxes. *)
Definition quantized_edges (borderWidth : number) (boxes : list rect)
  : list edge :=
  flat_map (box_edges borderWidth) boxes.

Definition any_key (k : number) : Prop := True.
Definition any_box (b : lbox) : Prop := True.

(** The key and the box that a rectangle adds to the baseline groups pass
    the tests [K] and [B]. *)
Definition box_passes (K : number -> Prop) (B : lbox -> Prop)
    (borderWidth : number) (b : rect) : Prop :=
  K (snd (quantize borderWidth b)) /\
  B (LBox (fst (fst (fst (quantize borderWidth b))))
          (snd (fst (quantize borderWidth b)))
          (snd (fst (fst (quantize borderWidth b))))).


(** [EPSILON] as a rational. *)
Definition eps : Q := 1 # 10000.

(** A rectangle of positive size with finite coordinates. *)
Definition good_box (b : rect) : Prop :=
  finite (x b) /\ finite (y b) /\ finite (width b) /\ finite (height b) /\
  (0 < qv (width b))%Q /\ (0 < qv (height b))%Q.

(** A border width or a margin: finite and not negative. *)
Definition good_margin (m : number) : Prop := finite m /\ (0 <= qv m)%Q.

(** The rounded rectangle [(x1, x2, y1, y2)] of a box lies in the bounds
    [a <= x <= b], [c <= y <= d], and has a positive size. *)
Definition rounded_in (a b c d : Q) (r : number * number * number * number)
  : Prop :=
  exists qx1 qx2 qy1 qy2,
    r = (Fin qx1, Fin qx2, Fin qy1, Fin qy2) /\
    (a <= qx1)%Q /\ (qx1 < qx2)%Q /\ (qx2 <= b)%Q /\
    (c <= qy1)%Q /\ (qy1 < qy2)%Q /\ (qy2 <= d)%Q.


(** The coordinates of an edge, a fragment, a line rectangle or an outline
    satisfy [P]. *)
Definition edge_all (P : number -> Prop) (e : edge) : Prop :=
  P (ex e) /\ P (ey1 e) /\ P (ey2 e).

Definition interval_all (P : number -> Prop) (iv : interval) : Prop :=
  P (fst iv) /\ P (snd iv).

Definition frag_all (P : number -> Prop) (f : frag) : Prop :=
  P (frag_x f) /\ P (frag_y1 f) /\ P (frag_y2 f).


(** A page coordinate relative to the bounding box. *)
Definition relX (bb : bbox) (v : number) : number :=
  (v - box_x bb) / box_width bb.

Definition relY (bb : bbox) (v : number) : number :=
  (v - box_y bb) / box_height bb.


(** The rounded rectangle of a box of the caller in the coordinates of the
    box [bb], and those of all the boxes. *)
Definition box_rect (bb : bbox) (borderWidth : number) (b : rect) : qrect :=
  let '(x1, x2, y1, y2) := quantize borderWidth b in
  QRect (qv (relX bb x1)) (qv (relX bb x2)) (qv (relY bb y1)) (qv (relY bb y2)).

Definition box_rects (bb : bbox) (borderWidth : number) (boxes : list rect)
  : list qrect :=
  map (box_rect bb borderWidth) boxes.


(** The last point is that of the last edge in the order of the edge sort
    (of the one before it when [isLTR] is false). *)
Definition lastPoint_is_rightmost (boxes : list rect)
    (borderWidth innerMargin : number) (isLTR : bool) : Prop :=
  forall o e,
    construct boxes borderWidth innerMargin isLTR false = Normal o ->
    at_back (if isLTR then 0 else 1)
      (sortBy edge_cmp (quantized_edges borderWidth boxes)) = Some e ->
    lastPoint (o_box o) = (ex e, ey2 e).

(** A coordinate of an edge of the instance is [NaN]. *)
Definition nan_polluted (o : Outliner) : Prop :=
  Exists (fun e => is_nan (ex e) = true \/ is_nan (ey1 e) = true \/
                   is_nan (ey2 e) = true) (o_verticalEdges o).

(** Two unit squares, the right one first. *)
Definition swapped_boxes : list rect :=
  [Rect (num 10) (num 0) (num 1) (num 1); Rect (num 0) (num 0) (num 1) (num 1)].

(** A rectangle of no size. *)
Definition empty_box : list rect := [Rect (num 0) (num 0) (num 0) (num 0)].

(** A unit square whose abscissa is [NaN]. *)
Definition nan_box : list rect := [Rect NaN (num 0) (num 1) (num 1)].


(** Two boxes with the baselines 9.5 (top 8) and 10 (top 7). *)
Definition jitter_boxes : list rect :=
  [Rect (num 0) (num 8) (num 1) (Fin (3 # 2)); Rect (num 0) (num 7) (num 1) (num 3)].

Definition jitter_groups : dict group :=
  [(Fin (19 # 2), Group [LBox (num 0) (num 8) (num 1)] (num 8));
   (num 10, Group [LBox (num 0) (num 7) (num 1)] (num 7))].

(** The baseline groups at 100 (top 90) and 101 (top 85). *)
Definition close_groups : dict group :=
  [(num 100, Group [LBox (num 0) (num 90) (num 10)] (num 90));
   (num 101, Group [LBox (num 20) (num 85) (num 30)] (num 85))].

(** Two boxes on one baseline, [0, 10] and [25, 32], of height 10. *)
Definition gap_boxes : list rect :=
  [Rect (num 0) (num 0) (num 10) (num 10);
   Rect (num 25) (num 0) (num 7) (num 10)].

(** A line of height 10 with the boxes [0, 10] and [25, 32]. *)
Definition gap_line : number * group :=
  (num 10, Group [LBox (num 0) (num 0) (num 10); LBox (num 25) (num 0) (num 32)]
             (num 0)).

(** A line of height 10 with the boxes [0, 10], [12, 20] and [200, 210]. *)
Definition three_box_line : number * group :=
  (num 10, Group [LBox (num 0) (num 0) (num 10); LBox (num 12) (num 0) (num 20);
                  LBox (num 200) (num 0) (num 210)] (num 0)).

(* ================================================================== *)
(** ** The objects of the caller: the constructor on a store

    The definitions above pass values.  To tell which objects the code
    writes, the same code is given here on a store of objects: every array
    and every object literal of the source is a cell, a reference is the
    position of its cell, and an assignment to an element or to a property
    rewrites one cell.  Numbers are computed with the functions above.

    The arrays of keys ([Object.keys(...)], [sortedYValues]), the pairs
    [[y2, partitionedBoxes]] and the [Set] of [#getOutlines] are kept as
    lists: no reference to them is stored.  [#binarySearch] and the loops
    of [#remove], which write nothing, read the interval array through
    [read_intervals] and are computed as on values. *)

Module Store.

(** A reference: the position of a cell in the store. *)
Abbreviation loc := nat (only parsing).

Inductive value : Type :=
| VUndefined
| VNum (n : number)
| VBool (b : bool)
| VRef (l : loc).

Inductive cell : Type :=
| CArray (elems : list value)
| CObject (props : list (string * value))
| CLines (lines : dict value).

Definition heap : Type := list cell.

(** How a call ends.  [Stuck] marks what the code never does (a reference
    to no cell, an operation on a cell of another kind where JavaScript
    would go on with a value that is not modelled). *)
Inductive outcome (A : Type) : Type :=
| Returned (a : A)
| Thrown (e : error)
| Stuck.

Arguments Returned {A} a.
Arguments Thrown {A} e.
Arguments Stuck {A}.

Definition M (A : Type) : Type := heap -> outcome A * heap.

Definition ret (A : Type) (a : A) : M A := fun h => (Returned a, h).

Definition throw (A : Type) (e : error) : M A := fun h => (Thrown e, h).

Definition stuck (A : Type) : M A := fun h => (Stuck, h).

Arguments throw {A} e.
Arguments stuck {A}.

Definition mbind (A B : Type) (m : M A) (k : A -> M B) : M B :=
  fun h =>
    match m h with
    | (Returned a, h') => k a h'
    | (Thrown e, h') => (Thrown e, h')
    | (Stuck, h') => (Stuck, h')
    end.

Declare Scope store_scope.
Delimit Scope store_scope with store.

Notation "v <- m ;; k" := (mbind m (fun v => k))
  (at level 61, m at next level, right associativity) : store_scope.
Notation "m ;; k" := (mbind m (fun _ => k))
  (at level 61, right associativity) : store_scope.

Local Open Scope string_scope.
Local Open Scope list_scope.
Local Open Scope num_scope.
Local Open Scope store_scope.

(** A new cell is put at the end of the store. *)
Definition alloc (c : cell) : M loc :=
  fun h => (Returned (List.length h), h ++ [c]).

Definition read (l : loc) : M cell :=
  fun h =>
    match nth_error h l with
    | Some c => (Returned c, h)
    | None => (Stuck, h)
    end.

Definition write (l : loc) (c : cell) : M unit :=
  fun h =>
    if (l <? List.length h)%nat then
      (Returned tt, firstn l h ++ c :: skipn (S l) h)
    else (Stuck, h).

Fixpoint traverse (A B : Type) (f : A -> M B) (l : list A) : M (list B) :=
  match l with
  | [] => ret []
  | a :: l' => b <- f a;; bs <- traverse f l';; ret (b :: bs)
  end.

(** [ToNumber] and [ToBoolean].  The code applies them to what it read from
    a rectangle or from its own arrays; an object is taken to [NaN]. *)
Definition to_number (v : value) : number :=
  match v with
  | VNum n => n
  | VBool true => Fin 1
  | VBool false => Fin 0
  | VUndefined => NaN
  | VRef _ => NaN
  end.

Definition to_boolean (v : value) : bool :=
  match v with
  | VNum n => truthy n
  | VBool b => b
  | VUndefined => false
  | VRef _ => true
  end.

(** *** Properties *)

Fixpoint lookup_prop (k : string) (ps : list (string * value)) : value :=
  match ps with
  | [] => VUndefined
  | (k', v) :: ps' => if String.eqb k k' then v else lookup_prop k ps'
  end.

Fixpoint assign_prop (k : string) (v : value) (ps : list (string * value))
  : list (string * value) :=
  match ps with
  | [] => [(k, v)]
  | (k', v') :: ps' =>
      if String.eqb k k' then (k', v) :: ps' else (k', v') :: assign_prop k v ps'
  end.

(** [o.k], also the private [this.#k] *)
Definition get_prop (o : value) (k : string) : M value :=
  match o with
  | VUndefined => throw TypeError
  | VRef l =>
      c <- read l;;
      match c with
      | CObject ps => ret (lookup_prop k ps)
      | CArray _ => ret VUndefined
      | CLines _ => stuck
      end
  | _ => ret VUndefined
  end.

(** [o.k = v] *)
Definition set_prop (o : value) (k : string) (v : value) : M unit :=
  match o with
  | VRef l =>
      c <- read l;;
      match c with
      | CObject ps => write l (CObject (assign_prop k v ps))
      | _ => stuck
      end
  | _ => throw TypeError
  end.

(** [d[k]], [d[k] = v], [delete d[k]], [Object.keys(d)] and
    [Object.entries(d)] for an object keyed by numbers *)
Definition get_line (d : value) (k : number) : M value :=
  match d with
  | VUndefined => throw TypeError
  | VRef l =>
      c <- read l;;
      match c with
      | CLines ls =>
          ret (match lookup k ls with Some v => v | None => VUndefined end)
      | _ => stuck
      end
  | _ => ret VUndefined
  end.

Definition set_line (d : value) (k : number) (v : value) : M unit :=
  match d with
  | VRef l =>
      c <- read l;;
      match c with
      | CLines ls => write l (CLines (assign k v ls))
      | _ => stuck
      end
  | _ => throw TypeError
  end.

Definition delete_line (d : value) (k : number) : M unit :=
  match d with
  | VRef l =>
      c <- read l;;
      match c with
      | CLines ls => write l (CLines (delete k ls))
      | _ => stuck
      end
  | _ => throw TypeError
  end.

Definition object_entries (d : value) : M (list (number * value)) :=
  match d with
  | VRef l =>
      c <- read l;;
      match c with
      | CLines ls => ret (entries ls)
      | _ => stuck
      end
  | VUndefined => throw TypeError
  | _ => ret []
  end.

Definition object_keys (d : value) : M (list number) :=
  es <- object_entries d;; ret (map fst es).

(** *** Arrays *)

(** The elements of an array: [...a], [a.length]; a value that is no array
    is not iterable. *)
Definition spread (a : value) : M (list value) :=
  match a with
  | VRef l =>
      c <- read l;;
      match c with
      | CArray es => ret es
      | _ => throw TypeError
      end
  | _ => throw TypeError
  end.

Definition array_length (a : value) : M nat :=
  es <- spread a;; ret (List.length es).

(** [a[i]] *)
Definition elem (a : value) (i : nat) : M value :=
  match a with
  | VUndefined => throw TypeError
  | VRef l =>
      c <- read l;;
      match c with
      | CArray es => ret (nth i es VUndefined)
      | _ => stuck
      end
  | _ => ret VUndefined
  end.

(** [a[i] = v]; beyond the end the array grows, its holes read as
    [undefined]. *)
Definition set_elem (a : value) (i : nat) (v : value) : M unit :=
  match a with
  | VRef l =>
      c <- read l;;
      match c with
      | CArray es =>
          if (i <? List.length es)%nat then
            write l (CArray (firstn i es ++ v :: skipn (S i) es))
          else
            write l (CArray (es ++ repeat VUndefined (i - List.length es) ++ [v]))
      | _ => stuck
      end
  | _ => throw TypeError
  end.

(** [a.push(...vs)] *)
Definition push (a : value) (vs : list value) : M unit :=
  match a with
  | VRef l =>
      c <- read l;;
      match c with
      | CArray es => write l (CArray (es ++ vs))
      | _ => throw TypeError
      end
  | _ => throw TypeError
  end.

(** The array after a sort or a splice: the same cell with other elements. *)
Definition set_elems (a : value) (vs : list value) : M unit :=
  match a with
  | VRef l =>
      c <- read l;;
      match c with
      | CArray _ => write l (CArray vs)
      | _ => throw TypeError
      end
  | _ => throw TypeError
  end.

(** [a.at(-k - 1)] *)
Definition at_back (a : value) (k : nat) : M value :=
  es <- spread a;;
  ret (match nth_error (rev es) k with Some v => v | None => VUndefined end).

(** [for (const v of a)] and [a.forEach]: the elements are read one by one
    from the array as it then is.  The number of rounds is the length at the
    start: no loop of this code changes the length of the array it runs
    over.  [s] holds the variables that the body assigns. *)
Fixpoint for_of_from (St : Type) (count i : nat) (a : value)
    (body : St -> value -> M St) (s : St) : M St :=
  match count with
  | O => ret s
  | S count' =>
      v <- elem a i;;
      s' <- body s v;;
      for_of_from count' (S i) a body s'
  end.

Definition for_of (St : Type) (a : value) (body : St -> value -> M St) (s : St)
  : M St :=
  n <- array_length a;; for_of_from n 0 a body s.

(** [structuredClone(v)]: a copy of everything reachable from [v].  The
    values cloned by this code, a baseline group and a saved box, reach
    their numbers within three references. *)
Fixpoint clone (depth : nat) (v : value) : M value :=
  match v with
  | VRef l =>
      match depth with
      | O => stuck
      | S depth' =>
          c <- read l;;
          match c with
          | CArray es =>
              es' <- traverse (clone depth') es;;
              l' <- alloc (CArray es');;
              ret (VRef l')
          | CObject ps =>
              ps' <- traverse
                       (fun p => v' <- clone depth' (snd p);; ret (fst p, v'))
                       ps;;
              l' <- alloc (CObject ps');;
              ret (VRef l')
          | CLines ls =>
              ls' <- traverse
                       (fun p => v' <- clone depth' (snd p);; ret (fst p, v'))
                       ls;;
              l' <- alloc (CLines ls');;
              ret (VRef l')
          end
      end
  | _ => ret v
  end.

Definition structuredClone (v : value) : M value := clone 3 v.

(** *** The constructor *)

(** The body of the loop over [boxes]; the variables [minX], [maxX], [minY]
    and [maxY] are the state. *)
Definition round_box (this : value) (borderWidth : number)
    (lineByBaseHeight : value) (st : number * number * number * number)
    (b : value) : M (number * number * number * number) :=
  let '(minX, maxX, minY, maxY) := st in
  x <- get_prop b "x";;
  y <- get_prop b "y";;
  width <- get_prop b "width";;
  height <- get_prop b "height";;
  let '(x1, x2, y1, y2) :=
    quantize borderWidth
      (Rect (to_number x) (to_number y) (to_number width) (to_number height)) in
  left <- alloc (CArray [VNum x1; VNum y1; VNum y2; VBool true]);;
  right <- alloc (CArray [VNum x2; VNum y1; VNum y2; VBool false]);;
  verticalEdges <- get_prop this "#verticalEdges";;
  push verticalEdges [VRef left; VRef right];;
  g <- get_line lineByBaseHeight y2;;
  match g with
  | VUndefined =>
      bs <- alloc (CArray []);;
      o <- alloc (CObject [("boxes", VRef bs); ("minY1", VNum PInf)]);;
      set_line lineByBaseHeight y2 (VRef o)
  | _ => ret tt
  end;;
  prev <- get_line lineByBaseHeight y2;;
  line <- get_line lineByBaseHeight y2;;
  lineBoxes <- get_prop line "boxes";;
  saved <- alloc (CObject [("x1", VNum x1); ("y1", VNum y1); ("x2", VNum x2)]);;
  push lineBoxes [VRef saved];;
  line' <- get_line lineByBaseHeight y2;;
  prevMinY1 <- get_prop prev "minY1";;
  set_prop line' "minY1" (VNum (Num.min (to_number prevMinY1) y1));;
  ret (Num.min minX x1, Num.max maxX x2, Num.min minY y1, Num.max maxY y2).

(** The body of the loop that makes the edges relative to the box. *)
Definition toBoxEdge (shiftedMinX shiftedMinY bboxWidth bboxHeight : number)
    (_ : unit) (edge : value) : M unit :=
  x <- elem edge 0;;
  y1 <- elem edge 1;;
  y2 <- elem edge 2;;
  set_elem edge 0 (VNum ((to_number x - shiftedMinX) / bboxWidth));;
  set_elem edge 1 (VNum ((to_number y1 - shiftedMinY) / bboxHeight));;
  set_elem edge 2 (VNum ((to_number y2 - shiftedMinY) / bboxHeight)).

(** The loop that merges similar baselines. *)
Fixpoint mergeLoop (lineByBaseHeight newLineByBaseHeight : value)
    (prevY2 : number) (rest : list number) : M unit :=
  match rest with
  | [] => ret tt
  | currentY2 :: rest' =>
      prevObj <- get_line newLineByBaseHeight prevY2;;
      current <- get_line lineByBaseHeight currentY2;;
      currentObj <- structuredClone current;;
      test <-
        (if string_geb (toString currentY2) (toString prevY2) then
           p <- get_prop prevObj "minY1";;
           c <- get_prop currentObj "minY1";;
           ret (to_number p >=? to_number c)
         else ret false);;
      (if test : bool then
         prevBoxes <- get_prop prevObj "boxes";;
         ps <- spread prevBoxes;;
         currentBoxes <- get_prop currentObj "boxes";;
         cs <- spread currentBoxes;;
         merged <- alloc (CArray (ps ++ cs));;
         p <- get_prop prevObj "minY1";;
         c <- get_prop currentObj "minY1";;
         o <- alloc (CObject [("boxes", VRef merged);
                              ("minY1", VNum (Num.min (to_number p) (to_number c)))]);;
         set_line newLineByBaseHeight currentY2 (VRef o);;
         delete_line newLineByBaseHeight prevY2
       else
         set_line newLineByBaseHeight currentY2 currentObj);;
      mergeLoop lineByBaseHeight newLineByBaseHeight currentY2 rest'
  end.

(** The merge of the baselines; the value of the variable
    [lineByBaseHeight] after it. *)
Definition mergeLines (lineByBaseHeight : value) : M value :=
  lineKeys <- object_keys lineByBaseHeight;;
  match lineKeys with
  | [] => ret lineByBaseHeight
  | _ :: _ =>
      ks <- object_keys lineByBaseHeight;;
      match sortBy (fun a b => a - b) ks with
      | [] => ret lineByBaseHeight
      | firstValue :: rest =>
          first <- get_line lineByBaseHeight firstValue;;
          firstObj <- structuredClone first;;
          new <- alloc (CLines [(firstValue, firstObj)]);;
          mergeLoop lineByBaseHeight (VRef new) firstValue rest;;
          ret (VRef new)
      end
  end.

(** [a.sort((a, b) => +a.x1 - +b.x1)]: the array is sorted in place. *)
Definition sort_by_x1 (a : value) : M unit :=
  es <- spread a;;
  ks <- traverse (fun v => k <- get_prop v "x1";; ret (to_number k, v)) es;;
  set_elems a (map snd (sortBy (fun p q => fst p - fst q) ks)).

(** The loop that cuts the sorted boxes of a line into runs, from index [i]
    for [count] rounds. *)
Fixpoint partitionLoop (maxSpaceSize : number)
    (boxesSorted partitionedBoxes : value) (i count : nat) : M unit :=
  match count with
  | O => ret tt
  | S count' =>
      currentBox <- elem boxesSorted i;;
      lastBox <- at_back partitionedBoxes 0;;
      cx2 <- get_prop currentBox "x2";;
      lx2 <- get_prop lastBox "x2";;
      (if to_number cx2 - to_number lx2 >? maxSpaceSize then
         push partitionedBoxes [currentBox]
       else
         n <- array_length partitionedBoxes;;
         cx1 <- get_prop currentBox "x1";;
         lx1 <- get_prop lastBox "x1";;
         cy1 <- get_prop currentBox "y1";;
         ly1 <- get_prop lastBox "y1";;
         cx2' <- get_prop currentBox "x2";;
         lx2' <- get_prop lastBox "x2";;
         o <- alloc (CObject
                [("x1", VNum (Num.min (to_number cx1) (to_number lx1)));
                 ("y1", VNum (Num.min (to_number cy1) (to_number ly1)));
                 ("x2", VNum (Num.max (to_number cx2') (to_number lx2')))]);;
         set_elem partitionedBoxes (n - 1) (VRef o));;
      partitionLoop maxSpaceSize boxesSorted partitionedBoxes (S i) count'
  end.

(** The callback of [Object.entries(lineByBaseHeight).map]. *)
Definition partitionLine (entry : number * value) : M (number * value) :=
  let '(y2, obj) := entry in
  objBoxes <- get_prop obj "boxes";;
  sort_by_x1 objBoxes;;
  let boxesSorted := objBoxes in
  m <- get_prop obj "minY1";;
  let averageHeight := y2 - to_number m in
  let maxSpaceSize := averageHeight * Fin 2 in
  first <- elem boxesSorted 0;;
  firstBox <- structuredClone first;;
  partitionedBoxes <- alloc (CArray [firstBox]);;
  n <- array_length boxesSorted;;
  partitionLoop maxSpaceSize boxesSorted (VRef partitionedBoxes) 1 (n - 1);;
  ret (y2, VRef partitionedBoxes).

(** The callbacks of the two [forEach] that fill [lineRects]. *)
Definition toLineRect (shiftedMinX shiftedMinY bboxWidth bboxHeight : number)
    (lineRects : value) (y2 : number) (_ : unit) (b : value) : M unit :=
  x1 <- get_prop b "x1";;
  y1 <- get_prop b "y1";;
  x2 <- get_prop b "x2";;
  annotationBox <-
    alloc (CObject
      [("x1", VNum ((to_number x1 - shiftedMinX) / bboxWidth));
       ("x2", VNum ((to_number x2 - shiftedMinX) / bboxWidth));
       ("y1", VNum ((to_number y1 - shiftedMinY) / bboxHeight));
       ("y2", VNum ((y2 - shiftedMinY) / bboxHeight))]);;
  push lineRects [VRef annotationBox].

Fixpoint toLineRects (shiftedMinX shiftedMinY bboxWidth bboxHeight : number)
    (lineRects : value) (partitionedLines : list (number * value)) : M unit :=
  match partitionedLines with
  | [] => ret tt
  | (y2, partitionedBoxes) :: rest =>
      for_of partitionedBoxes
        (toLineRect shiftedMinX shiftedMinY bboxWidth bboxHeight lineRects y2)
        tt;;
      toLineRects shiftedMinX shiftedMinY bboxWidth bboxHeight lineRects rest
  end.

(** The body of the constructor. *)
Definition construct (this boxes : value) (borderWidth innerMargin : number)
    (isLTR skipLineRects : bool) : M unit :=
  lines <- alloc (CLines []);;
  let lineByBaseHeight := VRef lines in
  st <- for_of boxes (round_box this borderWidth lineByBaseHeight)
          (PInf, NInf, PInf, NInf);;
  let '(minX, maxX, minY, maxY) := st in
  let bboxWidth := maxX - minX + Fin 2 * innerMargin in
  let bboxHeight := maxY - minY + Fin 2 * innerMargin in
  let shiftedMinX := minX - innerMargin in
  let shiftedMinY := minY - innerMargin in
  verticalEdges <- get_prop this "#verticalEdges";;
  lastEdge <- at_back verticalEdges (if isLTR then 0 else 1)%nat;;
  lastEdge0 <- elem lastEdge 0;;
  lastEdge2 <- elem lastEdge 2;;
  lastPoint <- alloc (CArray [lastEdge0; lastEdge2]);;
  verticalEdges' <- get_prop this "#verticalEdges";;
  for_of verticalEdges'
    (toBoxEdge shiftedMinX shiftedMinY bboxWidth bboxHeight) tt;;
  box <- alloc (CObject [("x", VNum shiftedMinX); ("y", VNum shiftedMinY);
                         ("width", VNum bboxWidth); ("height", VNum bboxHeight);
                         ("lastPoint", VRef lastPoint)]);;
  set_prop this "#box" (VRef box);;
  if skipLineRects then ret tt
  else
    merged <- mergeLines lineByBaseHeight;;
    es <- object_entries merged;;
    partitionedLines <- traverse partitionLine es;;
    lineRects <- alloc (CArray []);;
    toLineRects shiftedMinX shiftedMinY bboxWidth bboxHeight (VRef lineRects)
      partitionedLines;;
    set_prop this "#lineRects" (VRef lineRects).

(** [new Outliner(boxes, borderWidth, innerMargin, isLTR, skipLineRects)]:
    the instance is made, its fields are set to what the class gives them,
    then the constructor runs. *)
Definition new_Outliner (boxes : value) (borderWidth innerMargin : number)
    (isLTR skipLineRects : bool) : M value :=
  o <- alloc (CObject []);;
  let this := VRef o in
  set_prop this "#box" VUndefined;;
  verticalEdges <- alloc (CArray []);;
  set_prop this "#verticalEdges" (VRef verticalEdges);;
  intervals <- alloc (CArray []);;
  set_prop this "#intervals" (VRef intervals);;
  lineRects <- alloc (CArray []);;
  set_prop this "#lineRects" (VRef lineRects);;
  construct this boxes borderWidth innerMargin isLTR skipLineRects;;
  ret this.

(** *** [getOutlines] and [getUnderlinesAndStrikeouts] *)

Definition read_edge (e : value) : M edge :=
  x <- elem e 0;;
  y1 <- elem e 1;;
  y2 <- elem e 2;;
  l <- elem e 3;;
  ret (Edge (to_number x) (to_number y1) (to_number y2) (to_boolean l)).

(** [this.#verticalEdges.sort(...)]: the array is sorted in place. *)
Definition sort_edges (a : value) : M unit :=
  es <- spread a;;
  ks <- traverse (fun v => e <- read_edge v;; ret (e, v)) es;;
  set_elems a (map snd (sortBy (fun p q => edge_cmp (fst p) (fst q)) ks)).

(** The numbers of [this.#intervals], as [#binarySearch] and the loops of
    [#remove] and [#breakEdge] read them. *)
Definition read_intervals (this : value) : M (list (number * number)) :=
  intervals <- get_prop this "#intervals";;
  es <- spread intervals;;
  traverse
    (fun v => s <- elem v 0;; e <- elem v 1;; ret (to_number s, to_number e))
    es.

(** The inner loop of [#breakEdge] against the interval [[start, end]],
    from the index [j] with the bound [jj].  A round adds one to [j] or takes
    one from [jj], so [count], which is [jj - j], is the number of rounds
    left.  [true] is the early [return []]. *)
Fixpoint breakRound (count : nat) (x start end_ results : value) (j jj : nat)
  : M bool :=
  match count with
  | O => ret false
  | S count' =>
      f <- elem results j;;
      y3 <- elem f 1;;
      y4 <- elem f 2;;
      if (to_number end_ <=? to_number y3) || (to_number y4 <=? to_number start)
      then breakRound count' x start end_ results (S j) jj
      else if to_number y3 >=? to_number start then
        if to_number y4 >? to_number end_ then
          f' <- elem results j;;
          set_elem f' 1 end_;;
          breakRound count' x start end_ results (S j) jj
        else if Nat.eqb jj 1 then ret true
        else
          es <- spread results;;
          set_elems results (splice_out j es);;
          breakRound count' x start end_ results j (jj - 1)
      else
        f' <- elem results j;;
        set_elem f' 2 start;;
        (if to_number y4 >? to_number end_ then
           n <- alloc (CArray [x; end_; y4]);;
           push results [VRef n]
         else ret tt);;
        breakRound count' x start end_ results (S j) jj
  end.

(** The outer loop, over the intervals from the index [i], for [count]
    rounds. *)
Fixpoint breakLoop (count i : nat) (this x results : value) : M bool :=
  match count with
  | O => ret false
  | S count' =>
      intervals <- get_prop this "#intervals";;
      iv <- elem intervals i;;
      start <- elem iv 0;;
      end_ <- elem iv 1;;
      jj <- array_length results;;
      stop <- breakRound jj x start end_ results 0 jj;;
      if stop : bool then ret true
      else breakLoop count' (S i) this x results
  end.

(** [#breakEdge(edge)]: the array of the fragments. *)
Definition breakEdge (this edge : value) : M value :=
  x <- elem edge 0;;
  y1 <- elem edge 1;;
  y2 <- elem edge 2;;
  f <- alloc (CArray [x; y1; y2]);;
  results <- alloc (CArray [VRef f]);;
  ivs <- read_intervals this;;
  let index := binarySearch ivs (to_number y2) in
  stop <- breakLoop index 0 this x (VRef results);;
  if stop : bool then
    empty <- alloc (CArray []);;
    ret (VRef empty)
  else ret (VRef results).

(** [this.#intervals.splice(...)]: the same array with other elements. *)
Definition splice_intervals (this : value)
    (f : list value -> list value) : M unit :=
  intervals <- get_prop this "#intervals";;
  es <- spread intervals;;
  set_elems intervals (f es).

(** [#insert([, y1, y2])]: the interval is a new array [[y1, y2]]. *)
Definition insert (this edge : value) : M unit :=
  y1 <- elem edge 1;;
  y2 <- elem edge 2;;
  ivs <- read_intervals this;;
  let index := binarySearch ivs (to_number y1) in
  iv <- alloc (CArray [y1; y2]);;
  splice_intervals this (splice_in index (VRef iv)).

(** [#remove([, y1, y2])] *)
Definition remove (this edge : value) : M unit :=
  y1 <- elem edge 1;;
  y2 <- elem edge 2;;
  ivs <- read_intervals this;;
  let index := binarySearch ivs (to_number y1) in
  match remove_up (to_number y1) (to_number y2) (skipn index ivs) index with
  | Some i => splice_intervals this (splice_out i)
  | None =>
      match remove_down (to_number y1) (to_number y2)
              (rev (firstn index ivs)) index with
      | Some i => splice_intervals this (splice_out i)
      | None => ret tt
      end
  end.

(** The body of the sweep loop. *)
Definition sweep_step (this outlineVerticalEdges : value) (_ : unit)
    (edge : value) : M unit :=
  l <- elem edge 3;;
  if to_boolean l then
    results <- breakEdge this edge;;
    fs <- spread results;;
    push outlineVerticalEdges fs;;
    insert this edge
  else
    remove this edge;;
    results <- breakEdge this edge;;
    fs <- spread results;;
    push outlineVerticalEdges fs.

(** [a === b] *)
Definition strict_eq (a b : value) : bool :=
  match a, b with
  | VUndefined, VUndefined => true
  | VNum m, VNum n => m === n
  | VBool p, VBool q => Bool.eqb p q
  | VRef l, VRef k => Nat.eqb l k
  | _, _ => false
  end.

(** The [Set] [allEdges] holds outline edges, which are arrays: it is kept
    as the list of their references in insertion order, the order in which
    a [Set] is iterated. *)
Definition has (allEdges : list loc) (v : value) : bool :=
  match v with
  | VRef l => existsb (Nat.eqb l) allEdges
  | _ => false
  end.

(** The body of the loop that makes the two vertices of an outline edge. *)
Definition push_vertices (edges : value) (_ : unit) (edge : value) : M unit :=
  x <- elem edge 0;;
  y1 <- elem edge 1;;
  y2 <- elem edge 2;;
  v1 <- alloc (CArray [x; y1; edge]);;
  v2 <- alloc (CArray [x; y2; edge]);;
  push edges [VRef v1; VRef v2].

(** [edges.sort((a, b) => a[1] - b[1] || a[0] - b[0])]: the array is sorted
    in place. *)
Definition sort_vertices (a : value) : M unit :=
  es <- spread a;;
  ks <- traverse
          (fun v =>
             x <- elem v 0;;
             y <- elem v 1;;
             ret ((to_number x, to_number y, O), v))
          es;;
  set_elems a (map snd (sortBy (fun p q => vertex_cmp (fst p) (fst q)) ks)).

(** The pairing loop, from the index [i] for [count] rounds. *)
Fixpoint link (count i : nat) (edges : value) (allEdges : list loc)
  : M (list loc) :=
  match count with
  | O => ret allEdges
  | S count' =>
      v1 <- elem edges i;;
      edge1 <- elem v1 2;;
      v2 <- elem edges (S i);;
      edge2 <- elem v2 2;;
      push edge1 [edge2];;
      push edge2 [edge1];;
      match edge1, edge2 with
      | VRef l1, VRef l2 =>
          link count' (S (S i)) edges (set_add l2 (set_add l1 allEdges))
      | _, _ => stuck
      end
  end.

(** The inner [while (true)] loop.  Every round deletes an edge of
    [allEdges], so [length allEdges] rounds of fuel are never used up
    (lemma [store_walk_fuel]). *)
Fixpoint walk (fuel : nat) (allEdges : list loc)
    (edge1 edge2 lastPointX lastPointY outline : value) : M (list loc) :=
  let stop := push outline [lastPointX; lastPointY];; ret allEdges in
  match fuel with
  | O => stop
  | S fuel' =>
      let next :=
        if has allEdges edge1 then edge1
        else if has allEdges edge2 then edge2
        else VUndefined in
      match next with
      | VRef l =>
          let allEdges' := set_delete l allEdges in
          x <- elem next 0;;
          y1 <- elem next 1;;
          y2 <- elem next 2;;
          edge1' <- elem next 3;;
          edge2' <- elem next 4;;
          (if negb (strict_eq lastPointX x) then
             push outline [lastPointX; lastPointY; x;
                           if strict_eq lastPointY y1 then y1 else y2]
           else ret tt);;
          walk fuel' allEdges' edge1' edge2'
            (if negb (strict_eq lastPointX x) then x else lastPointX)
            (if strict_eq lastPointY y1 then y2 else y1) outline
      | _ => stop
      end
  end.

(** The outer [while (allEdges.size > 0)] loop. *)
Fixpoint trace (fuel : nat) (allEdges : list loc) (outlines : value)
  : M unit :=
  match fuel, allEdges with
  | S fuel', l :: _ =>
      let edge := VRef l in
      x <- elem edge 0;;
      y1 <- elem edge 1;;
      y2 <- elem edge 2;;
      edge1 <- elem edge 3;;
      edge2 <- elem edge 4;;
      let allEdges' := set_delete l allEdges in
      outline <- alloc (CArray [x; y2]);;
      push outlines [VRef outline];;
      allEdges'' <- walk (List.length allEdges') allEdges' edge1 edge2 x y1
                      (VRef outline);;
      trace fuel' allEdges'' outlines
  | _, _ => ret tt
  end.

(** [#getOutlines(outlineVerticalEdges)] *)
Definition traceOutlines (this outlineVerticalEdges : value) : M value :=
  edges <- alloc (CArray []);;
  for_of outlineVerticalEdges (push_vertices (VRef edges)) tt;;
  sort_vertices (VRef edges);;
  ii <- array_length (VRef edges);;
  allEdges <- link ((ii + 1) / 2) 0 (VRef edges) [];;
  outlines <- alloc (CArray []);;
  trace (List.length allEdges) allEdges (VRef outlines);;
  box <- get_prop this "#box";;
  lineRects <- get_prop this "#lineRects";;
  result <- alloc (CObject [("outlines", VRef outlines); ("box", box);
                            ("lineRects", lineRects)]);;
  ret (VRef result).

(** [getOutlines()] *)
Definition getOutlines (this : value) : M value :=
  verticalEdges <- get_prop this "#verticalEdges";;
  sort_edges verticalEdges;;
  outlineVerticalEdges <- alloc (CArray []);;
  verticalEdges' <- get_prop this "#verticalEdges";;
  for_of verticalEdges' (sweep_step this (VRef outlineVerticalEdges)) tt;;
  traceOutlines this (VRef outlineVerticalEdges).

(** [getUnderlinesAndStrikeouts()] *)
Definition getUnderlinesAndStrikeouts (this : value) : M value :=
  box <- get_prop this "#box";;
  lineRects <- get_prop this "#lineRects";;
  result <- alloc (CObject [("box", box); ("lineRects", lineRects)]);;
  ret (VRef result).

(** *** Reading the store *)

(** The rectangles of the caller: the array [boxes] and its objects
    [{x, y, width, height}]. *)
Definition read_rect (b : value) : M rect :=
  x <- get_prop b "x";;
  y <- get_prop b "y";;
  width <- get_prop b "width";;
  height <- get_prop b "height";;
  ret (Rect (to_number x) (to_number y) (to_number width) (to_number height)).

Definition read_boxes (boxes : value) : M (list rect) :=
  es <- spread boxes;; traverse read_rect es.

Definition read_box (b : value) : M bbox :=
  x <- get_prop b "x";;
  y <- get_prop b "y";;
  width <- get_prop b "width";;
  height <- get_prop b "height";;
  p <- get_prop b "lastPoint";;
  p0 <- elem p 0;;
  p1 <- elem p 1;;
  ret (BBox (to_number x) (to_number y) (to_number width) (to_number height)
         (to_number p0, to_number p1)).

Definition read_lineRect (r : value) : M lineRect :=
  x1 <- get_prop r "x1";;
  x2 <- get_prop r "x2";;
  y1 <- get_prop r "y1";;
  y2 <- get_prop r "y2";;
  ret (LineRect (to_number x1) (to_number x2) (to_number y1) (to_number y2)).

Definition read_lineRects (a : value) : M (list lineRect) :=
  es <- spread a;; traverse read_lineRect es.

(** The fields of the instance as values. *)
Definition read_Outliner (this : value) : M Outliner :=
  b <- get_prop this "#box";;
  box <- read_box b;;
  verticalEdges <- get_prop this "#verticalEdges";;
  es <- spread verticalEdges;;
  edges <- traverse read_edge es;;
  intervals <- read_intervals this;;
  l <- get_prop this "#lineRects";;
  lineRects <- read_lineRects l;;
  ret (MkOutliner box edges intervals lineRects).

(** What [getOutlines] returned, as values. *)
Definition read_result (result : value) : M outlines_result :=
  o <- get_prop result "outlines";;
  os <- spread o;;
  outlines <- traverse
                (fun a => ns <- spread a;; ret (map to_number ns)) os;;
  b <- get_prop result "box";;
  box <- read_box b;;
  l <- get_prop result "lineRects";;
  lineRects <- read_lineRects l;;
  ret (OutlinesResult outlines box lineRects).

(** A store with the rectangles [bs] and the array of them, and the
    reference to the array. *)
Definition rect_cell (r : rect) : cell :=
  CObject [("x", VNum (x r)); ("y", VNum (y r));
           ("width", VNum (width r)); ("height", VNum (height r))].

Definition store_of (bs : list rect) : heap :=
  map rect_cell bs ++ [CArray (map VRef (seq 0 (List.length bs)))].

Definition boxes_of (bs : list rect) : value := VRef (List.length bs).

(** *** A use of the class: the instance is made, then its methods are
    called in some order *)

Inductive method : Type :=
| GetOutlines
| GetUnderlinesAndStrikeouts.

Definition call (this : value) (m : method) : M value :=
  match m with
  | GetOutlines => getOutlines this
  | GetUnderlinesAndStrikeouts => getUnderlinesAndStrikeouts this
  end.

(** The instance and what the calls returned. *)
Definition session (boxes : value) (borderWidth innerMargin : number)
    (isLTR skipLineRects : bool) (ms : list method)
  : M (value * list value) :=
  this <- new_Outliner boxes borderWidth innerMargin isLTR skipLineRects;;
  results <- traverse (call this) ms;;
  ret (this, results).

(** *** What a call leaves alone

    [n] is the size of the store when the call starts: the cells below [n]
    are the objects that were there before, the others are new. *)

(** A value that is no reference to an object from before. *)
Definition new_value (n : nat) (v : value) : Prop :=
  match v with
  | VRef l => (n <= l)%nat
  | _ => True
  end.

(** A cell that holds no reference to an object from before. *)
Definition new_cell (n : nat) (c : cell) : Prop :=
  match c with
  | CArray es => Forall (new_value n) es
  | CObject ps => Forall (fun p => new_value n (snd p)) ps
  | CLines ls => Forall (fun p => new_value n (snd p)) ls
  end.

(** No new object refers to an object from before. *)
Definition closed (n : nat) (h : heap) : Prop :=
  (n <= List.length h)%nat /\
  forall l c, (n <= l)%nat -> nth_error h l = Some c -> new_cell n c.

(** The objects from before are what they were. *)
Definition keeps (n : nat) (h h' : heap) : Prop :=
  (List.length h <= List.length h')%nat /\
  forall l, (l < n)%nat -> nth_error h' l = nth_error h l.

(** A call that writes new objects only, and whose result satisfies [P]. *)
Definition safe (A : Type) (n : nat) (m : M A) (P : A -> Prop) : Prop :=
  forall h,
    closed n h ->
    closed n (snd (m h)) /\ keeps n h (snd (m h)) /\
    forall a, fst (m h) = Returned a -> P a.

(** The values held by a cell, and the cells that a value leads to. *)
Definition cell_values (c : cell) : list value :=
  match c with
  | CArray es => es
  | CObject ps => map snd ps
  | CLines ls => map snd ls
  end.

Inductive reaches (h : heap) : value -> loc -> Prop :=
| reaches_here (l : loc) : reaches h (VRef l) l
| reaches_step (l : loc) (c : cell) (v : value) (l' : loc) :
    nth_error h l = Some c -> In v (cell_values c) -> reaches h v l' ->
    reaches h (VRef l) l'.

(** Every object of [h] is in [h'], as it was. *)
Definition extends (h h' : heap) : Prop :=
  forall l c, nth_error h l = Some c -> nth_error h' l = Some c.

(** A computation that writes nothing, and returns the same in a store
    that has the same objects and more. *)
Definition reads_only (A : Type) (m : M A) : Prop :=
  forall h,
    snd (m h) = h /\
    forall h' a, extends h h' -> fst (m h) = Returned a ->
                 fst (m h') = Returned a.

End Store.

(** The constructor and [getOutlines] on the store [store_of bs] give what
    [construct] and [getOutlines] give on the values [bs]. *)
Definition agrees (bs : list rect) (borderWidth innerMargin : number)
    (isLTR skipLineRects : bool) : Prop :=
  match Store.new_Outliner (Store.boxes_of bs) borderWidth innerMargin isLTR
          skipLineRects (Store.store_of bs) with
  | (Store.Returned this, h1) =>
      exists o,
        construct bs borderWidth innerMargin isLTR skipLineRects = Normal o /\
        fst (Store.read_Outliner this h1) = Store.Returned o /\
        match Store.getOutlines this h1 with
        | (Store.Returned result, h2) =>
            fst (Store.read_Outliner this h2) = Store.Returned (fst (getOutlines o)) /\
            fst (Store.read_result result h2) = Store.Returned (snd (getOutlines o))
        | _ => False
        end
  | (Store.Thrown e, _) =>
      construct bs borderWidth innerMargin isLTR skipLineRects = Throw e
  | (Store.Stuck, _) => False
  end.

(** Three boxes on one baseline, two of them close. *)
Definition line_boxes : list rect :=
  [Rect (num 12) (num 0) (num 8) (num 10);
   Rect (num 200) (num 0) (num 10) (num 10);
   Rect (num 0) (num 0) (num 10) (num 10)].

(** A wide box across a tall one, and a box inside another one. *)
Definition cross_boxes : list rect :=
  [Rect (num 0) (num 1) (num 3) (num 1); Rect (num 1) (num 0) (num 1) (num 3)].

Definition nested_boxes : list rect :=
  [Rect (num 0) (num 0) (num 3) (num 3); Rect (num 1) (num 1) (num 1) (num 1)].

(* ================================================================== *)
(** ** The editors that call the outliner

    [LinkNodeEditor], [UnderlineEditor], [HighlightEditor] and
    [TempHighlight] build an [Outliner] from the boxes of a selection and
    keep its bounding box as their own position and size; the layer
    ([AnnotationEditorLayer]) makes the boxes from the rectangles of the
    selection.  An editor is given here by the fields that this code
    reads and writes. *)


(** The quadrilateral of a rectangle whose lower left corner is
    [(sx, sy)], as [#serializeBoxes] and [#serializeUnderlines] write it
    at the indices [i], ..., [i + 7]. *)
Definition quad (sx sy w h : number) : list number :=
  [sx; sy; sx + w; sy; sx; sy + h; sx + w; sy + h].

(** [array[i]] in arithmetic: a missing element is [undefined], which
    gives [NaN]. *)
Definition elem (l : list number) (i : nat) : number := nth i l NaN.

(** [#serializeBoxes()]: eight numbers per box.  Every index below
    [boxes.length * 8] is written. *)
Definition serializeBoxes (pageWidth pageHeight : number) (boxes : list rect)
  : list number :=
  flat_map
    (fun b =>
       let '(Rect x y width height) := b in
       let sx := x * pageWidth in
       let sy := (Fin 1 - y - height) * pageHeight in
       quad sx sy (width * pageWidth) (height * pageHeight))
    boxes.

(** The loop of [deserialize]: one box per group of eight numbers, from
    the index [i] on; [rounds] is the number of rounds left. *)
Fixpoint deserializeLoop (rounds : nat) (i : nat) (quadPoints : list number)
    (pageWidth pageHeight : number) : list rect :=
  match rounds with
  | O => []
  | S rounds' =>
      Rect (elem quadPoints 4 / pageWidth)
           (Fin 1 - elem quadPoints (i + 5) / pageHeight)
           ((elem quadPoints (i + 2) - elem quadPoints i) / pageWidth)
           ((elem quadPoints (i + 5) - elem quadPoints (i + 1)) / pageHeight)
      :: deserializeLoop rounds' (i + 8) quadPoints pageWidth pageHeight
  end.

(** The boxes that [deserialize] reads from [data.quadPoints]: the loop
    [for (let i = 0; i < quadPoints.length; i += 8)] runs once per
    started group of eight. *)
Definition deserializeBoxes (quadPoints : list number)
    (pageWidth pageHeight : number) : list rect :=
  deserializeLoop ((List.length quadPoints + 7) / 8) 0 quadPoints
    pageWidth pageHeight.


Module LinkNodeEditor.

(** The fields written by [#createOutlines]. *)
Record fields : Type := Fields {
  this_x : number;
  this_y : number;
  this_width : number;
  this_height : number;
  highlightOutlines : bbox * list lineRect;
  this_lastPoint : number * number
}.

(** [#createOutlines()].  The last argument of the constructor is [this],
    an object, hence truthy.  [UnderlineEditor.#createUnderlines] has the
    same body. *)
Definition createOutlines (boxes : list rect) : completion fields :=
  bind (construct boxes (Fin (1 # 1000)) (Fin 0) true true) (fun outliner =>
  let highlightOutlines := getUnderlinesAndStrikeouts outliner in
  let box := fst highlightOutlines in
  let lastPoint := lastPoint box in
  Normal
    {| this_x := box_x box; this_y := box_y box;
       this_width := box_width box; this_height := box_height box;
       highlightOutlines := highlightOutlines;
       this_lastPoint :=
         ((fst lastPoint - box_x box) / box_width box,
          (snd lastPoint - box_y box) / box_height box) |}).


End LinkNodeEditor.

Module HighlightEditor.

(** The fields written by [#createOutlines]. *)
Record fields : Type := Fields {
  this_x : number;
  this_y : number;
  this_width : number;
  this_height : number;
  highlightOutlines : outlines_result;
  focusOutlines : outlines_result;
  this_lastPoint : number * number
}.

(** [#createOutlines()]; [ltr] is [this._uiManager.direction === "ltr"].
    The first outliner takes the defaults of the constructor: no inner
    margin, left to right, line rectangles computed.  [TempHighlight] has
    the same body, but for the last argument of the second outliner,
    which it leaves out: [skipLineRects] is [true] for [HighlightEditor]
    and [false] for [TempHighlight]. *)
Definition createOutlines (boxes : list rect) (ltr skipLineRects : bool)
  : completion fields :=
  bind (construct boxes (Fin (1 # 1000)) (Fin 0) true false) (fun outliner =>
  let highlightOutlines := snd (getOutlines outliner) in
  let box := res_box highlightOutlines in
  bind (construct boxes (Fin (1 # 400)) (Fin (1 # 1000)) ltr skipLineRects)
    (fun outlinerForOutline =>
  let focusOutlines := snd (getOutlines outlinerForOutline) in
  let lastPoint := lastPoint (res_box focusOutlines) in
  Normal
    {| this_x := box_x box; this_y := box_y box;
       this_width := box_width box; this_height := box_height box;
       highlightOutlines := highlightOutlines;
       focusOutlines := focusOutlines;
       this_lastPoint :=
         ((fst lastPoint - box_x box) / box_width box,
          (snd lastPoint - box_y box) / box_height box) |})).

(** The inner loop of [#serializeOutlines]: two numbers per round.  For an
    outline of odd length the last round reads [outline[i + 1]], which is
    [undefined], and writes one index past the end. *)
Fixpoint serializePoints (tx ty width height : number) (outline : list number)
  : list number :=
  match outline with
  | [] => []
  | [u] => [tx + u * width; ty + (Fin 1 - NaN) * height]
  | u :: v :: rest =>
      (tx + u * width) :: (ty + (Fin 1 - v) * height)
      :: serializePoints tx ty width height rest
  end.

(** [#serializeOutlines()] *)
Definition serializeOutlines (pageWidth pageHeight : number) (this : fields)
  : list (list number) :=
  let width := this_width this * pageWidth in
  let height := this_height this * pageHeight in
  let tx := this_x this * pageWidth in
  let ty := (Fin 1 - this_y this - this_height this) * pageHeight in
  map (serializePoints tx ty width height)
    (outlines (highlightOutlines this)).

End HighlightEditor.

Module AnnotationEditorLayer.

(** The [rotator] of [pointerUpAfterSelection], chosen by
    [this.viewport.rotation]; [layer] is the bounding rectangle of the
    text layer ([layerX], [layerY], [parentWidth], [parentHeight]). *)
Definition rotator (rotation : number) (layer : rect) (x y w h : number)
  : rect :=
  let '(Rect layerX layerY parentWidth parentHeight) := layer in
  if rotation === num 90 then
    Rect ((y - layerY) / parentHeight)
         (Fin 1 - (x + w - layerX) / parentWidth)
         (h / parentHeight)
         (w / parentWidth)
  else if rotation === num 180 then
    Rect (Fin 1 - (x + w - layerX) / parentWidth)
         (Fin 1 - (y + h - layerY) / parentHeight)
         (w / parentWidth)
         (h / parentHeight)
  else if rotation === num 270 then
    Rect (Fin 1 - (y + h - layerY) / parentHeight)
         ((x - layerX) / parentWidth)
         (h / parentHeight)
         (w / parentWidth)
  else
    Rect ((x - layerX) / parentWidth)
         ((y - layerY) / parentHeight)
         (w / parentWidth)
         (h / parentHeight).

(** The loop over the rectangles of the selection: those of no width or
    no height are skipped. *)
Fixpoint selectionBoxes (rotation : number) (layer : rect) (bboxes : list rect)
  : list rect :=
  match bboxes with
  | [] => []
  | Rect x y width height :: rest =>
      if (width === Fin 0) || (height === Fin 0) then
        selectionBoxes rotation layer rest
      else
        rotator rotation layer x y width height
        :: selectionBoxes rotation layer rest
  end.

(** What [pointerUpAfterSelection] does with the boxes. *)
Inductive action : Type :=
| AddTempHighlight (boxes : list rect)
| RemoveTempHighlight
| CreateAndAddNewEditor (boxes : list rect)
| NoAction.

(** The end of [pointerUpAfterSelection], from the reading of the
    rectangles on; [generic] is [this.#textSelectionMode === "generic"]. *)
Definition pointerUpAfterSelection (generic : bool) (rotation : number)
    (layer : rect) (bboxes : list rect) : action :=
  let boxes := selectionBoxes rotation layer bboxes in
  if generic then
    if negb (Nat.eqb (List.length boxes) 0) then AddTempHighlight boxes
    else RemoveTempHighlight
  else if negb (Nat.eqb (List.length boxes) 0) then CreateAndAddNewEditor boxes
  else NoAction.

(** The [new TempHighlight(params)] of [addTempHighlight] with the boxes
    of the selection: [#createOutlines] of the temporary highlight. *)
Definition tempHighlight (ltr : bool) (a : action)
  : option (completion HighlightEditor.fields) :=
  match a with
  | AddTempHighlight boxes =>
      Some (HighlightEditor.createOutlines boxes ltr false)
  | _ => None
  end.

End AnnotationEditorLayer.

(* ================================================================== *)
(** ** Vocabulary of the statements on computed values

    The numbers of the code are IEEE doubles and those of the model are
    exact.  A statement that holds of the code for every input is one
    whose proof only compares and copies numbers.  Where a size or an
    order is needed, it is asked of the numbers as the code computed
    them, not derived from the input. *)

(** The sides of the rounded rectangle of a box. *)
Definition q_x1 (borderWidth : number) (b : rect) : number :=
  fst (fst (fst (quantize borderWidth b))).

Definition q_x2 (borderWidth : number) (b : rect) : number :=
  snd (fst (fst (quantize borderWidth b))).

Definition q_y1 (borderWidth : number) (b : rect) : number :=
  snd (fst (quantize borderWidth b)).

Definition q_y2 (borderWidth : number) (b : rect) : number :=
  snd (quantize borderWidth b).




(** The numbers held by an instance: the coordinates of its vertical
    edges and the bounds of its intervals. *)
Definition instance_numbers (o : Outliner) : list number :=
  flat_map (fun e => [ex e; ey1 e; ey2 e]) (o_verticalEdges o)
  ++ flat_map (fun iv : interval => [fst iv; snd iv]) (o_intervals o).

(** A rectangle of the selection that [pointerUpAfterSelection] keeps. *)
Definition has_size (b : rect) : bool :=
  negb ((width b === Fin 0) || (height b === Fin 0)).


(** Two boxes in the unit square. *)
Definition page_boxes : list rect :=
  [Rect (Fin (1 # 10)) (Fin (1 # 5)) (Fin (1 # 4)) (Fin (1 # 20));
   Rect (Fin (1 # 2)) (Fin (1 # 4)) (Fin (1 # 5)) (Fin (1 # 20))].

Unset Implicit Arguments.

(* ================================================================== *)
(** * Properties *)

(** ** Comparisons of finite numbers *)

Lemma finite_qv (n : number) : finite n -> n = Fin (qv n).
Proof. destruct n; simpl; intros H; try contradiction; reflexivity. Qed.

Lemma ltb_Fin (p r : Q) : (Fin p <? Fin r) = true <-> (p < r)%Q.
Proof.
  unfold ltb. rewrite Qlt_alt. destruct (p ?= r)%Q; split; congruence.
Qed.

Lemma ltb_Fin_false (p r : Q) : (Fin p <? Fin r) = false <-> (r <= p)%Q.
Proof.
  rewrite <- not_true_iff_false, ltb_Fin. split; intros H.
  - apply Qnot_lt_le; exact H.
  - apply Qle_not_lt; exact H.
Qed.

Lemma eqb_Fin (p r : Q) : (Fin p === Fin r) = true <-> (p == r)%Q.
Proof. apply Qeq_bool_iff. Qed.

Lemma eqb_Fin_false (p r : Q) : (Fin p === Fin r) = false <-> ~ (p == r)%Q.
Proof. rewrite <- not_true_iff_false, eqb_Fin. tauto. Qed.

Lemma leb_Fin (p r : Q) : (Fin p <=? Fin r) = true <-> (p <= r)%Q.
Proof.
  unfold leb. rewrite orb_true_iff, ltb_Fin, eqb_Fin. split.
  - intros [H | H]; [apply Qlt_le_weak; exact H | rewrite H; apply Qle_refl].
  - intros H. apply Qle_lteq in H. exact H.
Qed.

Lemma leb_Fin_false (p r : Q) : (Fin p <=? Fin r) = false <-> (r < p)%Q.
Proof.
  rewrite <- not_true_iff_false, leb_Fin. split; intros H.
  - apply Qnot_le_lt; exact H.
  - apply Qlt_not_le; exact H.
Qed.

Lemma gtb_Fin (p r : Q) : (Fin p >? Fin r) = true <-> (r < p)%Q.
Proof. apply ltb_Fin. Qed.

Lemma gtb_Fin_false (p r : Q) : (Fin p >? Fin r) = false <-> (p <= r)%Q.
Proof. apply ltb_Fin_false. Qed.

Lemma geb_Fin (p r : Q) : (Fin p >=? Fin r) = true <-> (r <= p)%Q.
Proof. apply leb_Fin. Qed.

Lemma geb_Fin_false (p r : Q) : (Fin p >=? Fin r) = false <-> (p < r)%Q.
Proof. apply leb_Fin_false. Qed.

(** Turns every comparison of [Fin] values in the context and the goal into
    the order of the rationals. *)
Ltac num_to_Q :=
  repeat match goal with
  | H : (Fin _ <? Fin _) = true |- _ => apply ltb_Fin in H
  | H : (Fin _ <? Fin _) = false |- _ => apply ltb_Fin_false in H
  | H : (Fin _ <=? Fin _) = true |- _ => apply leb_Fin in H
  | H : (Fin _ <=? Fin _) = false |- _ => apply leb_Fin_false in H
  | H : (Fin _ >? Fin _) = true |- _ => apply gtb_Fin in H
  | H : (Fin _ >? Fin _) = false |- _ => apply gtb_Fin_false in H
  | H : (Fin _ >=? Fin _) = true |- _ => apply geb_Fin in H
  | H : (Fin _ >=? Fin _) = false |- _ => apply geb_Fin_false in H
  | H : (Fin _ === Fin _) = true |- _ => apply eqb_Fin in H
  | H : (Fin _ === Fin _) = false |- _ => apply eqb_Fin_false in H
  | |- (Fin _ <? Fin _) = true => apply ltb_Fin
  | |- (Fin _ <? Fin _) = false => apply ltb_Fin_false
  | |- (Fin _ <=? Fin _) = true => apply leb_Fin
  | |- (Fin _ <=? Fin _) = false => apply leb_Fin_false
  | |- (Fin _ >? Fin _) = true => apply gtb_Fin
  | |- (Fin _ >? Fin _) = false => apply gtb_Fin_false
  | |- (Fin _ >=? Fin _) = true => apply geb_Fin
  | |- (Fin _ >=? Fin _) = false => apply geb_Fin_false
  | |- (Fin _ === Fin _) = true => apply eqb_Fin
  | |- (Fin _ === Fin _) = false => apply eqb_Fin_false
  end.

(** Replaces a finite number by [Fin] of a rational. *)
Ltac fin_destruct n :=
  match goal with
  | H : finite n |- _ =>
      let v := fresh "v" in
      destruct n as [v | | |]; simpl in H; try contradiction; clear H
  end.

(** ** The stable sort *)

Section SortFacts.
Variable A : Type.
Variable cmp : A -> A -> number.

Lemma sort_insert_perm (a : A) (l : list A) :
  Permutation (sort_insert cmp a l) (a :: l).
Proof.
  induction l as [| b l IH]; simpl.
  - apply Permutation_refl.
  - destruct (cmp a b >? Fin 0).
    + eapply Permutation_trans; [apply perm_skip, IH | apply perm_swap].
    + apply Permutation_refl.
Qed.

Lemma sortBy_perm (l : list A) : Permutation (sortBy cmp l) l.
Proof.
  induction l as [| a l IH]; simpl.
  - apply perm_nil.
  - eapply Permutation_trans; [apply sort_insert_perm | apply perm_skip, IH].
Qed.

Lemma sortBy_length (l : list A) : List.length (sortBy cmp l) = List.length l.
Proof. apply Permutation_length, sortBy_perm. Qed.

Lemma sortBy_Forall (P : A -> Prop) (l : list A) :
  Forall P l -> Forall P (sortBy cmp l).
Proof.
  intros H. eapply Permutation_Forall; [apply Permutation_sym, sortBy_perm | exact H].
Qed.

(** With an order [le] decided by the comparator on the elements that
    satisfy [P], the result is sorted. *)
Variable P : A -> Prop.
Variable le : A -> A -> Prop.
Hypothesis le_trans : forall a b c, P a -> P b -> P c -> le a b -> le b c -> le a c.
Hypothesis cmp_le : forall a b, P a -> P b -> (cmp a b >? Fin 0) = false -> le a b.
Hypothesis cmp_gt : forall a b, P a -> P b -> (cmp a b >? Fin 0) = true -> le b a.

Lemma sort_insert_sorted (a : A) (l : list A) :
  P a -> Forall P l ->
  StronglySorted le l -> StronglySorted le (sort_insert cmp a l).
Proof.
  intros Pa Pl Hs. induction Hs as [| b l Hs IH Hb]; simpl.
  - constructor; constructor.
  - inversion Pl as [| ? ? Pb Pl']; subst.
    destruct (cmp a b >? Fin 0) eqn:E.
    + constructor; [apply IH; exact Pl' |].
      eapply Permutation_Forall; [apply Permutation_sym, sort_insert_perm |].
      constructor; [apply cmp_gt; assumption | exact Hb].
    + constructor; [constructor; assumption |].
      constructor; [apply cmp_le; assumption |].
      rewrite Forall_forall in *. intros c Hc.
      apply (le_trans a b c); auto.
Qed.

Lemma sortBy_sorted (l : list A) :
  Forall P l -> StronglySorted le (sortBy cmp l).
Proof.
  induction 1 as [| a l Pa Pl IH]; simpl.
  - constructor.
  - apply sort_insert_sorted; [exact Pa | apply sortBy_Forall; exact Pl | exact IH].
Qed.

End SortFacts.

(** ** [#binarySearch] *)

Lemma nth_finite (array : list interval) (i : nat) :
  Forall finite_interval array -> (i < List.length array)%nat ->
  fst (nth i array (NaN, NaN)) = Fin (st array i).
Proof.
  intros HF Hi. unfold st. apply finite_qv.
  rewrite Forall_forall in HF. apply (HF (nth i array (NaN, NaN))).
  apply nth_In; exact Hi.
Qed.

Lemma sorted_st (array : list interval) :
  Forall finite_interval array -> sorted_by_start array ->
  forall i j, (i <= j < List.length array)%nat -> (st array i <= st array j)%Q.
Proof.
  intros HF HS. induction HS as [| a l HS IH Ha].
  - simpl; intros; lia.
  - inversion HF as [| ? ? Hfa HFl]; subst.
    intros i j Hij. destruct i as [| i], j as [| j]; simpl in Hij.
    + apply Qle_refl.
    + unfold st; simpl. rewrite Forall_forall in Ha.
      assert (Hin : In (nth j l (NaN, NaN)) l) by (apply nth_In; lia).
      specialize (Ha _ Hin). unfold start_le in Ha.
      rewrite Forall_forall in HFl. destruct (HFl _ Hin) as [Hf _].
      destruct Hfa as [Hfa _].
      rewrite (finite_qv _ Hfa), (finite_qv _ Hf) in Ha.
      apply leb_Fin in Ha. exact Ha.
    + lia.
    + unfold st; simpl. apply (IH HFl i j). lia.
Qed.

Lemma binarySearch_loop_spec (fuel : nat) :
  forall (array : list interval) (y : Q) (s e : Z),
  Forall finite_interval array ->
  (forall i j, (i <= j < List.length array)%nat -> (st array i <= st array j)%Q) ->
  (0 <= s)%Z -> (e < Z.of_nat (List.length array))%Z -> (s <= e + 1)%Z ->
  (e - s + 1 < Z.of_nat fuel)%Z ->
  (forall i, (i < Z.to_nat s)%nat -> (st array i < y)%Q) ->
  (forall i, (Z.to_nat (e + 1) <= i < List.length array)%nat -> (y < st array i)%Q) ->
  let r := Z.to_nat (binarySearch_loop fuel array (Fin y) s e) in
  (r <= List.length array)%nat /\
  (forall i, (i < r)%nat -> (st array i <= y)%Q) /\
  (forall i, (r <= i < List.length array)%nat -> (y <= st array i)%Q) /\
  ((r < List.length array)%nat /\ (st array r == y)%Q \/
   forall i, (i < List.length array)%nat -> ~ (st array i == y)%Q).
Proof.
  induction fuel as [| fuel IH]; intros array y s e HF Hsort Hs He Hse Hfuel Hlo Hhi.
  - simpl in Hfuel. lia.
  - simpl. destruct (s <=? e)%Z eqn:Ecmp.
    + apply Z.leb_le in Ecmp.
      rewrite Z.shiftr_div_pow2 by lia. change (2 ^ 1)%Z with 2%Z.
      set (middle := ((s + e) / 2)%Z).
      assert (Hm : (s <= middle <= e)%Z).
      { unfold middle. split.
        - apply Z.div_le_lower_bound; lia.
        - apply Z.div_le_upper_bound; lia. }
      assert (Hmlen : (Z.to_nat middle < List.length array)%nat) by lia.
      rewrite (nth_finite _ _ HF Hmlen).
      destruct (Fin (st array (Z.to_nat middle)) === Fin y) eqn:Eeq.
      * apply eqb_Fin in Eeq. cbv zeta. repeat split.
        -- lia.
        -- intros i Hi. rewrite <- Eeq. apply Hsort. lia.
        -- intros i Hi. rewrite <- Eeq. apply Hsort. lia.
        -- left. split; [lia | exact Eeq].
      * apply eqb_Fin_false in Eeq.
        destruct (Fin (st array (Z.to_nat middle)) <? Fin y) eqn:Elt.
        -- apply ltb_Fin in Elt. apply IH; try assumption; try lia.
           intros i Hi. apply Qle_lt_trans with (st array (Z.to_nat middle)).
           ++ apply Hsort. lia.
           ++ exact Elt.
        -- apply ltb_Fin_false in Elt. apply IH; try assumption; try lia.
           intros i Hi. apply Qlt_le_trans with (st array (Z.to_nat middle)).
           ++ apply Qle_lteq in Elt. destruct Elt as [Elt | Elt].
              ** exact Elt.
              ** exfalso. apply Eeq. symmetry. exact Elt.
           ++ apply Hsort. lia.
    + apply Z.leb_gt in Ecmp. cbv zeta. repeat split.
      * lia.
      * intros i Hi. apply Qlt_le_weak, Hlo. lia.
      * intros i Hi. apply Qlt_le_weak, Hhi. lia.
      * right. intros i Hi Heq.
        destruct (Nat.lt_ge_cases i (Z.to_nat s)) as [Hlt | Hge].
        -- specialize (Hlo i Hlt). rewrite Heq in Hlo.
           apply (Qlt_irrefl _ Hlo).
        -- assert (Hlt : (Z.to_nat (e + 1) <= i < List.length array)%nat) by lia.
           specialize (Hhi i Hlt). rewrite Heq in Hhi.
           apply (Qlt_irrefl _ Hhi).
Qed.

(** The index returned on a sorted array: the starts below it are at most
    [y], those from it on are at least [y], and when some start equals [y]
    the index is one of them. *)
Lemma binarySearch_spec (array : list interval) (y : Q) :
  Forall finite_interval array -> sorted_by_start array ->
  let r := binarySearch array (Fin y) in
  (r <= List.length array)%nat /\
  (forall i, (i < r)%nat -> (st array i <= y)%Q) /\
  (forall i, (r <= i < List.length array)%nat -> (y <= st array i)%Q) /\
  ((r < List.length array)%nat /\ (st array r == y)%Q \/
   forall i, (i < List.length array)%nat -> ~ (st array i == y)%Q).
Proof.
  intros HF HS. unfold binarySearch.
  apply binarySearch_loop_spec; try assumption; try lia.
  all: try (apply sorted_st; assumption).
  all: intros i Hi; simpl in Hi; lia.
Qed.

(** More fuel than the length of the range does not change the result. *)
Lemma binarySearch_loop_fuel (fuel : nat) :
  forall (array : list interval) (y : number) (s e : Z) (extra : nat),
  (e - s + 1 < Z.of_nat fuel)%Z -> (0 <= s)%Z ->
  binarySearch_loop (fuel + extra) array y s e = binarySearch_loop fuel array y s e.
Proof.
  induction fuel as [| fuel IH]; intros array y s e extra Hfuel Hs.
  - destruct extra as [| extra]; simpl.
    + reflexivity.
    + destruct (s <=? e)%Z eqn:E; [apply Z.leb_le in E; lia | reflexivity].
  - simpl. destruct (s <=? e)%Z eqn:E; [| reflexivity].
    apply Z.leb_le in E.
    rewrite Z.shiftr_div_pow2 by lia. change (2 ^ 1)%Z with 2%Z.
    assert (Hm : (s <= (s + e) / 2 <= e)%Z).
    { split; [apply Z.div_le_lower_bound | apply Z.div_le_upper_bound]; lia. }
    destruct (_ === y); [reflexivity |].
    destruct (_ <? y); apply IH; lia.
Qed.

(** ** Lists cut at an index *)

Lemma Forall_firstn_nth (A : Type) (P : A -> Prop) (d : A) (l : list A) (r : nat) :
  (forall i, (i < r)%nat -> (i < List.length l)%nat -> P (nth i l d)) ->
  Forall P (firstn r l).
Proof.
  revert r. induction l as [| a l IH]; intros r H.
  - rewrite firstn_nil. constructor.
  - destruct r as [| r]; simpl; constructor.
    + apply (H 0%nat); simpl; lia.
    + apply IH. intros i Hi Hl. apply (H (S i)); simpl; lia.
Qed.

Lemma Forall_skipn_nth (A : Type) (P : A -> Prop) (d : A) (l : list A) (r : nat) :
  (forall i, (r <= i < List.length l)%nat -> P (nth i l d)) ->
  Forall P (skipn r l).
Proof.
  revert r. induction l as [| a l IH]; intros r H.
  - rewrite skipn_nil. constructor.
  - destruct r as [| r]; simpl.
    + constructor.
      * apply (H 0%nat); simpl; lia.
      * apply (IH 0%nat). intros i Hi. apply (H (S i)); simpl; lia.
    + apply IH. intros i Hi. apply (H (S i)); simpl; lia.
Qed.

Lemma StronglySorted_app (A : Type) (R : A -> A -> Prop) (l1 l2 : list A) :
  StronglySorted R (l1 ++ l2) <->
  StronglySorted R l1 /\ StronglySorted R l2 /\
  Forall (fun a => Forall (R a) l2) l1.
Proof.
  induction l1 as [| a l1 IH]; simpl.
  - split.
    + intros H. repeat split; [constructor | exact H | constructor].
    + intros [_ [H _]]. exact H.
  - split.
    + intros H. inversion H as [| ? ? Hs Ha]; subst.
      apply IH in Hs. destruct Hs as [H1 [H2 H3]].
      apply Forall_app in Ha. destruct Ha as [Ha1 Ha2].
      repeat split; [constructor | | constructor]; assumption.
    + intros [H1 [H2 H3]].
      inversion H1 as [| ? ? Hs Ha]; subst.
      inversion H3 as [| ? ? Hb Hc]; subst.
      constructor.
      * apply IH. repeat split; assumption.
      * apply Forall_app. split; assumption.
Qed.

Lemma splice_out_nth (A : Type) (d : A) (i : nat) (l : list A) :
  (i < List.length l)%nat ->
  l = firstn i l ++ nth i l d :: skipn (S i) l /\
  splice_out i l = firstn i l ++ skipn (S i) l.
Proof.
  intros Hi. split; [| reflexivity].
  revert i Hi. induction l as [| a l IH]; intros i Hi; simpl in Hi.
  - lia.
  - destruct i as [| i]; simpl.
    + reflexivity.
    + f_equal. apply IH. lia.
Qed.

Lemma sorted_remove_middle (l1 l2 : list interval) (iv : interval) :
  sorted_by_start (l1 ++ iv :: l2) -> sorted_by_start (l1 ++ l2).
Proof.
  unfold sorted_by_start. rewrite !StronglySorted_app.
  intros [H1 [H2 H3]]. inversion H2 as [| ? ? Hs Ha]; subst.
  repeat split; try assumption.
  eapply Forall_impl; [| exact H3].
  intros a Ha'. inversion Ha'; assumption.
Qed.

(** ** [#insert] *)

Lemma insert_shape (ivs : list interval) (e : edge) :
  exists l1 l2, ivs = l1 ++ l2 /\ insert ivs e = l1 ++ (ey1 e, ey2 e) :: l2.
Proof.
  exists (firstn (binarySearch ivs (ey1 e)) ivs),
         (skipn (binarySearch ivs (ey1 e)) ivs).
  split; [symmetry; apply firstn_skipn | reflexivity].
Qed.

Lemma insert_sorted (ivs : list interval) (e : edge) :
  Forall finite_interval ivs -> sorted_by_start ivs -> finite (ey1 e) ->
  sorted_by_start (insert ivs e).
Proof.
  intros HF HS Hy. unfold insert, splice_in.
  rewrite (finite_qv _ Hy).
  destruct (binarySearch_spec ivs (qv (ey1 e)) HF HS) as [Hr [Hlo [Hhi _]]].
  set (r := binarySearch ivs (Fin (qv (ey1 e)))) in *. clearbody r.
  assert (HS' : sorted_by_start (firstn r ivs ++ skipn r ivs))
    by (rewrite firstn_skipn; exact HS).
  unfold sorted_by_start in *. apply StronglySorted_app in HS'.
  destruct HS' as [H1 [H2 H3]].
  apply StronglySorted_app. repeat split.
  - exact H1.
  - constructor; [exact H2 |].
    apply (Forall_skipn_nth interval _ (NaN, NaN)).
    intros i Hi. unfold start_le. simpl.
    rewrite (nth_finite _ _ HF) by lia. apply leb_Fin. apply Hhi. lia.
  - assert (Hpre : Forall (fun a => start_le a (Fin (qv (ey1 e)), ey2 e)) (firstn r ivs)).
    { apply (Forall_firstn_nth interval _ (NaN, NaN)).
      intros i Hi Hl. unfold start_le. simpl.
      rewrite (nth_finite _ _ HF) by lia. apply leb_Fin. apply Hlo. lia. }
    rewrite Forall_forall in *. intros a Ha.
    constructor; [apply Hpre; exact Ha | apply H3; exact Ha].
Qed.

Lemma insert_finite (ivs : list interval) (e : edge) :
  Forall finite_interval ivs -> finite_edge e ->
  Forall finite_interval (insert ivs e).
Proof.
  intros HF [_ [H1 H2]]. unfold insert, splice_in.
  rewrite <- (firstn_skipn (binarySearch ivs (ey1 e)) ivs) in HF.
  apply Forall_app in HF. destruct HF as [Ha Hb].
  apply Forall_app. split; [exact Ha |].
  constructor; [split; assumption | exact Hb].
Qed.

(** ** [#remove] *)

Lemma remove_up_Some (y1 y2 : number) (l : list interval) :
  forall i j, remove_up y1 y2 l i = Some j ->
  exists k, j = (i + k)%nat /\ (k < List.length l)%nat /\
            matches y1 y2 (nth k l (NaN, NaN)) = true.
Proof.
  induction l as [| [s e] l IH]; intros i j H; simpl in H.
  - discriminate.
  - destruct (s === y1) eqn:Es; simpl in H; [| discriminate].
    destruct (e === y2) eqn:Ee.
    + inversion H; subst. exists 0%nat. simpl. unfold matches; simpl.
      rewrite Es, Ee. repeat split; lia.
    + apply IH in H. destruct H as [k [Hj [Hk Hm]]].
      exists (S k). simpl. repeat split; [lia | lia | exact Hm].
Qed.

Lemma remove_up_None (y1 y2 : number) (l : list interval) :
  forall i, remove_up y1 y2 l i = None ->
  forall k, (k < List.length l)%nat ->
  (forall k', (k' <= k)%nat -> (fst (nth k' l (NaN, NaN)) === y1) = true) ->
  matches y1 y2 (nth k l (NaN, NaN)) = false.
Proof.
  induction l as [| [s e] l IH]; intros i H k Hk Hrun; simpl in *.
  - lia.
  - pose proof (Hrun 0%nat (Nat.le_0_l k)) as H0. simpl in H0.
    rewrite H0 in H. simpl in H.
    destruct (e === y2) eqn:Ee; [discriminate |].
    destruct k as [| k].
    + unfold matches; simpl. rewrite H0, Ee. reflexivity.
    + apply (IH (S i) H); [lia |].
      intros k' Hk'. apply (Hrun (S k')). lia.
Qed.

Lemma remove_down_Some (y1 y2 : number) (l : list interval) :
  forall i j, remove_down y1 y2 l i = Some j ->
  exists k, i = S (j + k) /\ (k < List.length l)%nat /\
            matches y1 y2 (nth k l (NaN, NaN)) = true.
Proof.
  induction l as [| [s e] l IH]; intros i j H; simpl in H.
  - discriminate.
  - destruct i as [| i]; [discriminate |].
    destruct (s === y1) eqn:Es; simpl in H; [| discriminate].
    destruct (e === y2) eqn:Ee.
    + inversion H; subst. exists 0%nat. simpl. unfold matches; simpl.
      rewrite Es, Ee. repeat split; lia.
    + apply IH in H. destruct H as [k [Hj [Hk Hm]]].
      exists (S k). simpl. repeat split; [lia | lia | exact Hm].
Qed.

Lemma remove_down_None (y1 y2 : number) (l : list interval) :
  forall i, remove_down y1 y2 l i = None -> (List.length l <= i)%nat ->
  forall k, (k < List.length l)%nat ->
  (forall k', (k' <= k)%nat -> (fst (nth k' l (NaN, NaN)) === y1) = true) ->
  matches y1 y2 (nth k l (NaN, NaN)) = false.
Proof.
  induction l as [| [s e] l IH]; intros i H Hi k Hk Hrun; simpl in *.
  - lia.
  - destruct i as [| i]; [lia |].
    pose proof (Hrun 0%nat (Nat.le_0_l k)) as H0. simpl in H0.
    rewrite H0 in H. simpl in H.
    destruct (e === y2) eqn:Ee; [discriminate |].
    destruct k as [| k].
    + unfold matches; simpl. rewrite H0, Ee. reflexivity.
    + apply (IH i H); [lia | lia |].
      intros k' Hk'. apply (Hrun (S k')). lia.
Qed.

Lemma st_eqb (ivs : list interval) (i : nat) (y : Q) :
  Forall finite_interval ivs -> (i < List.length ivs)%nat ->
  (fst (nth i ivs (NaN, NaN)) === Fin y) = true <-> (st ivs i == y)%Q.
Proof.
  intros HF Hi. rewrite (nth_finite _ _ HF Hi). apply eqb_Fin.
Qed.

Lemma matches_start (y1 y2 : number) (iv : interval) :
  matches y1 y2 iv = true -> (fst iv === y1) = true.
Proof. unfold matches. intros H. apply andb_true_iff in H. apply H. Qed.

(** [#remove] deletes one matching interval when there is one, and leaves
    the array as it is otherwise. *)
Lemma remove_spec (ivs : list interval) (e : edge) :
  Forall finite_interval ivs -> sorted_by_start ivs -> finite (ey1 e) ->
  (exists l1 iv l2,
      ivs = l1 ++ iv :: l2 /\ remove ivs e = l1 ++ l2 /\
      matches (ey1 e) (ey2 e) iv = true)
  \/ (remove ivs e = ivs /\
      Forall (fun iv => matches (ey1 e) (ey2 e) iv = false) ivs).
Proof.
  intros HF HS Hy. unfold remove.
  rewrite (finite_qv _ Hy).
  destruct (binarySearch_spec ivs (qv (ey1 e)) HF HS) as [Hr [Hlo [Hhi _]]].
  pose proof (sorted_st ivs HF HS) as Hsort.
  set (r := binarySearch ivs (Fin (qv (ey1 e)))) in *. clearbody r.
  set (y1 := Fin (qv (ey1 e))) in *.
  destruct (remove_up y1 (ey2 e) (skipn r ivs) r) as [j |] eqn:Eup.
  - apply remove_up_Some in Eup. destruct Eup as [k [Hj [Hk Hm]]].
    rewrite length_skipn in Hk. rewrite nth_skipn in Hm. subst j.
    assert (Hlt : (r + k < List.length ivs)%nat) by lia.
    destruct (splice_out_nth interval (NaN, NaN) (r + k) ivs Hlt) as [Ha Hb].
    left. exists (firstn (r + k) ivs), (nth (r + k) ivs (NaN, NaN)),
                 (skipn (S (r + k)) ivs).
    repeat split; assumption.
  - destruct (remove_down y1 (ey2 e) (rev (firstn r ivs)) r) as [j |] eqn:Edown.
    + apply remove_down_Some in Edown. destruct Edown as [k [Hj [Hk Hm]]].
      rewrite length_rev, length_firstn in Hk.
      rewrite rev_nth in Hm by (rewrite length_firstn; lia).
      rewrite length_firstn in Hm. rewrite nth_firstn in Hm.
      replace (Nat.min r (List.length ivs) - S k)%nat with j in Hm by lia.
      assert (Hjr : (j <? r)%nat = true) by (apply Nat.ltb_lt; lia).
      rewrite Hjr in Hm.
      assert (Hlt : (j < List.length ivs)%nat) by lia.
      destruct (splice_out_nth interval (NaN, NaN) j ivs Hlt) as [Ha Hb].
      left. exists (firstn j ivs), (nth j ivs (NaN, NaN)), (skipn (S j) ivs).
      repeat split; assumption.
    + right. split; [reflexivity |].
      apply Forall_forall. intros iv Hin.
      destruct (In_nth ivs iv (NaN, NaN) Hin) as [p [Hp Hnth]]. subst iv.
      destruct (matches y1 (ey2 e) (nth p ivs (NaN, NaN))) eqn:Em; [| reflexivity].
      exfalso.
      pose proof (matches_start _ _ _ Em) as Hst.
      unfold y1 in Hst. apply (st_eqb ivs p _ HF Hp) in Hst.
      destruct (Nat.le_gt_cases r p) as [Hge | Hlt].
      * assert (Hfalse : matches y1 (ey2 e) (nth (p - r) (skipn r ivs) (NaN, NaN)) = false).
        { apply (remove_up_None y1 (ey2 e) (skipn r ivs) r Eup).
          - rewrite length_skipn. lia.
          - intros k' Hk'. rewrite nth_skipn. unfold y1.
            apply st_eqb; [exact HF | lia |].
            apply Qle_antisym.
            + rewrite <- Hst. apply Hsort. lia.
            + apply Hhi. lia. }
        rewrite nth_skipn in Hfalse.
        replace (r + (p - r))%nat with p in Hfalse by lia. congruence.
      * assert (Hlen : List.length (rev (firstn r ivs)) = r)
          by (rewrite length_rev, length_firstn; lia).
        assert (Hnth : forall k, (k < r)%nat ->
                  nth k (rev (firstn r ivs)) (NaN, NaN) = nth (r - S k) ivs (NaN, NaN)).
        { intros k Hk. rewrite rev_nth by (rewrite length_firstn; lia).
          rewrite length_firstn, nth_firstn.
          replace (Nat.min r (List.length ivs)) with r by lia.
          assert (Hb : (r - S k <? r)%nat = true) by (apply Nat.ltb_lt; lia).
          rewrite Hb. reflexivity. }
        assert (Hfalse : matches y1 (ey2 e)
                           (nth (r - S p) (rev (firstn r ivs)) (NaN, NaN)) = false).
        { apply (remove_down_None y1 (ey2 e) (rev (firstn r ivs)) r Edown).
          - lia.
          - lia.
          - intros k' Hk'. rewrite Hnth by lia. unfold y1.
            apply st_eqb; [exact HF | lia |].
            apply Qle_antisym.
            + apply Hlo. lia.
            + rewrite <- Hst. apply Hsort. lia. }
        rewrite Hnth in Hfalse by lia.
        replace (r - S (r - S p))%nat with p in Hfalse by lia. congruence.
Qed.

Lemma remove_sorted (ivs : list interval) (e : edge) :
  Forall finite_interval ivs -> sorted_by_start ivs -> finite (ey1 e) ->
  sorted_by_start (remove ivs e).
Proof.
  intros HF HS Hy.
  destruct (remove_spec ivs e HF HS Hy) as [[l1 [iv [l2 [H1 [H2 _]]]]] | [H _]].
  - rewrite H2. apply (sorted_remove_middle l1 l2 iv). rewrite <- H1. exact HS.
  - rewrite H. exact HS.
Qed.

Lemma remove_finite (ivs : list interval) (e : edge) :
  Forall finite_interval ivs -> sorted_by_start ivs -> finite (ey1 e) ->
  Forall finite_interval (remove ivs e).
Proof.
  intros HF HS Hy.
  destruct (remove_spec ivs e HF HS Hy) as [[l1 [iv [l2 [H1 [H2 _]]]]] | [H _]].
  - rewrite H2. rewrite H1 in HF. apply Forall_app in HF.
    destruct HF as [Ha Hb]. inversion Hb; subst.
    apply Forall_app; split; assumption.
  - rewrite H. exact HF.
Qed.

(** ** The interval array along the sweep *)

Lemma sweep_step_intervals (st0 : list interval * list frag) (e : edge) :
  Forall finite_interval (fst st0) -> sorted_by_start (fst st0) ->
  finite_edge e ->
  Forall finite_interval (fst (sweep_step st0 e)) /\
  sorted_by_start (fst (sweep_step st0 e)).
Proof.
  destruct st0 as [ivs out]. simpl. intros HF HS He.
  pose proof He as [_ [Hy _]].
  destruct (isLeft e); simpl.
  - split; [apply insert_finite | apply insert_sorted]; assumption.
  - split; [apply remove_finite | apply remove_sorted]; assumption.
Qed.

Lemma fold_sweep_intervals (edges : list edge) :
  forall st0 : list interval * list frag,
  Forall finite_interval (fst st0) -> sorted_by_start (fst st0) ->
  Forall finite_edge edges ->
  Forall finite_interval (fst (fold_left sweep_step edges st0)) /\
  sorted_by_start (fst (fold_left sweep_step edges st0)).
Proof.
  induction edges as [| e edges IH]; intros st0 HF HS He; simpl.
  - split; assumption.
  - inversion He; subst.
    destruct (sweep_step_intervals st0 e HF HS) as [HF' HS']; [assumption |].
    apply IH; assumption.
Qed.

(** ** [#breakEdge] *)

Lemma breakRound_skip (x s e : number) (todo1 : list frag) :
  forall done todo2 pushed,
  Forall (skipped s e) todo1 ->
  breakRound x s e done (todo1 ++ todo2) pushed =
  breakRound x s e (done ++ todo1) todo2 pushed.
Proof.
  induction todo1 as [| [[x' y3] y4] todo1 IH]; intros done todo2 pushed H.
  - simpl. rewrite app_nil_r. reflexivity.
  - inversion H as [| ? ? Hf Hr]; subst. unfold skipped, frag_y1, frag_y2 in Hf. simpl in Hf.
    simpl. rewrite Hf. rewrite IH by exact Hr.
    rewrite <- app_assoc. reflexivity.
Qed.

(** The round on an array whose fragments, but the last, are not met. *)
Lemma breakRound_last (x s e x' y3 y4 : number) (pre : list frag) :
  Forall (skipped s e) pre ->
  breakRound x s e [] (pre ++ [(x', y3, y4)]) [] =
  if (e <=? y3) || (y4 <=? s) then Some (pre ++ [(x', y3, y4)])
  else if y3 >=? s then
    if y4 >? e then Some (pre ++ [(x', e, y4)])
    else if Nat.eqb (List.length pre + 1) 1 then None else Some pre
  else Some (pre ++ (x', y3, s) :: (if y4 >? e then [(x, e, y4)] else [])).
Proof.
  intros H. rewrite breakRound_skip by exact H. simpl.
  destruct ((e <=? y3) || (y4 <=? s)).
  - rewrite app_nil_r. reflexivity.
  - destruct (y3 >=? s).
    + destruct (y4 >? e).
      * rewrite app_nil_r. reflexivity.
      * destruct (Nat.eqb (List.length pre + 1) 1); [reflexivity |].
        rewrite app_nil_r. reflexivity.
    + rewrite <- app_assoc. reflexivity.
Qed.

Lemma list_last_cases (A : Type) (l : list A) :
  l = [] \/ exists pre last, l = pre ++ [last].
Proof.
  destruct l as [| a l]; [left; reflexivity | right].
  destruct (exists_last (l := a :: l)) as [pre [last H]]; [discriminate |].
  exists pre, last. exact H.
Qed.

Lemma covered_or_kept_more (y1 y2 : Q) (ivs more : list interval) (R : list frag) :
  covered_or_kept y1 y2 ivs R -> covered_or_kept y1 y2 (ivs ++ more) R.
Proof.
  intros H t Ht. destruct (H t Ht) as [H1 | H1]; [left; exact H1 | right].
  apply Exists_app. left. exact H1.
Qed.

(** The invariant after a round that replaced the last fragment by the
    fragments [tail]. *)
Lemma break_inv_replace_last (x : number) (y1 y2 b qs qe : Q)
    (ivs : list interval) (pre : list frag) (last : frag) (tail : list frag) :
  break_inv x y1 y2 b ivs (pre ++ [last]) ->
  (b <= qs)%Q ->
  Forall (frag_ok x y1 y2) tail ->
  StronglySorted frag_before tail ->
  Forall (fun g => (fy1 last <= fy1 g)%Q /\ (fy2 g <= fy2 last)%Q /\
                   clear_of (Fin qs, Fin qe) g) tail ->
  (forall t, (fy1 last <= t <= fy2 last)%Q ->
     Exists (fun f => (fy1 f <= t <= fy2 f)%Q) tail \/
     ((qs < y2)%Q /\ (qs <= t <= qe)%Q)) ->
  (forall pre' last', tail = pre' ++ [last'] ->
     Forall (fun f => (fy2 f <= qs)%Q) pre') ->
  break_inv x y1 y2 qs (ivs ++ [(Fin qs, Fin qe)]) (pre ++ tail).
Proof.
  intros [Hok Hsep Hclear Hcov Hfinal] Hb Tok Tsep Tin Tcov Tfinal.
  pose proof (Hfinal pre last eq_refl) as Hpre.
  apply Forall_app in Hok. destruct Hok as [Hok_pre Hok_last].
  apply StronglySorted_app in Hsep. destruct Hsep as [Hsep_pre [_ Hsep_cross]].
  apply Forall_app in Hclear. destruct Hclear as [Hclear_pre Hclear_last].
  constructor.
  - apply Forall_app. split; assumption.
  - apply StronglySorted_app. repeat split; try assumption.
    rewrite Forall_forall in *. intros f Hf.
    apply Forall_forall. intros g Hg.
    specialize (Hsep_cross f Hf). inversion Hsep_cross as [| ? ? Hfl _]; subst.
    destruct (Tin g Hg) as [Tafter _]. unfold frag_before in *. simpl in *. lra.
  - apply Forall_app. split.
    2:{ inversion Hclear_last as [| ? ? Hcl _]; subst.
        eapply Forall_impl; [| exact Tin]. simpl.
        intros g [Hg1 [Hg2 Hg3]]. apply Forall_app. split.
        - eapply Forall_impl; [| exact Hcl]. simpl.
          unfold clear_of. intros iv [Hiv | Hiv]; [left | right]; lra.
        - constructor; [exact Hg3 | constructor]. }
    rewrite Forall_forall in *. intros f Hf.
    apply Forall_app. split; [apply Hclear_pre; exact Hf |].
    constructor; [| constructor].
    right. unfold iv_s; simpl. specialize (Hpre f Hf). simpl in Hpre. lra.
  - intros t Ht. destruct (Hcov t Ht) as [H1 | H1].
    + apply Exists_app in H1. destruct H1 as [H1 | H1].
      * left. apply Exists_app. left. exact H1.
      * inversion H1 as [? ? Hl | ? ? Hl]; subst; [| inversion Hl].
        destruct (Tcov t Hl) as [H2 | [H2 H3]].
        -- left. apply Exists_app. right. exact H2.
        -- right. apply Exists_app. right. constructor.
           unfold iv_s, iv_e; simpl. split; assumption.
    + right. apply Exists_app. left. exact H1.
  - intros pre' last' Heq.
    destruct (list_last_cases _ tail) as [Hnil | [tp [tl Htail]]].
    + subst tail. rewrite app_nil_r in Heq. subst pre.
      apply Forall_app in Hpre. destruct Hpre as [Hpre _].
      eapply Forall_impl; [| exact Hpre]. simpl. intros f Hf. lra.
    + subst tail. rewrite app_assoc in Heq.
      apply app_inj_tail in Heq. destruct Heq as [Heq _]. subst pre'.
      apply Forall_app. split.
      * eapply Forall_impl; [| exact Hpre]. simpl. intros f Hf. lra.
      * apply (Tfinal tp tl eq_refl).
Qed.

Ltac frag_simpl :=
  unfold frag_ok, finite_frag, frag_before, clear_of, fy1, fy2, iv_s, iv_e,
    frag_x, frag_y1, frag_y2 in *; simpl in *.

(** One round of the outer loop keeps the invariant; an early return
    happens only when the whole edge is covered. *)
Lemma break_step (x : number) (y1 y2 b qs qe : Q) (ivs : list interval)
    (R : list frag) :
  break_inv x y1 y2 b ivs R -> finite x ->
  (b <= qs)%Q -> (qs < qe)%Q ->
  match breakRound x (Fin qs) (Fin qe) [] R [] with
  | Some R' => break_inv x y1 y2 qs (ivs ++ [(Fin qs, Fin qe)]) R'
  | None => covered_or_kept y1 y2 (ivs ++ [(Fin qs, Fin qe)]) []
  end.
Proof.
  intros Hinv Hx Hb Hse.
  destruct (list_last_cases _ R) as [HR | [pre [last HR]]]; subst R.
  - simpl. destruct Hinv as [Hok Hsep Hclear Hcov Hfinal].
    constructor.
    + constructor.
    + constructor.
    + constructor.
    + apply covered_or_kept_more. exact Hcov.
    + intros pre last H. destruct pre; discriminate.
  - pose proof (bi_final Hinv pre last eq_refl) as Hpre.
    pose proof (bi_ok Hinv) as Hok. apply Forall_app in Hok.
    destruct Hok as [Hok_pre Hok_last].
    inversion Hok_last as [| ? ? Hlast _]; subst.
    destruct last as [[x' y3] y4].
    destruct Hlast as [[_ [Hf3 Hf4]] [Hx' [Hl1 [Hl2 Hl3]]]].
    unfold frag_x, frag_y1, frag_y2 in Hf3, Hf4, Hx'. simpl in Hf3, Hf4, Hx'.
    subst x'.
    destruct y3 as [q3 | | |]; try contradiction.
    destruct y4 as [q4 | | |]; try contradiction.
    unfold fy1, fy2, frag_y1, frag_y2 in Hl1, Hl2, Hl3. simpl in Hl1, Hl2, Hl3.
    rewrite breakRound_last.
    2:{ rewrite Forall_forall in *. intros f Hf. unfold skipped.
        apply orb_true_iff. right.
        destruct (Hok_pre f Hf) as [[_ [_ Hfin]] _].
        specialize (Hpre f Hf). unfold fy2 in Hpre.
        rewrite (finite_qv _ Hfin). apply leb_Fin. lra. }
    destruct ((Fin qe <=? Fin q3) || (Fin q4 <=? Fin qs)) eqn:E1.
    + apply (break_inv_replace_last x y1 y2 b qs qe ivs pre _ _ Hinv Hb).
      * exact Hok_last.
      * repeat constructor.
      * constructor; [| constructor]. frag_simpl.
        apply orb_true_iff in E1. destruct E1 as [E1 | E1]; num_to_Q; lra.
      * intros t Ht. left. constructor. exact Ht.
      * intros pre' last' H. destruct pre' as [| ? [| ? ?]]; try discriminate.
        constructor.
    + apply orb_false_iff in E1. destruct E1 as [E1a E1b]. num_to_Q.
      destruct (Fin q3 >=? Fin qs) eqn:E2; num_to_Q.
      * destruct (Fin q4 >? Fin qe) eqn:E3; num_to_Q.
        -- apply (break_inv_replace_last x y1 y2 b qs qe ivs pre _ _ Hinv Hb).
           ++ constructor; [| constructor]. frag_simpl. repeat split; auto; lra.
           ++ repeat constructor.
           ++ constructor; [| constructor]. frag_simpl. lra.
           ++ intros t Ht. frag_simpl.
              destruct (Qlt_le_dec t qe) as [Hlt | Hge].
              ** right. lra.
              ** left. constructor. simpl. lra.
           ++ intros pre' last' H. destruct pre' as [| ? [| ? ?]]; try discriminate.
              constructor.
        -- destruct (Nat.eqb (List.length pre + 1) 1) eqn:E4.
           ++ apply Nat.eqb_eq in E4. destruct pre; [| simpl in E4; lia].
              pose proof (bi_cov Hinv) as Hcov.
              intros t Ht. destruct (Hcov t Ht) as [H1 | H1].
              ** right. apply Exists_app. right. constructor.
                 inversion H1 as [? ? Hl | ? ? Hl]; subst; [| inversion Hl].
                 frag_simpl. lra.
              ** right. apply Exists_app. left. exact H1.
           ++ rewrite <- (app_nil_r pre) at 1.
              apply (break_inv_replace_last x y1 y2 b qs qe ivs pre _ _ Hinv Hb).
              ** constructor.
              ** constructor.
              ** constructor.
              ** intros t Ht. right. frag_simpl. lra.
              ** intros pre' last' H. destruct pre'; discriminate.
      * apply (break_inv_replace_last x y1 y2 b qs qe ivs pre _ _ Hinv Hb).
        -- constructor.
           ++ frag_simpl. repeat split; auto; lra.
           ++ destruct (Fin q4 >? Fin qe) eqn:E3; num_to_Q; constructor; [| constructor].
              frag_simpl. repeat split; auto; lra.
        -- destruct (Fin q4 >? Fin qe) eqn:E3; num_to_Q; repeat constructor.
           frag_simpl. lra.
        -- constructor.
           ++ frag_simpl. lra.
           ++ destruct (Fin q4 >? Fin qe) eqn:E3; num_to_Q; constructor; [| constructor].
              frag_simpl. lra.
        -- intros t Ht. frag_simpl.
           destruct (Qlt_le_dec qs t) as [Hlt | Hge].
           ++ destruct (Fin q4 >? Fin qe) eqn:E3; num_to_Q.
              ** destruct (Qlt_le_dec t qe) as [Hlt' | Hge'].
                 --- right. lra.
                 --- left. apply Exists_cons_tl. constructor. simpl. lra.
              ** right. lra.
           ++ left. constructor. simpl. lra.
        -- intros pre' last' H.
           destruct (Fin q4 >? Fin qe) eqn:E3; num_to_Q.
           ++ destruct pre' as [| ? [| ? [| ? ?]]]; try discriminate.
              inversion H; subst. constructor; [| constructor]. frag_simpl. lra.
           ++ destruct pre' as [| ? [| ? ?]]; try discriminate. constructor.
Qed.

Lemma sorted_head_le (iv : interval) (ivs : list interval) :
  Forall finite_interval (iv :: ivs) -> sorted_by_start (iv :: ivs) ->
  Forall (fun iv' => (iv_s iv <= iv_s iv')%Q) ivs.
Proof.
  intros HF HS. inversion HS as [| ? ? _ Hle]; subst.
  inversion HF as [| ? ? [Hf _] HF']; subst.
  rewrite Forall_forall in *. intros iv' Hin.
  specialize (Hle iv' Hin). destruct (HF' iv' Hin) as [Hf' _].
  unfold start_le in Hle. unfold iv_s.
  rewrite (finite_qv _ Hf), (finite_qv _ Hf') in Hle.
  apply leb_Fin in Hle. exact Hle.
Qed.

Lemma breakLoop_spec (x : number) (y1 y2 : Q) (ivs : list interval) :
  forall (used : list interval) (b : Q) (R : list frag),
  finite x -> break_inv x y1 y2 b used R ->
  Forall finite_interval ivs -> Forall proper_interval ivs ->
  sorted_by_start ivs -> Forall (fun iv => (b <= iv_s iv)%Q) ivs ->
  Forall (frag_ok x y1 y2) (breakLoop x ivs R) /\
  StronglySorted frag_before (breakLoop x ivs R) /\
  Forall (fun f => Forall (fun iv => clear_of iv f) (used ++ ivs))
    (breakLoop x ivs R) /\
  covered_or_kept y1 y2 (used ++ ivs) (breakLoop x ivs R).
Proof.
  induction ivs as [| [s e] ivs IH]; intros used b R Hx Hinv HF HP HS Hb.
  - simpl. rewrite app_nil_r. destruct Hinv.
    split; [| split; [| split]]; assumption.
  - simpl.
    pose proof (sorted_head_le _ _ HF HS) as Hhead.
    inversion HF as [| ? ? [Hfs Hfe] HF']; subst.
    inversion HP as [| ? ? Hp HP']; subst.
    inversion HS as [| ? ? HS' _]; subst.
    inversion Hb as [| ? ? Hb0 _]; subst.
    simpl in Hfs, Hfe.
    destruct s as [qs | | |]; try contradiction.
    destruct e as [qe | | |]; try contradiction.
    unfold proper_interval, iv_s, iv_e in Hp. simpl in Hp.
    unfold iv_s in Hb0. simpl in Hb0.
    pose proof (break_step x y1 y2 b qs qe used R Hinv Hx Hb0 Hp) as Hstep.
    destruct (breakRound x (Fin qs) (Fin qe) [] R []) as [R' |].
    + destruct (IH _ qs R' Hx Hstep HF' HP' HS' Hhead) as [A [B [C D]]].
      rewrite <- app_assoc in C, D. simpl in C, D.
      repeat split; assumption.
    + split; [constructor | split; [constructor | split; [constructor |]]].
      pose proof (covered_or_kept_more _ _ _ ivs _ Hstep) as D.
      rewrite <- app_assoc in D. simpl in D. exact D.
Qed.

Lemma break_inv_init (x : number) (y1 y2 : number) (b : Q) :
  finite x -> finite y1 -> finite y2 -> (qv y1 < qv y2)%Q ->
  break_inv x (qv y1) (qv y2) b [] [(x, y1, y2)].
Proof.
  intros Hx H1 H2 Hlt. constructor.
  - constructor; [| constructor]. frag_simpl.
    repeat split; auto; lra.
  - repeat constructor.
  - repeat constructor.
  - intros t Ht. left. constructor. frag_simpl. exact Ht.
  - intros pre last H. destruct pre as [| ? [| ? ?]]; try discriminate.
    constructor.
Qed.

(** What [#breakEdge] returns on a sorted array of intervals. *)
Lemma breakEdge_props (ivs : list interval) (e : edge) :
  Forall finite_interval ivs -> Forall proper_interval ivs ->
  sorted_by_start ivs -> finite_edge e -> (qv (ey1 e) < qv (ey2 e))%Q ->
  Forall (frag_ok (ex e) (qv (ey1 e)) (qv (ey2 e))) (breakEdge ivs e) /\
  StronglySorted frag_before (breakEdge ivs e) /\
  Forall (fun f => Forall (fun iv => clear_of iv f) ivs) (breakEdge ivs e) /\
  covered_or_kept (qv (ey1 e)) (qv (ey2 e)) ivs (breakEdge ivs e).
Proof.
  intros HF HP HS [Hx [H1 H2]] Hlt. unfold breakEdge.
  destruct e as [x y1 y2 l]. simpl in *.
  destruct y2 as [q2 | | |]; try contradiction. simpl in *.
  destruct (binarySearch_spec ivs q2 HF HS) as [Hr [_ [Hhi _]]].
  set (r := binarySearch ivs (Fin q2)) in *. clearbody r.
  assert (Hsplit : ivs = firstn r ivs ++ skipn r ivs)
    by (symmetry; apply firstn_skipn).
  assert (HFa : Forall finite_interval (firstn r ivs)).
  { rewrite Hsplit in HF. apply Forall_app in HF. apply HF. }
  assert (HPa : Forall proper_interval (firstn r ivs)).
  { rewrite Hsplit in HP. apply Forall_app in HP. apply HP. }
  assert (HSa : sorted_by_start (firstn r ivs)).
  { unfold sorted_by_start in *. rewrite Hsplit in HS.
    apply StronglySorted_app in HS. apply HS. }
  set (b := match firstn r ivs with [] => 0%Q | iv :: _ => iv_s iv end).
  assert (Hb : Forall (fun iv => (b <= iv_s iv)%Q) (firstn r ivs)).
  { unfold b. destruct (firstn r ivs) as [| iv rest]; constructor.
    - apply Qle_refl.
    - apply sorted_head_le; assumption. }
  destruct (breakLoop_spec x (qv y1) q2 (firstn r ivs)
              [] b [(x, y1, Fin q2)] Hx
              (break_inv_init x y1 (Fin q2) b Hx H1 H2 Hlt)
              HFa HPa HSa Hb) as [Gok [Gsep [Gclear Gcov]]].
  simpl in Gclear, Gcov.
  split; [exact Gok | split; [exact Gsep | split]].
  - rewrite Forall_forall in *. intros f Hf.
    rewrite Hsplit. apply Forall_app. split; [apply Gclear; exact Hf |].
    apply (Forall_skipn_nth interval _ (NaN, NaN)). intros i Hi.
    right. destruct (Gok f Hf) as [_ [_ [_ [_ Hle]]]].
    specialize (Hhi i Hi). unfold st in Hhi. unfold iv_s. lra.
  - intros t Ht. destruct (Gcov t Ht) as [G | G]; [left; exact G | right].
    rewrite Hsplit. apply Exists_app. left. exact G.
Qed.

(** ** Counting *)

Section Counting.
Variable A : Type.

Lemma count_nil (p : A -> bool) : count p [] = 0%nat.
Proof. reflexivity. Qed.

Lemma count_cons (p : A -> bool) (a : A) (l : list A) :
  count p (a :: l) = ((if p a then 1 else 0) + count p l)%nat.
Proof. unfold count. simpl. destruct (p a); reflexivity. Qed.

Lemma count_app (p : A -> bool) (l1 l2 : list A) :
  count p (l1 ++ l2) = (count p l1 + count p l2)%nat.
Proof. unfold count. rewrite filter_app, length_app. reflexivity. Qed.

Lemma count_perm (p : A -> bool) (l1 l2 : list A) :
  Permutation l1 l2 -> count p l1 = count p l2.
Proof.
  induction 1; rewrite ?count_cons; lia.
Qed.

Lemma count_ext (p r : A -> bool) (l : list A) :
  Forall (fun a => p a = r a) l -> count p l = count r l.
Proof.
  induction 1 as [| a l Ha _ IH]; [reflexivity |].
  rewrite !count_cons, Ha, IH. reflexivity.
Qed.

Lemma count_zero (p : A -> bool) (l : list A) :
  count p l = 0%nat <-> Forall (fun a => p a = false) l.
Proof.
  induction l as [| a l IH]; [split; [constructor | reflexivity] |].
  rewrite count_cons. split.
  - intros H. destruct (p a) eqn:E; [discriminate |].
    constructor; [exact E | apply IH; exact H].
  - intros H. inversion H as [| ? ? Ha Hl]; subst. rewrite Ha.
    apply IH. exact Hl.
Qed.

Lemma count_pos (p : A -> bool) (l : list A) :
  (0 < count p l)%nat <-> Exists (fun a => p a = true) l.
Proof.
  induction l as [| a l IH].
  - split; [unfold count; simpl; lia | intros H; inversion H].
  - rewrite count_cons. split.
    + intros H. destruct (p a) eqn:E.
      * left. exact E.
      * right. apply IH. exact H.
    + intros H. inversion H as [? ? Ha | ? ? Hl]; subst.
      * rewrite Ha. lia.
      * apply IH in Hl. lia.
Qed.

(** The first and the last element that pass a test. *)
Lemma first_occurrence (p : A -> bool) (l : list A) :
  Exists (fun a => p a = true) l ->
  exists l1 a l2, l = l1 ++ a :: l2 /\ p a = true /\ count p l1 = 0%nat.
Proof.
  induction l as [| a l IH]; intros H; [inversion H |].
  destruct (p a) eqn:E.
  - exists [], a, l. repeat split; assumption.
  - inversion H as [? ? Ha | ? ? Hl]; subst; [congruence |].
    destruct (IH Hl) as [l1 [b [l2 [H1 [H2 H3]]]]].
    exists (a :: l1), b, l2. subst l. repeat split; try assumption.
    rewrite count_cons, E, H3. reflexivity.
Qed.

Lemma last_occurrence (p : A -> bool) (l : list A) :
  Exists (fun a => p a = true) l ->
  exists l1 a l2, l = l1 ++ a :: l2 /\ p a = true /\ count p l2 = 0%nat.
Proof.
  induction l as [| a l IH]; intros H; [inversion H |].
  destruct (count p l) as [| n] eqn:E.
  - inversion H as [? ? Ha | ? ? Hl]; subst.
    + exists [], a, l. repeat split; assumption.
    + apply count_pos in Hl. lia.
  - assert (Hl : Exists (fun a => p a = true) l) by (apply count_pos; lia).
    destruct (IH Hl) as [l1 [b [l2 [H1 [H2 H3]]]]].
    exists (a :: l1), b, l2. subst l. repeat split; assumption.
Qed.

End Counting.

Lemma count_flat_map (A B : Type) (p : B -> bool) (f : A -> list B) (l : list A) :
  count p (flat_map f l) =
  fold_right (fun a n => (count p (f a) + n)%nat) 0%nat l.
Proof.
  induction l as [| a l IH]; [reflexivity |].
  simpl. rewrite count_app, IH. reflexivity.
Qed.

(** ** Strict equality of numbers *)

Lemma eqb_trans_l (a a' c : number) :
  (a === a') = true -> (a === c) = (a' === c).
Proof.
  destruct a as [p | | |], a' as [p' | | |]; unfold eqb; intros H;
    try discriminate; try reflexivity.
  destruct c as [r | | |]; try reflexivity.
  apply Qeq_bool_iff in H.
  destruct (Qeq_bool p r) eqn:E1, (Qeq_bool p' r) eqn:E2; try reflexivity.
  - apply Qeq_bool_iff in E1. apply Qeq_bool_neq in E2.
    exfalso. apply E2. rewrite <- H. exact E1.
  - apply Qeq_bool_iff in E2. apply Qeq_bool_neq in E1.
    exfalso. apply E1. rewrite H. exact E2.
Qed.

Lemma ltb_compat (a a' b b' : number) :
  (a === a') = true -> (b === b') = true -> (a <? b) = (a' <? b').
Proof.
  destruct a as [p | | |], a' as [p' | | |]; unfold eqb; intros Ha;
    try discriminate;
    destruct b as [r | | |], b' as [r' | | |]; intros Hb;
    try discriminate; try reflexivity.
  apply Qeq_bool_iff in Ha. apply Qeq_bool_iff in Hb.
  unfold ltb. rewrite (Qcompare_comp _ _ Ha _ _ Hb). reflexivity.
Qed.

Lemma eqb_refl_fin (p : Q) : (Fin p === Fin p) = true.
Proof. apply eqb_Fin. reflexivity. Qed.

Lemma compat_matches (y1 y2 : number) :
  compat (fun a b => (a === y1) && (b === y2)).
Proof.
  intros a a' b b' Ha Hb.
  rewrite (eqb_trans_l a a' y1 Ha), (eqb_trans_l b b' y2 Hb). reflexivity.
Qed.

Lemma compat_has (t : Q) :
  compat (fun a b => (a <? Fin t) && (Fin t <? b)).
Proof.
  intros a a' b b' Ha Hb.
  rewrite (ltb_compat a a' (Fin t) (Fin t) Ha (eqb_refl_fin t)).
  rewrite (ltb_compat (Fin t) (Fin t) b b' (eqb_refl_fin t) Hb).
  reflexivity.
Qed.

(** ** The intervals along the sweep *)

Lemma proper_edge_interval (e : edge) :
  proper_edge e -> finite_interval (ey1 e, ey2 e) /\ proper_interval (ey1 e, ey2 e).
Proof.
  intros [[_ [H1 H2]] Hlt]. split; [split; assumption | exact Hlt].
Qed.

Lemma sweep_inv_left (P : list edge) (I : list interval) (e : edge) :
  sweep_inv P I -> proper_edge e -> isLeft e = true ->
  sweep_inv (P ++ [e]) (insert I e).
Proof.
  intros [HF HP HS HC] He Hl.
  destruct (proper_edge_interval e He) as [Hfi Hpi].
  destruct He as [Hfe Hlt]. pose proof Hfe as [_ [Hy1 _]].
  destruct (insert_shape I e) as [l1 [l2 [HI Hins]]].
  constructor.
  - apply insert_finite; assumption.
  - rewrite Hins. rewrite HI in HP. apply Forall_app in HP.
    destruct HP as [Ha Hb]. apply Forall_app. split; [exact Ha |].
    constructor; assumption.
  - apply insert_sorted; assumption.
  - intros phi Hphi. specialize (HC phi Hphi).
    rewrite Hins. rewrite HI in HC.
    rewrite !count_app, !count_cons, !count_nil in *.
    unfold right_if, left_if, on_edge, on_interval in *. simpl in *.
    rewrite Hl. simpl. destruct (phi (ey1 e) (ey2 e)); lia.
Qed.

Lemma sweep_inv_right (P : list edge) (I : list interval) (e : edge) :
  sweep_inv P I -> proper_edge e -> isLeft e = false ->
  (count (right_if (on_edge (fun a b => (a === ey1 e) && (b === ey2 e)))) P
   < count (left_if (on_edge (fun a b => (a === ey1 e) && (b === ey2 e)))) P)%nat ->
  sweep_inv (P ++ [e]) (remove I e).
Proof.
  intros [HF HP HS HC] He Hl Hbal.
  destruct He as [Hfe Hlt]. pose proof Hfe as [_ [Hy1 _]].
  pose proof (HC _ (compat_matches (ey1 e) (ey2 e))) as Hcls.
  destruct (remove_spec I e HF HS Hy1)
    as [[l1 [iv [l2 [HI [Hrem Hm]]]]] | [_ Hnone]].
  2:{ exfalso.
      assert (Hz : count (on_interval (fun a b => (a === ey1 e) && (b === ey2 e))) I = 0%nat).
      { apply count_zero. exact Hnone. }
      lia. }
  constructor.
  - apply remove_finite; assumption.
  - rewrite Hrem. rewrite HI in HP. apply Forall_app in HP.
    destruct HP as [Ha Hb]. inversion Hb; subst.
    apply Forall_app. split; assumption.
  - apply remove_sorted; assumption.
  - intros phi Hphi. specialize (HC phi Hphi).
    rewrite Hrem. rewrite HI in HC.
    rewrite !count_app, !count_cons, !count_nil in *.
    unfold matches in Hm. apply andb_true_iff in Hm. destruct Hm as [Hm1 Hm2].
    unfold right_if, left_if, on_edge, on_interval in *. simpl in *.
    rewrite Hl. simpl.
    rewrite (Hphi _ _ _ _ Hm1 Hm2) in HC.
    destruct (phi (ey1 e) (ey2 e)); lia.
Qed.

(** ** What an edge contributes *)

Lemma has_t_iff (t : Q) (e : edge) :
  finite_edge e ->
  has_t t e = true <-> (qv (ey1 e) < t)%Q /\ (t < qv (ey2 e))%Q.
Proof.
  intros [_ [H1 H2]]. unfold has_t.
  rewrite (finite_qv _ H1) at 1. rewrite (finite_qv _ H2) at 1.
  rewrite andb_true_iff, !ltb_Fin. reflexivity.
Qed.

Lemma iv_has_iff (t : Q) (iv : interval) :
  finite_interval iv ->
  iv_has t iv = true <-> (iv_s iv < t)%Q /\ (t < iv_e iv)%Q.
Proof.
  intros [H1 H2]. unfold iv_has, iv_s, iv_e.
  rewrite (finite_qv _ H1) at 1. rewrite (finite_qv _ H2) at 1.
  rewrite andb_true_iff, !ltb_Fin. reflexivity.
Qed.

(** The fragments of an edge lie on the points of the edge that no
    interval covers. *)
Lemma breakEdge_emitted (I : list interval) (e : edge) (x t : Q) :
  Forall finite_interval I -> Forall proper_interval I -> sorted_by_start I ->
  proper_edge e -> off_edge t e -> Forall (off_interval t) I ->
  emitted (breakEdge I e) x t <->
  (qv (ex e) == x)%Q /\ has_t t e = true /\ count (iv_has t) I = 0%nat.
Proof.
  intros HF HP HS [Hfe Hlt] [Ht1 Ht2] Hoff.
  destruct (breakEdge_props I e HF HP HS Hfe Hlt) as [Gok [Gsep [Gclear Gcov]]].
  unfold emitted. rewrite Exists_exists. rewrite Forall_forall in *.
  split.
  - intros [f [Hin [_ [Hx [Hlo Hhi]]]]].
    destruct (Gok f Hin) as [_ [Hfx [Hf1 [Hf2 Hf3]]]].
    split; [rewrite <- Hfx; exact Hx |]. split.
    + apply has_t_iff; [exact Hfe |].
      split.
      * apply Qle_lteq in Hf1. destruct Hf1 as [Hf1 | Hf1].
        -- lra.
        -- assert (Hle : (qv (ey1 e) <= t)%Q) by lra.
           apply Qle_lteq in Hle. destruct Hle as [Hle | Hle]; [exact Hle |].
           exfalso. apply Ht1. symmetry. exact Hle.
      * assert (Hle : (t <= qv (ey2 e))%Q) by lra.
        apply Qle_lteq in Hle. destruct Hle as [Hle | Hle]; [exact Hle |].
        exfalso. apply Ht2. exact Hle.
    + apply count_zero. apply Forall_forall. intros iv Hiv.
      destruct (iv_has t iv) eqn:E; [| reflexivity].
      apply (iv_has_iff t iv (HF iv Hiv)) in E.
      specialize (Gclear f Hin). rewrite Forall_forall in Gclear.
      destruct (Gclear iv Hiv) as [Hc | Hc]; lra.
  - intros [Hx [Hhas Hcount]].
    apply (has_t_iff t e Hfe) in Hhas.
    assert (Hin : (qv (ey1 e) <= t <= qv (ey2 e))%Q) by lra.
    destruct (Gcov t Hin) as [G | G].
    + apply Exists_exists in G. destruct G as [f [Hf Hft]].
      exists f. destruct (Gok f Hf) as [Hff [Hfx _]]. destruct Hft as [Hft1 Hft2].
      split; [exact Hf |]. split; [exact Hff |].
      split; [rewrite Hfx; exact Hx |]. split; assumption.
    + exfalso. apply Exists_exists in G. destruct G as [iv [Hiv [_ Hivt]]].
      rewrite count_zero in Hcount. rewrite Forall_forall in Hcount.
      specialize (Hcount iv Hiv).
      assert (Htrue : iv_has t iv = true).
      { apply (iv_has_iff t iv (HF iv Hiv)).
        destruct (Hoff iv Hiv) as [Ho1 Ho2]. split.
        - destruct Hivt as [Hle _]. apply Qle_lteq in Hle.
          destruct Hle as [Hle | Hle]; [exact Hle |].
          exfalso. apply Ho1. symmetry. exact Hle.
        - destruct Hivt as [_ Hle]. apply Qle_lteq in Hle.
          destruct Hle as [Hle | Hle]; [exact Hle |].
          exfalso. apply Ho2. exact Hle. }
      congruence.
Qed.

Lemma emitted_app (out1 out2 : list frag) (x t : Q) :
  emitted (out1 ++ out2) x t <-> emitted out1 x t \/ emitted out2 x t.
Proof. unfold emitted. apply Exists_app. Qed.

Lemma insert_off (I : list interval) (e : edge) (t : Q) :
  Forall (off_interval t) I -> off_edge t e ->
  Forall (off_interval t) (insert I e).
Proof.
  intros HI He. destruct (insert_shape I e) as [l1 [l2 [H1 H2]]].
  rewrite H2. rewrite H1 in HI. apply Forall_app in HI. destruct HI as [Ha Hb].
  apply Forall_app. split; [exact Ha |]. constructor; [exact He | exact Hb].
Qed.

Lemma remove_off (I : list interval) (e : edge) (t : Q) :
  Forall finite_interval I -> sorted_by_start I -> finite (ey1 e) ->
  Forall (off_interval t) I -> Forall (off_interval t) (remove I e).
Proof.
  intros HF HS Hy HI.
  destruct (remove_spec I e HF HS Hy) as [[l1 [iv [l2 [H1 [H2 _]]]]] | [H _]].
  - rewrite H2. rewrite H1 in HI. apply Forall_app in HI.
    destruct HI as [Ha Hb]. inversion Hb; subst.
    apply Forall_app; split; assumption.
  - rewrite H. exact HI.
Qed.

(** The points of the fragments collected by the sweep over the edges [S],
    started after the edges [P]. *)
Lemma sweep_emitted (x t : Q) (S : list edge) :
  forall (P : list edge) (I : list interval) (out : list frag),
  sweep_inv P I -> Forall proper_edge S ->
  Forall (off_interval t) I -> Forall (off_edge t) S ->
  (forall S1 e S2, S = S1 ++ e :: S2 -> isLeft e = false ->
     (count (right_if (on_edge (fun a b => (a === ey1 e) && (b === ey2 e)))) (P ++ S1)
      < count (left_if (on_edge (fun a b => (a === ey1 e) && (b === ey2 e)))) (P ++ S1))%nat) ->
  emitted (snd (fold_left sweep_step S (I, out))) x t <->
  emitted out x t \/
  exists S1 e S2, S = S1 ++ e :: S2 /\ emits (P ++ S1) e x t.
Proof.
  induction S as [| e S IH]; intros P I out Hinv HS Hoff HoffS Hbal.
  - simpl. split; [intros H; left; exact H |].
    intros [H | [S1 [e [S2 [H _]]]]]; [exact H |].
    destruct S1; discriminate.
  - inversion HS as [| ? ? He HS']; subst.
    inversion HoffS as [| ? ? Hoe HoffS']; subst.
    pose proof He as [Hfe Hlt]. pose proof Hfe as [_ [Hy1 _]].
    pose proof (si_count Hinv (compat_has t)) as Hcnt.
    change (on_interval (fun a b => (a <? Fin t) && (Fin t <? b))) with (iv_has t) in Hcnt.
    change (on_edge (fun a b => (a <? Fin t) && (Fin t <? b))) with (has_t t) in Hcnt.
    simpl. destruct (isLeft e) eqn:El.
    + (* a left edge *)
      pose proof (sweep_inv_left P I e Hinv He El) as Hinv'.
      rewrite (IH (P ++ [e]) (insert I e) (out ++ breakEdge I e) Hinv' HS'
                 (insert_off I e t Hoff Hoe) HoffS').
      2:{ intros S1 e' S2 HS2 Hl'. rewrite <- app_assoc. simpl.
          apply (Hbal (e :: S1) e' S2); [rewrite HS2; reflexivity | exact Hl']. }
      rewrite emitted_app.
      rewrite (breakEdge_emitted I e x t (si_finite Hinv) (si_proper Hinv)
                 (si_sorted Hinv) He Hoe Hoff).
      split.
      * intros [[H | H] | [S1 [e' [S2 [HS2 Hem]]]]].
        -- left. exact H.
        -- right. exists [], e, S. split; [reflexivity |].
           rewrite app_nil_r. destruct H as [Hx [Hh Hc]].
           unfold emits. rewrite El. repeat split; try assumption. lia.
        -- right. exists (e :: S1), e', S2. split; [rewrite HS2; reflexivity |].
           rewrite <- app_assoc in Hem. exact Hem.
      * intros [H | [S1 [e' [S2 [HS2 Hem]]]]].
        -- left. left. exact H.
        -- destruct S1 as [| e0 S1]; simpl in HS2; inversion HS2; subst.
           ++ left. right. rewrite app_nil_r in Hem.
              destruct Hem as [Hx [Hh Hc]]. rewrite El in Hc.
              repeat split; try assumption. lia.
           ++ right. exists S1, e', S2. split; [reflexivity |].
              rewrite <- app_assoc. exact Hem.
    + (* a right edge *)
      pose proof (Hbal [] e S eq_refl El) as Hb0. rewrite app_nil_r in Hb0.
      pose proof (sweep_inv_right P I e Hinv He El Hb0) as Hinv'.
      pose proof (si_count Hinv' (compat_has t)) as Hcnt'.
      change (on_interval (fun a b => (a <? Fin t) && (Fin t <? b))) with (iv_has t) in Hcnt'.
      change (on_edge (fun a b => (a <? Fin t) && (Fin t <? b))) with (has_t t) in Hcnt'.
      rewrite !count_app, !count_cons, !count_nil in Hcnt'.
      unfold right_if at 2 in Hcnt'. unfold left_if at 2 in Hcnt'.
      rewrite El in Hcnt'. simpl in Hcnt'.
      pose proof (remove_off I e t (si_finite Hinv) (si_sorted Hinv) Hy1 Hoff) as Hoff'.
      rewrite (IH (P ++ [e]) (remove I e) (out ++ breakEdge (remove I e) e) Hinv' HS'
                 Hoff' HoffS').
      2:{ intros S1 e' S2 HS2 Hl'. rewrite <- app_assoc. simpl.
          apply (Hbal (e :: S1) e' S2); [rewrite HS2; reflexivity | exact Hl']. }
      rewrite emitted_app.
      rewrite (breakEdge_emitted (remove I e) e x t (si_finite Hinv') (si_proper Hinv')
                 (si_sorted Hinv') He Hoe Hoff').
      split.
      * intros [[H | H] | [S1 [e' [S2 [HS2 Hem]]]]].
        -- left. exact H.
        -- right. exists [], e, S. split; [reflexivity |].
           rewrite app_nil_r. destruct H as [Hx [Hh Hc]].
           unfold emits. rewrite El. repeat split; try assumption.
           rewrite Hh in Hcnt'. lia.
        -- right. exists (e :: S1), e', S2. split; [rewrite HS2; reflexivity |].
           rewrite <- app_assoc in Hem. exact Hem.
      * intros [H | [S1 [e' [S2 [HS2 Hem]]]]].
        -- left. left. exact H.
        -- destruct S1 as [| e0 S1]; simpl in HS2; inversion HS2; subst.
           ++ left. right. rewrite app_nil_r in Hem.
              destruct Hem as [Hx [Hh Hc]]. rewrite El in Hc.
              repeat split; try assumption.
              rewrite Hh in Hcnt'. lia.
           ++ right. exists S1, e', S2. split; [reflexivity |].
              rewrite <- app_assoc. exact Hem.
Qed.

(** ** The order of the sweep *)

Lemma edge_lex_trans (a b c : edge) :
  edge_lex a b -> edge_lex b c -> edge_lex a c.
Proof.
  unfold edge_lex.
  intros [H1 | [H1 [H2 | [H2 H3]]]] [G1 | [G1 [G2 | [G2 G3]]]];
    try (left; lra); right; (split; [lra |]); try (left; lra).
  right. split; lra.
Qed.

Lemma edge_cmp_Fin (ax ay1 ay2 bx by1 by2 : Q) (la lb : bool) :
  let a := Edge (Fin ax) (Fin ay1) (Fin ay2) la in
  let b := Edge (Fin bx) (Fin by1) (Fin by2) lb in
  ((edge_cmp a b >? Fin 0) = true -> edge_lex b a) /\
  ((edge_cmp a b >? Fin 0) = false -> edge_lex a b).
Proof.
  intros a b. subst a b. unfold edge_cmp, or_else, sub, truthy, edge_lex.
  cbn [ex ey1 ey2 qv].
  destruct (Qeq_bool (Qred (ax - bx)) 0) eqn:Ex; cbn [negb].
  - apply Qeq_bool_iff in Ex. rewrite Qred_correct in Ex.
    destruct (Qeq_bool (Qred (ay1 - by1)) 0) eqn:Ey1; cbn [negb].
    + apply Qeq_bool_iff in Ey1. rewrite Qred_correct in Ey1.
      split; intros H; num_to_Q; rewrite Qred_correct in H;
        right; (split; [lra |]); right; split; lra.
    + apply Qeq_bool_neq in Ey1. rewrite Qred_correct in Ey1.
      split; intros H; num_to_Q; rewrite Qred_correct in H;
        right; (split; [lra |]); left.
      * lra.
      * apply Qle_lteq in H. destruct H as [H | H]; [lra |].
        exfalso. apply Ey1. exact H.
  - apply Qeq_bool_neq in Ex. rewrite Qred_correct in Ex.
    split; intros H; num_to_Q; rewrite Qred_correct in H; left.
    + lra.
    + apply Qle_lteq in H. destruct H as [H | H]; [lra |].
      exfalso. apply Ex. exact H.
Qed.

Lemma finite_edge_Fin (e : edge) :
  finite_edge e ->
  e = Edge (Fin (qv (ex e))) (Fin (qv (ey1 e))) (Fin (qv (ey2 e))) (isLeft e).
Proof.
  destruct e as [x0 y1 y2 l]. intros [Hx [H1 H2]]. simpl in *.
  rewrite <- (finite_qv _ Hx), <- (finite_qv _ H1), <- (finite_qv _ H2).
  reflexivity.
Qed.

(** The edge sort puts finite edges in ascending [(x, y1, y2)] order. *)
Lemma sort_edges_sorted (l : list edge) :
  Forall finite_edge l -> StronglySorted edge_lex (sortBy edge_cmp l).
Proof.
  apply sortBy_sorted.
  - intros a b c _ _ _. apply edge_lex_trans.
  - intros a b Ha Hb H. rewrite (finite_edge_Fin a Ha), (finite_edge_Fin b Hb) in H.
    apply edge_cmp_Fin in H. exact H.
  - intros a b Ha Hb H. rewrite (finite_edge_Fin a Ha), (finite_edge_Fin b Hb) in H.
    apply edge_cmp_Fin in H. exact H.
Qed.

Lemma edge_lex_x (a b : edge) : edge_lex a b -> (qv (ex a) <= qv (ex b))%Q.
Proof. unfold edge_lex. intros [H | [H _]]; lra. Qed.

(** ** The edges of a list of rectangles *)

Lemma in_all_edges (rects : list qrect) (e : edge) :
  In e (all_edges rects) <->
  exists r, In r rects /\ (e = left_edge r \/ e = right_edge r).
Proof.
  unfold all_edges. rewrite in_flat_map. split.
  - intros [r [Hr [H | [H | []]]]]; exists r; auto.
  - intros [r [Hr [H | H]]]; exists r; split; auto; simpl; auto.
Qed.

Lemma all_edges_proper (rects : list qrect) :
  Forall wf_rect rects -> Forall proper_edge (all_edges rects).
Proof.
  intros H. apply Forall_forall. intros e He.
  apply in_all_edges in He. destruct He as [r [Hr He]].
  rewrite Forall_forall in H. destruct (H r Hr) as [_ Hy].
  destruct He as [He | He]; subst e; (split; [repeat split | exact Hy]).
Qed.

Lemma count_all_edges (p : edge -> bool) (rects : list qrect) :
  count p (all_edges rects) =
  (count (fun r => p (left_edge r)) rects +
   count (fun r => p (right_edge r)) rects)%nat.
Proof.
  induction rects as [| r rects IH]; [reflexivity |].
  unfold all_edges in *. simpl. rewrite !count_cons, IH. lia.
Qed.

Lemma count_le (A : Type) (p r : A -> bool) (l : list A) :
  Forall (fun a => p a = true -> r a = true) l -> (count p l <= count r l)%nat.
Proof.
  induction 1 as [| a l Ha _ IH]; [unfold count; simpl; lia |].
  rewrite !count_cons. destruct (p a).
  - rewrite (Ha eq_refl). lia.
  - destruct (r a); lia.
Qed.

Lemma count_false (A : Type) (p : A -> bool) (l : list A) :
  (forall a, In a l -> p a = false) -> count p l = 0%nat.
Proof. intros H. apply count_zero. apply Forall_forall. exact H. Qed.

Lemma count_sum (A : Type) (p r s : A -> bool) (l : list A) :
  Forall (fun a => p a = (r a || s a) /\ (r a && s a) = false) l ->
  count p l = (count r l + count s l)%nat.
Proof.
  induction 1 as [| a l [Ha Hb] _ IH]; [reflexivity |].
  rewrite !count_cons, IH, Ha.
  destruct (r a), (s a); simpl in *; try discriminate; lia.
Qed.

Lemma sorted_split_x (P S : list edge) (e : edge) :
  StronglySorted edge_lex (P ++ e :: S) ->
  Forall (fun a => (qv (ex a) <= qv (ex e))%Q) P /\
  Forall (fun a => (qv (ex e) <= qv (ex a))%Q) S.
Proof.
  intros H. apply StronglySorted_app in H. destruct H as [_ [H2 H3]].
  split.
  - eapply Forall_impl; [| exact H3]. simpl. intros a Ha.
    inversion Ha; subst. apply edge_lex_x. assumption.
  - inversion H2 as [| ? ? _ Hle]; subst.
    eapply Forall_impl; [| exact Hle]. simpl. intros a Ha.
    apply edge_lex_x. exact Ha.
Qed.

Lemma proper_edge_x (e : edge) : proper_edge e -> ex e = Fin (qv (ex e)).
Proof. intros [[Hx _] _]. apply finite_qv. exact Hx. Qed.

(** In the sorted edges of well-formed rectangles, every right edge comes
    after more left edges than right edges of its ordinates. *)
Lemma balanced_sorted (rects : list qrect) (L : list edge) :
  Forall wf_rect rects -> Permutation L (all_edges rects) ->
  StronglySorted edge_lex L -> balanced L.
Proof.
  intros Hwf Hperm Hsort P e S HL Hl.
  set (cls := fun a b : number => (a === ey1 e) && (b === ey2 e)).
  set (c := qv (ex e)).
  set (pR := right_if (on_edge cls)). set (pL := left_if (on_edge cls)).
  set (xle := fun a : edge => ex a <=? Fin c).
  set (xlt := fun a : edge => ex a <? Fin c).
  assert (Hprop : Forall proper_edge L).
  { eapply Permutation_Forall; [apply Permutation_sym; exact Hperm |].
    apply all_edges_proper. exact Hwf. }
  rewrite HL in Hsort. destruct (sorted_split_x P S e Hsort) as [HP HS].
  assert (HpropP : Forall proper_edge P).
  { rewrite HL in Hprop. apply Forall_app in Hprop. apply Hprop. }
  assert (Hpe : proper_edge e).
  { rewrite HL in Hprop. apply Forall_app in Hprop. destruct Hprop as [_ Hp].
    inversion Hp; assumption. }
  assert (HpropS : Forall proper_edge S).
  { rewrite HL in Hprop. apply Forall_app in Hprop. destruct Hprop as [_ Hp].
    inversion Hp; assumption. }
  (* the right edges met so far lie at or before the line of [e] *)
  assert (H1 : (count pR P + 1 <= count (andp pR xle) L)%nat).
  { rewrite HL.
    replace (P ++ e :: S) with ((P ++ [e]) ++ S) by (rewrite <- app_assoc; reflexivity).
    rewrite (count_app _ _ (P ++ [e]) S).
    assert (Heq : count (andp pR xle) (P ++ [e]) = count pR (P ++ [e])).
    { apply count_ext. apply Forall_app. split.
      - rewrite Forall_forall in *. intros a Ha. unfold andp, xle.
        rewrite (proper_edge_x a (HpropP a Ha)).
        replace (Fin (qv (ex a)) <=? Fin c) with true; [apply andb_true_r |].
        symmetry. apply leb_Fin. apply HP. exact Ha.
      - constructor; [| constructor]. unfold andp, xle.
        rewrite (proper_edge_x e Hpe).
        replace (Fin (qv (ex e)) <=? Fin c) with true; [apply andb_true_r |].
        symmetry. apply leb_Fin. unfold c. apply Qle_refl. }
    rewrite Heq, count_app, count_cons, count_nil.
    assert (He : pR e = true).
    { unfold pR, right_if, on_edge, cls. rewrite Hl. simpl.
      destruct Hpe as [[_ [Hy1 Hy2]] _].
      rewrite (finite_qv _ Hy1), (finite_qv _ Hy2), !eqb_refl_fin. reflexivity. }
    rewrite He. lia. }
  (* in the rectangles: a right side at or before the line has its left
     side before the line *)
  assert (H2 : (count (andp pR xle) L <= count (andp pL xlt) L)%nat).
  { rewrite (count_perm _ (andp pR xle) _ _ Hperm), (count_perm _ (andp pL xlt) _ _ Hperm).
    rewrite !count_all_edges.
    assert (Ha : count (fun r => andp pR xle (left_edge r)) rects = 0%nat).
    { apply count_false. intros r _. reflexivity. }
    assert (Hb : count (fun r => andp pL xlt (right_edge r)) rects = 0%nat).
    { apply count_false. intros r _. reflexivity. }
    rewrite Ha, Hb, Nat.add_0_l, Nat.add_0_r.
    apply count_le. rewrite Forall_forall in *. intros r Hr.
    destruct (Hwf r Hr) as [Hx _].
    unfold andp, pR, pL, right_if, left_if, on_edge, xle, xlt. simpl.
    intros H. apply andb_true_iff in H. destruct H as [Hc Hle].
    rewrite Hc. simpl. num_to_Q. lra. }
  (* the left edges before the line have all been met *)
  assert (H3 : (count (andp pL xlt) L <= count pL P)%nat).
  { rewrite HL, count_app.
    assert (Hz : count (andp pL xlt) (e :: S) = 0%nat).
    { apply count_false. intros a Ha. unfold andp, xlt.
      assert (Hpa : proper_edge a).
      { destruct Ha as [Ha | Ha]; [subst a; exact Hpe |].
        rewrite Forall_forall in HpropS. apply HpropS. exact Ha. }
      rewrite (proper_edge_x a Hpa).
      replace (Fin (qv (ex a)) <? Fin c) with false; [apply andb_false_r |].
      symmetry. apply ltb_Fin_false.
      destruct Ha as [Ha | Ha]; [subst a; unfold c; apply Qle_refl |].
      rewrite Forall_forall in HS. apply HS. exact Ha. }
    rewrite Hz, Nat.add_0_r.
    apply count_le. apply Forall_forall. intros a _. unfold andp.
    intros H. apply andb_true_iff in H. apply H. }
  fold cls. fold pR. fold pL. lia.
Qed.

(** ** Counting the rectangles around a vertical line *)

Ltac bool_to_Q :=
  repeat match goal with
  | H : (_ && _) = true |- _ => apply andb_true_iff in H; destruct H
  | |- (_ && _) = true => apply andb_true_iff; split
  end; num_to_Q.

Section AroundLine.
Variable rects : list qrect.
Variable L : list edge.
Variables x t : Q.
Hypothesis Hwf : Forall wf_rect rects.
Hypothesis Hperm : Permutation L (all_edges rects).
Hypothesis Hsort : StronglySorted edge_lex L.

Lemma L_proper : Forall proper_edge L.
Proof.
  eapply Permutation_Forall; [apply Permutation_sym; exact Hperm |].
  apply all_edges_proper. exact Hwf.
Qed.

Lemma count_left_L (q : edge -> bool) :
  count (andp (left_if (has_t t)) q) L =
  count (fun r => r_has t r && q (left_edge r)) rects.
Proof.
  rewrite (count_perm _ _ _ _ Hperm), count_all_edges.
  rewrite (count_false _ (fun r => andp (left_if (has_t t)) q (right_edge r)))
    by (intros r _; reflexivity).
  rewrite Nat.add_0_r. reflexivity.
Qed.

Lemma count_right_L (q : edge -> bool) :
  count (andp (right_if (has_t t)) q) L =
  count (fun r => r_has t r && q (right_edge r)) rects.
Proof.
  rewrite (count_perm _ _ _ _ Hperm), count_all_edges.
  rewrite (count_false _ (fun r => andp (right_if (has_t t)) q (left_edge r)))
    by (intros r _; reflexivity).
  reflexivity.
Qed.

Lemma below1_split :
  count (r_below1 x t) rects =
  (count (r_below2 x t) rects + count (r_mid x t) rects)%nat.
Proof.
  apply count_sum. rewrite Forall_forall in *. intros r Hr.
  destruct (Hwf r Hr) as [Hx _].
  unfold r_below1, r_below2, r_mid. destruct (r_has t r); simpl; [| auto].
  destruct (Fin (rx1 r) <? Fin x) eqn:E1, (Fin (rx2 r) <? Fin x) eqn:E2,
    (Fin x <=? Fin (rx2 r)) eqn:E3; simpl; split; try reflexivity;
    exfalso; num_to_Q; lra.
Qed.

Lemma mid_split :
  count (r_mid x t) rects =
  (count (r_in x t) rects + count (r_at2 x t) rects)%nat.
Proof.
  apply count_sum. rewrite Forall_forall in *. intros r Hr.
  destruct (Hwf r Hr) as [Hx _].
  unfold r_mid, r_in, r_at2. destruct (r_has t r); simpl; [| auto].
  destruct (Fin (rx1 r) <? Fin x) eqn:E1, (Fin x <? Fin (rx2 r)) eqn:E2,
    (Fin x <=? Fin (rx2 r)) eqn:E3, (Fin (rx2 r) === Fin x) eqn:E4;
    simpl; split; try reflexivity; exfalso; num_to_Q; try lra;
    apply E4; apply Qle_antisym; lra.
Qed.

Lemma r_has_iff (r : qrect) :
  r_has t r = true <-> (ry1 r < t)%Q /\ (t < ry2 r)%Q.
Proof. unfold r_has. rewrite andb_true_iff, !ltb_Fin. reflexivity. Qed.

Lemma covers_left_count :
  covers_left rects x t <-> (0 < count (r_mid x t) rects)%nat.
Proof.
  rewrite count_pos. unfold covers_left. rewrite !Exists_exists.
  split; intros [r [Hr H]]; exists r; (split; [exact Hr |]).
  - unfold r_mid. destruct H as [H1 [H2 [H3 H4]]].
    bool_to_Q; [apply r_has_iff; split | |]; assumption.
  - unfold r_mid in H. bool_to_Q.
    match goal with Hh : r_has t r = true |- _ => apply r_has_iff in Hh; destruct Hh end.
    repeat split; assumption.
Qed.

Lemma covers_right_count :
  covers_right rects x t <->
  (0 < count (r_in x t) rects + count (r_at1 x t) rects)%nat.
Proof.
  unfold covers_right. split.
  - intros H. apply Exists_exists in H. destruct H as [r [Hr [H1 [H2 [H3 H4]]]]].
    apply Qle_lteq in H1. destruct H1 as [H1 | H1].
    + assert (Hc : (0 < count (r_in x t) rects)%nat).
      { apply count_pos. apply Exists_exists. exists r. split; [exact Hr |].
        unfold r_in. bool_to_Q; [apply r_has_iff; split | |]; assumption. }
      lia.
    + assert (Hc : (0 < count (r_at1 x t) rects)%nat).
      { apply count_pos. apply Exists_exists. exists r. split; [exact Hr |].
        unfold r_at1. bool_to_Q; [apply r_has_iff; split |]; assumption. }
      lia.
  - intros Hpos.
    assert (Hc : (0 < count (r_in x t) rects)%nat \/ (0 < count (r_at1 x t) rects)%nat)
      by lia.
    clear Hpos.
    destruct Hc as [Hc | Hc]; apply count_pos in Hc;
      apply Exists_exists in Hc; destruct Hc as [r [Hr H]];
      apply Exists_exists; exists r; (split; [exact Hr |]).
    + unfold r_in in H. bool_to_Q.
      match goal with Hh : r_has t r = true |- _ => apply r_has_iff in Hh; destruct Hh end.
      repeat split; try assumption. lra.
    + unfold r_at1 in H. bool_to_Q.
      match goal with Hh : r_has t r = true |- _ => apply r_has_iff in Hh; destruct Hh end.
      rewrite Forall_forall in Hwf. destruct (Hwf r Hr) as [Hx _].
      repeat split; try assumption; lra.
Qed.

(** Without abutting rectangles, a line does not carry both a left and a
    right side at the ordinate [t]. *)
Lemma no_abutting_at :
  no_abutting rects ->
  count (r_at1 x t) rects = 0%nat \/ count (r_at2 x t) rects = 0%nat.
Proof.
  intros Hna.
  destruct (count (r_at1 x t) rects) as [| n] eqn:E1; [left; reflexivity |].
  destruct (count (r_at2 x t) rects) as [| m] eqn:E2; [right; reflexivity |].
  exfalso.
  assert (H1 : (0 < count (r_at1 x t) rects)%nat) by lia.
  assert (H2 : (0 < count (r_at2 x t) rects)%nat) by lia.
  apply count_pos in H1. apply count_pos in H2.
  apply Exists_exists in H1. apply Exists_exists in H2.
  destruct H1 as [r1 [Hr1 G1]]. destruct H2 as [r2 [Hr2 G2]].
  unfold r_at1 in G1. unfold r_at2 in G2. bool_to_Q.
  repeat match goal with Hh : r_has t _ = true |- _ => apply r_has_iff in Hh; destruct Hh end.
  assert (Heq : (rx2 r2 == rx1 r1)%Q) by lra.
  destruct (Hna r2 r1 Hr2 Hr1 Heq); lra.
Qed.

(** The edges met before an edge at [x]: all those left of the line, and
    some of those on the line. *)
Lemma prefix_count (p : edge -> bool) (S1 S2 : list edge) (e : edge) :
  L = S1 ++ e :: S2 -> (qv (ex e) == x)%Q ->
  count p S1 =
  (count (andp p (x_below x)) L + count (andp p (x_at x)) S1)%nat.
Proof.
  intros HL Hx.
  pose proof L_proper as Hprop. rewrite HL in Hprop.
  pose proof Hsort as Hs. rewrite HL in Hs.
  destruct (sorted_split_x S1 S2 e Hs) as [H1 H2].
  apply Forall_app in Hprop. destruct Hprop as [Hp1 Hp2].
  rewrite HL at 1. rewrite count_app.
  rewrite (count_false _ (andp p (x_below x)) (e :: S2)).
  2:{ intros a Ha. unfold andp, x_below.
      assert (Hpa : proper_edge a) by (rewrite Forall_forall in Hp2; apply Hp2; exact Ha).
      rewrite (proper_edge_x a Hpa).
      replace (Fin (qv (ex a)) <? Fin x) with false; [apply andb_false_r |].
      symmetry. apply ltb_Fin_false.
      destruct Ha as [Ha | Ha]; [subst a; lra |].
      rewrite Forall_forall in H2. specialize (H2 a Ha). lra. }
  rewrite Nat.add_0_r.
  apply count_sum. rewrite Forall_forall in *. intros a Ha.
  unfold andp, x_below, x_at. rewrite (proper_edge_x a (Hp1 a Ha)).
  specialize (H1 a Ha).
  destruct (p a); simpl; [| auto].
  destruct (Fin (qv (ex a)) <? Fin x) eqn:E1, (Fin (qv (ex a)) === Fin x) eqn:E2;
    simpl; split; try reflexivity; exfalso; num_to_Q; try lra;
    apply E2; apply Qle_antisym; lra.
Qed.

End AroundLine.

Lemma count_middle (A : Type) (p : A -> bool) (l1 l2 : list A) (a : A) :
  count p (l1 ++ a :: l2) =
  (count p l1 + (if p a then 1 else 0) + count p l2)%nat.
Proof. rewrite count_app, count_cons. lia. Qed.

Lemma x_at_iff (x : Q) (e : edge) :
  proper_edge e -> x_at x e = true <-> (qv (ex e) == x)%Q.
Proof.
  intros He. unfold x_at. rewrite (proper_edge_x e He) at 1. apply eqb_Fin.
Qed.

(** The counts that decide whether the edge [e] of [L = S1 ++ e :: S2], at
    the abscissa [x], gives a fragment through the ordinate [t]. *)
Lemma split_counts (rects : list qrect) (L S1 S2 : list edge) (e : edge) (x t : Q) :
  Forall wf_rect rects -> Permutation L (all_edges rects) ->
  StronglySorted edge_lex L ->
  L = S1 ++ e :: S2 -> (qv (ex e) == x)%Q ->
  let ql := andp (left_if (has_t t)) (x_at x) in
  let qr := andp (right_if (has_t t)) (x_at x) in
  count (left_if (has_t t)) S1 = (count (r_below1 x t) rects + count ql S1)%nat /\
  count (right_if (has_t t)) S1 = (count (r_below2 x t) rects + count qr S1)%nat /\
  count (r_at1 x t) rects = (count ql S1 + (if ql e then 1 else 0) + count ql S2)%nat /\
  count (r_at2 x t) rects = (count qr S1 + (if qr e then 1 else 0) + count qr S2)%nat.
Proof.
  intros Hwf Hperm Hsort HL Hx ql qr.
  pose proof (prefix_count rects L x Hwf Hperm Hsort (left_if (has_t t)) S1 S2 e HL Hx) as PL.
  pose proof (prefix_count rects L x Hwf Hperm Hsort (right_if (has_t t)) S1 S2 e HL Hx) as PR.
  pose proof (count_left_L rects L t Hperm (x_below x)) as CL.
  pose proof (count_right_L rects L t Hperm (x_below x)) as CR.
  pose proof (count_left_L rects L t Hperm (x_at x)) as AL.
  pose proof (count_right_L rects L t Hperm (x_at x)) as AR.
  change (count (fun r => r_has t r && x_below x (left_edge r)) rects)
    with (count (r_below1 x t) rects) in CL.
  change (count (fun r => r_has t r && x_below x (right_edge r)) rects)
    with (count (r_below2 x t) rects) in CR.
  change (count (fun r => r_has t r && x_at x (left_edge r)) rects)
    with (count (r_at1 x t) rects) in AL.
  change (count (fun r => r_has t r && x_at x (right_edge r)) rects)
    with (count (r_at2 x t) rects) in AR.
  rewrite HL in AL at 1. rewrite HL in AR at 1.
  rewrite count_middle in AL, AR.
  fold ql in PL, AL. fold qr in PR, AR.
  repeat split; lia.
Qed.

Lemma emits_iff_boundary (rects : list qrect) (L : list edge) (x t : Q) :
  Forall wf_rect rects -> Permutation L (all_edges rects) ->
  StronglySorted edge_lex L -> no_abutting rects ->
  (exists S1 e S2, L = S1 ++ e :: S2 /\ emits S1 e x t) <->
  on_boundary rects x t.
Proof.
  intros Hwf Hperm Hsort Hna.
  pose proof (L_proper rects L Hwf Hperm) as Hprop.
  pose proof (below1_split rects x t Hwf) as B1.
  pose proof (mid_split rects x t Hwf) as M1.
  pose proof (covers_left_count rects x t) as CovL.
  pose proof (covers_right_count rects x t Hwf) as CovR.
  unfold on_boundary. rewrite CovL, CovR.
  split.
  - intros [S1 [e [S2 [HL [Hx [Hh Hc]]]]]].
    destruct (split_counts rects L S1 S2 e x t Hwf Hperm Hsort HL Hx)
      as [PL [PR [AL AR]]].
    assert (Hpe : proper_edge e).
    { rewrite HL in Hprop. apply Forall_app in Hprop. destruct Hprop as [_ Hp].
      inversion Hp; assumption. }
    assert (Hat : x_at x e = true) by (apply x_at_iff; assumption).
    assert (Hql : andp (left_if (has_t t)) (x_at x) e = isLeft e)
      by (unfold andp, left_if; rewrite Hh, Hat; destruct (isLeft e); reflexivity).
    assert (Hqr : andp (right_if (has_t t)) (x_at x) e = negb (isLeft e))
      by (unfold andp, right_if; rewrite Hh, Hat; destruct (isLeft e); reflexivity).
    rewrite Hql in AL. rewrite Hqr in AR.
    destruct (no_abutting_at rects x t Hna) as [Hz | Hz];
      destruct (isLeft e); simpl in AL, AR; lia.
  - intros [[HcL HcR] | [HcL HcR]].
    + assert (Hpos : Exists (fun a => andp (right_if (has_t t)) (x_at x) a = true) L).
      { apply count_pos. rewrite (count_right_L rects L t Hperm (x_at x)).
        change (0 < count (r_at2 x t) rects)%nat. lia. }
      destruct (last_occurrence _ _ L Hpos) as [S1 [e [S2 [HL [He Hlast]]]]].
      assert (Hpe : proper_edge e).
      { rewrite HL in Hprop. apply Forall_app in Hprop. destruct Hprop as [_ Hp].
        inversion Hp; assumption. }
      unfold andp, right_if in He.
      apply andb_true_iff in He. destruct He as [He Hat].
      apply andb_true_iff in He. destruct He as [Hr Hh].
      apply negb_true_iff in Hr.
      assert (Hx : (qv (ex e) == x)%Q) by (apply x_at_iff; assumption).
      destruct (split_counts rects L S1 S2 e x t Hwf Hperm Hsort HL Hx)
        as [PL [PR [AL AR]]].
      exists S1, e, S2. split; [exact HL |].
      unfold emits. rewrite Hr. repeat split; try assumption.
      assert (Hql : andp (left_if (has_t t)) (x_at x) e = false)
        by (unfold andp, left_if; rewrite Hr; reflexivity).
      assert (Hqr : andp (right_if (has_t t)) (x_at x) e = true)
        by (unfold andp, right_if; rewrite Hh, Hat, Hr; reflexivity).
      rewrite Hql in AL. rewrite Hqr in AR. lia.
    + assert (Hpos : Exists (fun a => andp (left_if (has_t t)) (x_at x) a = true) L).
      { apply count_pos. rewrite (count_left_L rects L t Hperm (x_at x)).
        change (0 < count (r_at1 x t) rects)%nat. lia. }
      destruct (first_occurrence _ _ L Hpos) as [S1 [e [S2 [HL [He Hfirst]]]]].
      assert (Hpe : proper_edge e).
      { rewrite HL in Hprop. apply Forall_app in Hprop. destruct Hprop as [_ Hp].
        inversion Hp; assumption. }
      unfold andp, left_if in He.
      apply andb_true_iff in He. destruct He as [He Hat].
      apply andb_true_iff in He. destruct He as [Hl Hh].
      assert (Hx : (qv (ex e) == x)%Q) by (apply x_at_iff; assumption).
      destruct (split_counts rects L S1 S2 e x t Hwf Hperm Hsort HL Hx)
        as [PL [PR [AL AR]]].
      exists S1, e, S2. split; [exact HL |].
      unfold emits. rewrite Hl. repeat split; try assumption.
      assert (Hql : andp (left_if (has_t t)) (x_at x) e = true)
        by (unfold andp, left_if; rewrite Hh, Hat, Hl; reflexivity).
      assert (Hqr : andp (right_if (has_t t)) (x_at x) e = false)
        by (unfold andp, right_if; rewrite Hl; reflexivity).
      rewrite Hql in AL. rewrite Hqr in AR. lia.
Qed.

(* ================================================================== *)
(** * The interval array, [#breakEdge] and the sweep: the main statements *)

(** ** The interval array *)

(** C8, as the code has it.  With a sorted array of finite intervals and a
    finite edge: [#insert] keeps the array sorted and splices the interval
    of the edge in, at the index of the binary search, between the
    intervals that were there, none of which is changed or merged;
    [#remove] keeps the array sorted and takes out exactly one interval whose
    two ends equal those of the edge when there is one (the others,
    duplicates included, stay), and leaves the array alone otherwise; and
    the array is sorted after every round of the sweep. *)
Theorem interval_array_sorted_and_exact_removal
    (ivs : list interval) (e : edge) :
  Forall finite_interval ivs -> sorted_by_start ivs -> finite_edge e ->
  (sorted_by_start (insert ivs e) /\
   exists l1 l2, ivs = l1 ++ l2 /\ insert ivs e = l1 ++ (ey1 e, ey2 e) :: l2)
  /\
  (sorted_by_start (remove ivs e) /\
   ((exists l1 iv l2,
        ivs = l1 ++ iv :: l2 /\ remove ivs e = l1 ++ l2 /\
        matches (ey1 e) (ey2 e) iv = true)
    \/ (remove ivs e = ivs /\
        Forall (fun iv => matches (ey1 e) (ey2 e) iv = false) ivs)))
  /\
  (forall edges out, Forall finite_edge edges ->
     sorted_by_start (fst (fold_left sweep_step edges (ivs, out)))).
Proof.
  intros HF HS He. pose proof He as [_ [Hy _]].
  split; [| split].
  - split; [apply insert_sorted; assumption | apply insert_shape].
  - split; [apply remove_sorted | apply remove_spec]; assumption.
  - intros edges out Hedges.
    apply (fold_sweep_intervals edges (ivs, out)); assumption.
Qed.

Lemma sample_intervals_finite : Forall finite_interval sample_intervals.
Proof. repeat constructor. Qed.

Lemma sample_intervals_sorted : sorted_by_start sample_intervals.
Proof. repeat constructor. Qed.

Lemma sample_right_edge_finite : finite_edge sample_right_edge.
Proof. repeat constructor. Qed.

(** The removal of one of two equal intervals. *)
Lemma interval_array_witness :
  Forall finite_interval sample_intervals /\
  sorted_by_start sample_intervals /\
  finite_edge sample_right_edge /\
  remove sample_intervals sample_right_edge = [(num 0, num 1); (num 1, num 2)] /\
  sorted_by_start (remove sample_intervals sample_right_edge).
Proof.
  split; [exact sample_intervals_finite |].
  split; [exact sample_intervals_sorted |].
  split; [exact sample_right_edge_finite |].
  split; [reflexivity |].
  exact (proj1 (proj1 (proj2
    (interval_array_sorted_and_exact_removal sample_intervals sample_right_edge
       sample_intervals_finite sample_intervals_sorted sample_right_edge_finite)))).
Defined.

(** C8 as stated fails: ties are not kept in insertion order.  Inserting
    [(0, 2)] into the array [[(0, 1)]] puts it before the older interval of
    the same start. *)
Lemma interval_ties_counterexample :
  sorted_by_start [(num 0, num 1)] /\
  insert [(num 0, num 1)] (Edge (num 0) (num 0) (num 2) true)
    = [(num 0, num 2); (num 0, num 1)] /\
  ~ inserted_after_ties [(num 0, num 1)] (Edge (num 0) (num 0) (num 2) true).
Proof.
  split; [repeat constructor |]. split; [reflexivity |].
  intros [l1 [l2 [H1 [H2 H3]]]].
  change (insert [(num 0, num 1)] (Edge (num 0) (num 0) (num 2) true))
    with [(num 0, num 2); (num 0, num 1)] in H2.
  destruct l1 as [| a l1].
  - simpl in H1. subst l2. inversion H3 as [| ? ? Hf _]; subst.
    vm_compute in Hf. discriminate.
  - destruct l1 as [| b l1]; simpl in H1; inversion H1; subst.
    simpl in H2. inversion H2.
Qed.

(** ** [#breakEdge] *)

(** C3.  For a finite edge with [y1 < y2] and a sorted array of finite
    intervals with [start < end], the fragments returned by [#breakEdge] are
    segments of positive length of the edge, in ascending order with a gap
    between two of them; no interval reaches inside a fragment; and every
    point of the edge that is on no fragment lies in an interval that starts
    below [y2].  So the fragments are the maximal segments of the edge that
    the intervals starting below [y2] leave uncovered. *)
Theorem breakEdge_maximal_uncovered (ivs : list interval) (e : edge) :
  Forall finite_interval ivs -> Forall proper_interval ivs ->
  sorted_by_start ivs -> finite_edge e -> (qv (ey1 e) < qv (ey2 e))%Q ->
  Forall (frag_ok (ex e) (qv (ey1 e)) (qv (ey2 e))) (breakEdge ivs e) /\
  StronglySorted frag_before (breakEdge ivs e) /\
  Forall (fun f => Forall (fun iv => clear_of iv f) ivs) (breakEdge ivs e) /\
  covered_or_kept (qv (ey1 e)) (qv (ey2 e)) ivs (breakEdge ivs e).
Proof. apply breakEdge_props. Qed.

Lemma sample_gaps_ok :
  Forall finite_interval sample_gaps /\ Forall proper_interval sample_gaps /\
  sorted_by_start sample_gaps /\ finite_edge sample_edge /\
  (qv (ey1 sample_edge) < qv (ey2 sample_edge))%Q.
Proof.
  split; [repeat constructor |]. split; [repeat constructor |].
  split; [repeat constructor |]. split; [repeat constructor | reflexivity].
Qed.

(** An edge cut into three fragments, and an edge that is covered. *)
Lemma breakEdge_witness :
  (Forall finite_interval sample_gaps /\ Forall proper_interval sample_gaps /\
   sorted_by_start sample_gaps /\ finite_edge sample_edge /\
   (qv (ey1 sample_edge) < qv (ey2 sample_edge))%Q) /\
  breakEdge sample_gaps sample_edge
    = [(num 4, num 0, num 2); (num 4, num 3, num 5); (num 4, num 7, num 10)] /\
  breakEdge sample_cover sample_short_edge = [] /\
  covered_or_kept 0 10 sample_gaps (breakEdge sample_gaps sample_edge).
Proof.
  split; [exact sample_gaps_ok |].
  split; [reflexivity |]. split; [reflexivity |].
  destruct sample_gaps_ok as [H1 [H2 [H3 [H4 H5]]]].
  exact (proj2 (proj2 (proj2
    (breakEdge_maximal_uncovered sample_gaps sample_edge H1 H2 H3 H4 H5)))).
Defined.

(** ** The sweep *)

Lemma generic_off_edges (rects : list qrect) (t : Q) (L : list edge) :
  generic rects t -> Permutation L (all_edges rects) -> Forall (off_edge t) L.
Proof.
  intros Hg Hperm.
  eapply Permutation_Forall; [apply Permutation_sym; exact Hperm |].
  apply Forall_forall. intros e He. apply in_all_edges in He.
  destruct He as [r [Hr He]]. unfold generic in Hg.
  rewrite Forall_forall in Hg. specialize (Hg r Hr).
  destruct He as [He | He]; subst e; exact Hg.
Qed.

Lemma sweep_inv_start : sweep_inv [] [].
Proof.
  constructor.
  - constructor.
  - constructor.
  - constructor.
  - intros phi _. reflexivity.
Qed.

Lemma all_edges_finite (rects : list qrect) : Forall finite_edge (all_edges rects).
Proof.
  apply Forall_forall. intros e He. apply in_all_edges in He.
  destruct He as [r [_ [He | He]]]; subst e; repeat split.
Qed.

(** The sweep on rectangles with [x1 < x2] and [y1 < y2]: the edges are met
    in ascending [(x, y1, y2)] order; a left edge is broken against the
    intervals and then inserted, a right edge is removed and then broken;
    and when no right side lies on the line of a left side with ordinates
    in common, a point [(x, t)], with [t] not the ordinate of a horizontal
    side, is on a fragment exactly when it is on the boundary of the union
    of the rectangles. *)
Lemma sweep_boundary (rects : list qrect) :
  Forall wf_rect rects -> no_abutting rects ->
  StronglySorted edge_lex (sortBy edge_cmp (all_edges rects)) /\
  Permutation (sortBy edge_cmp (all_edges rects)) (all_edges rects) /\
  (forall intervals out e,
     sweep_step (intervals, out) e =
     if isLeft e then (insert intervals e, out ++ breakEdge intervals e)
     else (remove intervals e, out ++ breakEdge (remove intervals e) e)) /\
  (forall x t, generic rects t ->
     emitted (snd (sweep [] (sortBy edge_cmp (all_edges rects)))) x t <->
     on_boundary rects x t).
Proof.
  intros Hwf Hna.
  pose proof (sort_edges_sorted (all_edges rects) (all_edges_finite rects)) as Hsort.
  pose proof (sortBy_perm edge edge_cmp (all_edges rects)) as Hperm.
  split; [exact Hsort |]. split; [exact Hperm |]. split.
  - intros intervals out e. simpl. destruct (isLeft e); reflexivity.
  - intros x t Hg. set (L := sortBy edge_cmp (all_edges rects)) in *.
    pose proof (balanced_sorted rects L Hwf Hperm Hsort) as Hbal.
    unfold sweep.
    rewrite (sweep_emitted x t L [] [] [] sweep_inv_start
               (L_proper rects L Hwf Hperm) (Forall_nil _)
               (generic_off_edges rects t L Hg Hperm)).
    2:{ intros S1 e S2 HL Hl. simpl. apply (Hbal S1 e S2 HL Hl). }
    simpl.
    rewrite <- (emits_iff_boundary rects L x t Hwf Hperm Hsort Hna).
    split; [intros [H | H]; [inversion H | exact H] | intros H; right; exact H].
Qed.

Lemma overlapping_rects_ok :
  Forall wf_rect overlapping_rects /\ no_abutting overlapping_rects.
Proof.
  split.
  - repeat constructor.
  - intros r r' [Hr | [Hr | []]] [Hr' | [Hr' | []]] H; subst r r';
      vm_compute in H; discriminate.
Qed.

Lemma overlapping_generic : generic overlapping_rects (1 # 2).
Proof. repeat constructor; intros H; vm_compute in H; discriminate. Qed.

(* ================================================================== *)
(** * The constructor *)

(** ** Objects keyed by numbers *)

Lemma key_eqb_iff (a b : number) : key_eqb a b = true <-> key_of a = key_of b.
Proof.
  destruct a as [p | | |], b as [r | | |]; unfold key_eqb, eqb; simpl;
    split; intros H; try discriminate; try reflexivity.
  - apply Qeq_bool_iff in H. f_equal. apply Qred_complete. exact H.
  - inversion H as [H']. apply Qeq_bool_iff.
    rewrite <- (Qred_correct p), <- (Qred_correct r), H'. reflexivity.
Qed.

Lemma key_eqb_refl (a : number) : key_eqb a a = true.
Proof. apply key_eqb_iff. reflexivity. Qed.

Lemma key_eqb_false_iff (a b : number) :
  key_eqb a b = false <-> key_of a <> key_of b.
Proof. rewrite <- not_true_iff_false, key_eqb_iff. tauto. Qed.

Section DictFacts.
Variable V : Type.
Implicit Types (d : dict V) (k : number) (v : V).

Lemma lookup_None d k :
  lookup k d = None <-> ~ In (key_of k) (map (@entry_key V) d).
Proof.
  induction d as [| [k' v'] d IH]; simpl.
  - tauto.
  - destruct (key_eqb k k') eqn:E.
    + apply key_eqb_iff in E. split; [discriminate |].
      intros H. exfalso. apply H. left. unfold entry_key. simpl. congruence.
    + apply key_eqb_false_iff in E. rewrite IH. unfold entry_key at 2. simpl.
      split; [intros H [G | G]; [congruence | tauto] | tauto].
Qed.

Lemma lookup_Some_in d k v :
  lookup k d = Some v -> exists k', In (k', v) d /\ key_eqb k k' = true.
Proof.
  induction d as [| [k' v'] d IH]; simpl; [discriminate |].
  destruct (key_eqb k k') eqn:E.
  - intros H. inversion H; subst. exists k'. split; [left; reflexivity | exact E].
  - intros H. destruct (IH H) as [k'' [Hin Hk]].
    exists k''. split; [right; exact Hin | exact Hk].
Qed.

Lemma lookup_in d k :
  In (key_of k) (map (@entry_key V) d) -> exists v, lookup k d = Some v.
Proof.
  intros H. destruct (lookup k d) as [v |] eqn:E; [exists v; reflexivity |].
  apply lookup_None in E. contradiction.
Qed.

Lemma lookup_assign_same d k v : lookup k (assign k v d) = Some v.
Proof.
  induction d as [| [k' v'] d IH]; simpl.
  - rewrite key_eqb_refl. reflexivity.
  - destruct (key_eqb k k') eqn:E; simpl; rewrite E; [reflexivity | exact IH].
Qed.

Lemma assign_keys d k v :
  map (@entry_key V) (assign k v d) =
  match lookup k d with
  | Some _ => map (@entry_key V) d
  | None => map (@entry_key V) d ++ [key_of k]
  end.
Proof.
  induction d as [| [k' v'] d IH]; simpl; [reflexivity |].
  destruct (key_eqb k k') eqn:E; simpl; [reflexivity |].
  rewrite IH. destruct (lookup k d); reflexivity.
Qed.

Lemma assign_distinct d k v : keys_distinct d -> keys_distinct (assign k v d).
Proof.
  unfold keys_distinct. intros H. rewrite assign_keys.
  destruct (lookup k d) eqn:E; [exact H |].
  apply lookup_None in E.
  apply (Permutation_NoDup (l := key_of k :: map (@entry_key V) d)).
  - apply Permutation_cons_append.
  - constructor; assumption.
Qed.

Lemma assign_Forall (P : number * V -> Prop) d k v :
  Forall P d ->
  (forall k' v', In (k', v') d -> key_eqb k k' = true -> P (k', v)) ->
  (lookup k d = None -> P (k, v)) ->
  Forall P (assign k v d).
Proof.
  induction d as [| [k' v'] d IH]; intros HF Hrep Hnew; simpl.
  - constructor; [apply Hnew; reflexivity | constructor].
  - inversion HF as [| ? ? Hkv HF']; subst.
    destruct (key_eqb k k') eqn:E.
    + constructor; [| exact HF'].
      apply (Hrep k' v'); [left; reflexivity | exact E].
    + constructor; [exact Hkv |]. apply IH; [exact HF' | |].
      * intros k'' v'' Hin Hk. apply (Hrep k'' v''); [right; exact Hin | exact Hk].
      * intros Hn. apply Hnew. simpl. rewrite E. exact Hn.
Qed.

Lemma delete_Forall (P : number * V -> Prop) d k :
  Forall P d -> Forall P (delete k d).
Proof.
  intros H. unfold delete. apply Forall_forall. intros kv Hin.
  apply filter_In in Hin. rewrite Forall_forall in H. apply H. apply Hin.
Qed.

Lemma delete_distinct d k : keys_distinct d -> keys_distinct (delete k d).
Proof.
  unfold keys_distinct, delete. induction d as [| kv d IH]; simpl; intros H.
  - constructor.
  - inversion H as [| ? ? Hn Hd]; subst.
    destruct (negb (key_eqb k (fst kv))); simpl; [| apply IH; exact Hd].
    constructor; [| apply IH; exact Hd].
    intros Hin. apply Hn. apply in_map_iff in Hin.
    destruct Hin as [kv' [Hk Hin]]. apply filter_In in Hin.
    apply in_map_iff. exists kv'. split; [exact Hk | apply Hin].
Qed.

Lemma lookup_delete_other d k k' :
  key_eqb k' k = false -> lookup k (delete k' d) = lookup k d.
Proof.
  intros Hne. induction d as [| [k'' v''] d IH]; simpl; [reflexivity |].
  destruct (key_eqb k' k'') eqn:E1; simpl.
  - destruct (key_eqb k k'') eqn:E2; [| exact IH].
    exfalso. apply key_eqb_iff in E1. apply key_eqb_iff in E2.
    apply key_eqb_false_iff in Hne. congruence.
  - destruct (key_eqb k k''); [reflexivity | exact IH].
Qed.

Lemma entries_perm d : Permutation (entries d) d.
Proof.
  unfold entries.
  eapply Permutation_trans.
  - apply Permutation_app_tail. apply sortBy_perm.
  - induction d as [| kv d IH]; simpl; [constructor |].
    destruct (is_index (fst kv)); simpl.
    + constructor. exact IH.
    + eapply Permutation_trans; [apply Permutation_sym, Permutation_middle |].
      constructor. exact IH.
Qed.

Lemma keys_in d k : In k (keys d) -> In (key_of k) (map (@entry_key V) d).
Proof.
  unfold keys. intros H. apply in_map_iff in H. destruct H as [kv [Hk Hin]].
  apply (Permutation_in _ (entries_perm d)) in Hin.
  apply in_map_iff. exists kv. split; [| exact Hin].
  unfold entry_key. rewrite Hk. reflexivity.
Qed.

Lemma keys_NoDup d : keys_distinct d -> NoDup (map key_of (keys d)).
Proof.
  unfold keys_distinct, keys. intros H. rewrite map_map.
  apply (Permutation_NoDup (l := map (@entry_key V) d)); [| exact H].
  apply Permutation_sym. apply Permutation_map. apply entries_perm.
Qed.

End DictFacts.

(** ** Merging and cutting the baseline groups *)

Section Groups.
Variable K : number -> Prop.
Variable B : lbox -> Prop.

Lemma lookup_group_ok (d : dict group) (k : number) (g : group) :
  Forall (group_ok K B) d -> lookup k d = Some g ->
  boxes g <> [] /\ Forall B (boxes g).
Proof.
  intros HF Hl. apply lookup_Some_in in Hl. destruct Hl as [k' [Hin _]].
  rewrite Forall_forall in HF. destruct (HF _ Hin) as [_ H]. exact H.
Qed.

Lemma assign_group_ok (d : dict group) (k : number) (g : group) :
  Forall (group_ok K B) d -> K k -> boxes g <> [] -> Forall B (boxes g) ->
  Forall (group_ok K B) (assign k g d).
Proof.
  intros HF Hk Hne HB. apply assign_Forall; [exact HF | |].
  - intros k' v' Hin _. rewrite Forall_forall in HF.
    destruct (HF _ Hin) as [Hk' _]. repeat split; assumption.
  - intros _. repeat split; assumption.
Qed.

(** The merging loop returns, and keeps a property of the groups. *)
Lemma mergeLoop_ok (d : dict group) (rest : list number) :
  forall (prevY2 : number) (newD : dict group),
  Forall (group_ok K B) d -> Forall (group_ok K B) newD ->
  Forall K rest ->
  Forall (fun k => exists g, lookup k d = Some g) rest ->
  NoDup (map key_of (prevY2 :: rest)) ->
  (exists g, lookup prevY2 newD = Some g) ->
  exists d', mergeLoop d prevY2 rest newD = Normal d' /\
             Forall (group_ok K B) d'.
Proof.
  induction rest as [| currentY2 rest IH];
    intros prevY2 newD Hd Hnew HK Hlook Hnd [prevObj Hprev]; simpl.
  - exists newD. split; [reflexivity | exact Hnew].
  - inversion HK as [| ? ? Hk HK']; subst.
    inversion Hlook as [| ? ? [currentObj Hcur] Hlook']; subst.
    rewrite Hprev, Hcur.
    destruct (lookup_group_ok d currentY2 currentObj Hd Hcur) as [Hc1 Hc2].
    destruct (lookup_group_ok newD prevY2 prevObj Hnew Hprev) as [Hp1 Hp2].
    assert (Hnd' : NoDup (map key_of (currentY2 :: rest))).
    { simpl in Hnd. inversion Hnd; assumption. }
    assert (Hne : key_eqb prevY2 currentY2 = false).
    { apply key_eqb_false_iff. simpl in Hnd. inversion Hnd as [| ? ? Hn _]; subst.
      intros Heq. apply Hn. left. symmetry. exact Heq. }
    destruct (string_geb (toString currentY2) (toString prevY2)
              && (minY1 prevObj >=? minY1 currentObj)).
    + apply IH; try assumption.
      * apply delete_Forall. apply assign_group_ok; try assumption.
        -- simpl. intros H. apply app_eq_nil in H. destruct H as [H _].
           apply Hp1. exact H.
        -- simpl. apply Forall_app. split; assumption.
      * eexists. rewrite (lookup_delete_other _ _ _ _ Hne).
        apply lookup_assign_same.
    + apply IH; try assumption.
      * apply assign_group_ok; assumption.
      * eexists. apply lookup_assign_same.
Qed.

Lemma mergeLines_ok (d : dict group) :
  keys_distinct d -> Forall (group_ok K B) d ->
  exists d', mergeLines d = Normal d' /\ Forall (group_ok K B) d'.
Proof.
  intros Hdist Hd. unfold mergeLines.
  pose proof (sortBy_perm number (fun a b => a - b) (keys d)) as Hperm.
  assert (Hin : forall k, In k (sortBy (fun a b => a - b) (keys d)) ->
                 K k /\ exists g, lookup k d = Some g).
  { intros k Hk. apply (Permutation_in _ Hperm) in Hk. split.
    - unfold keys in Hk. apply in_map_iff in Hk. destruct Hk as [kv [Hk Hkv]].
      apply (Permutation_in _ (entries_perm _ d)) in Hkv.
      rewrite Forall_forall in Hd. destruct (Hd _ Hkv) as [HK _].
      rewrite <- Hk. exact HK.
    - apply lookup_in. apply keys_in. exact Hk. }
  assert (Hnd : NoDup (map key_of (sortBy (fun a b => a - b) (keys d)))).
  { apply (Permutation_NoDup (l := map key_of (keys d))).
    - apply Permutation_sym. apply Permutation_map. exact Hperm.
    - apply keys_NoDup. exact Hdist. }
  destruct (sortBy (fun a b => a - b) (keys d)) as [| firstValue rest].
  - exists d. split; [reflexivity | exact Hd].
  - destruct (Hin firstValue (or_introl eq_refl)) as [Hk [g Hg]].
    rewrite Hg.
    destruct (lookup_group_ok d firstValue g Hd Hg) as [Hg1 Hg2].
    apply mergeLoop_ok; try assumption.
    + constructor; [| constructor]. repeat split; assumption.
    + apply Forall_forall. intros k Hkin. apply Hin. right. exact Hkin.
    + apply Forall_forall. intros k Hkin. apply Hin. right. exact Hkin.
    + exists g. simpl. rewrite key_eqb_refl. reflexivity.
Qed.

Lemma partitionLoop_Forall (maxSpaceSize : number) (rest : list lbox) :
  union_closed B ->
  forall (done : list lbox) (lastBox : lbox),
  Forall B done -> B lastBox -> Forall B rest ->
  Forall B (partitionLoop maxSpaceSize done lastBox rest).
Proof.
  intros Hu. induction rest as [| c rest IH]; intros done lastBox Hd Hl Hr; simpl.
  - apply Forall_app. split; [exact Hd | constructor; [exact Hl | constructor]].
  - inversion Hr as [| ? ? Hc Hr']; subst.
    destruct (x2 c - x2 lastBox >? maxSpaceSize).
    + apply IH; try assumption.
      apply Forall_app. split; [exact Hd | constructor; [exact Hl | constructor]].
    + apply IH; try assumption. apply Hu; assumption.
Qed.

Lemma partitionLine_ok (kv : number * group) :
  union_closed B -> group_ok K B kv ->
  exists l, partitionLine kv = Normal (fst kv, l) /\ Forall B l.
Proof.
  intros Hu [Hk [Hne HB]]. destruct kv as [y2 obj]. simpl in *.
  pose proof (sortBy_perm lbox (fun a b => x1 a - x1 b) (boxes obj)) as Hperm.
  assert (HBs : Forall B (sortBy (fun a b => x1 a - x1 b) (boxes obj))).
  { eapply Permutation_Forall; [apply Permutation_sym; exact Hperm | exact HB]. }
  destruct (sortBy (fun a b => x1 a - x1 b) (boxes obj)) as [| first rest].
  - exfalso. apply Hne. apply Permutation_nil. exact Hperm.
  - inversion HBs; subst. eexists. split; [reflexivity |].
    apply partitionLoop_Forall; try assumption. constructor.
Qed.

Lemma mapM_partition_ok (l : list (number * group)) :
  union_closed B -> Forall (group_ok K B) l ->
  exists ps, mapM partitionLine l = Normal ps /\
             Forall (fun p => K (fst p) /\ Forall B (snd p)) ps.
Proof.
  intros Hu. induction 1 as [| kv l Hkv _ IH]; simpl.
  - exists []. split; [reflexivity | constructor].
  - destruct (partitionLine_ok kv Hu Hkv) as [p [Hp HBp]].
    destruct IH as [ps [Hps HF]].
    rewrite Hp. simpl. rewrite Hps. simpl.
    eexists. split; [reflexivity |].
    constructor; [| exact HF]. simpl. split; [apply Hkv | exact HBp].
Qed.

End Groups.

(** ** The first loop of the constructor *)

Lemma round_box_edges (bw : number) (st : bounds) (b : rect) :
  b_edges (round_box bw st b) = b_edges st ++ box_edges bw b.
Proof.
  unfold round_box, box_edges.
  destruct (quantize bw b) as [[[qx1 qx2] qy1] qy2]. reflexivity.
Qed.

Lemma fold_edges (bw : number) (boxes : list rect) :
  forall st, b_edges (fold_left (round_box bw) boxes st)
             = b_edges st ++ quantized_edges bw boxes.
Proof.
  induction boxes as [| b boxes IH]; intros st; simpl.
  - rewrite app_nil_r. reflexivity.
  - rewrite IH, round_box_edges, <- app_assoc. reflexivity.
Qed.

Lemma assign_assign (V : Type) (d : dict V) (k : number) (v0 v : V) :
  assign k v (assign k v0 d) = assign k v d.
Proof.
  induction d as [| [k' v'] d IH]; simpl.
  - rewrite key_eqb_refl. reflexivity.
  - destruct (key_eqb k k') eqn:E; simpl; rewrite E; [reflexivity |].
    rewrite IH. reflexivity.
Qed.

(** The baseline groups after a round: the box joins the group of its
    baseline, which is created when it is not there. *)
Lemma round_box_dict (bw : number) (st : bounds) (b : rect) :
  exists g,
    lineByBaseHeight (round_box bw st b)
    = assign (snd (quantize bw b)) g (lineByBaseHeight st) /\
    exists before,
      boxes g = before ++ [LBox (fst (fst (fst (quantize bw b))))
                                (snd (fst (quantize bw b)))
                                (snd (fst (fst (quantize bw b))))] /\
      match lookup (snd (quantize bw b)) (lineByBaseHeight st) with
      | Some prev => before = boxes prev
      | None => before = []
      end.
Proof.
  unfold round_box.
  destruct (quantize bw b) as [[[qx1 qx2] qy1] qy2]. simpl.
  destruct (lookup qy2 (lineByBaseHeight st)) as [prev |] eqn:E.
  - rewrite E. eexists. split; [reflexivity |].
    exists (boxes prev). split; reflexivity.
  - rewrite lookup_assign_same. rewrite assign_assign.
    eexists. split; [reflexivity |]. exists []. split; reflexivity.
Qed.

Section GroupsOfBoxes.
Variable K : number -> Prop.
Variable B : lbox -> Prop.
Variable bw : number.

Lemma round_box_groups (st : bounds) (b : rect) :
  keys_distinct (lineByBaseHeight st) ->
  Forall (group_ok K B) (lineByBaseHeight st) ->
  box_passes K B bw b ->
  keys_distinct (lineByBaseHeight (round_box bw st b)) /\
  Forall (group_ok K B) (lineByBaseHeight (round_box bw st b)).
Proof.
  intros Hd HF [HK HB].
  destruct (round_box_dict bw st b) as [g [Hg [before [Hb Hprev]]]].
  rewrite Hg. split; [apply assign_distinct; exact Hd |].
  apply assign_group_ok; try assumption.
  - rewrite Hb. intros H. apply app_eq_nil in H. destruct H; discriminate.
  - rewrite Hb. apply Forall_app. split; [| constructor; [exact HB | constructor]].
    destruct (lookup (snd (quantize bw b)) (lineByBaseHeight st)) as [prev |] eqn:E.
    + subst before. apply (lookup_group_ok K B _ _ _ HF E).
    + subst before. constructor.
Qed.

Lemma fold_groups (boxes : list rect) :
  forall st,
  keys_distinct (lineByBaseHeight st) ->
  Forall (group_ok K B) (lineByBaseHeight st) ->
  Forall (box_passes K B bw) boxes ->
  keys_distinct (lineByBaseHeight (fold_left (round_box bw) boxes st)) /\
  Forall (group_ok K B) (lineByBaseHeight (fold_left (round_box bw) boxes st)).
Proof.
  induction boxes as [| b boxes IH]; intros st Hd HF Hb; simpl.
  - split; assumption.
  - inversion Hb; subst.
    destruct (round_box_groups st b Hd HF) as [Hd' HF']; [assumption |].
    apply IH; assumption.
Qed.

End GroupsOfBoxes.

(** ** The result of the constructor *)

Lemma quantized_edges_app (bw : number) (l1 l2 : list rect) :
  quantized_edges bw (l1 ++ l2) = quantized_edges bw l1 ++ quantized_edges bw l2.
Proof. unfold quantized_edges. apply flat_map_app. Qed.

(** The last two edges of the array are those of the last rectangle. *)
Lemma at_back_quantized (bw : number) (pre : list rect) (b : rect) :
  at_back 0 (quantized_edges bw (pre ++ [b]))
    = Some (Edge (snd (fst (fst (quantize bw b)))) (snd (fst (quantize bw b)))
                 (snd (quantize bw b)) false) /\
  at_back 1 (quantized_edges bw (pre ++ [b]))
    = Some (Edge (fst (fst (fst (quantize bw b)))) (snd (fst (quantize bw b)))
                 (snd (quantize bw b)) true).
Proof.
  rewrite quantized_edges_app. unfold at_back. rewrite rev_app_distr.
  unfold quantized_edges at 1 3. simpl. unfold box_edges.
  destruct (quantize bw b) as [[[qx1 qx2] qy1] qy2]. simpl.
  split; reflexivity.
Qed.

Lemma toLineRects_Forall (K : number -> Prop) (B : lbox -> Prop)
    (sx sy W H : number) (ps : list (number * list lbox)) :
  Forall (fun p => K (fst p) /\ Forall B (snd p)) ps ->
  Forall (fun lr => exists y2 b, K y2 /\ B b /\ lr = toLineRect sx sy W H y2 b)
    (toLineRects sx sy W H ps).
Proof.
  induction 1 as [| [y2 l] ps [HK HB] _ IH]; simpl.
  - constructor.
  - apply Forall_app. split; [| exact IH]. simpl in HK, HB.
    apply Forall_forall. intros lr Hin. apply in_map_iff in Hin.
    destruct Hin as [b [Hlr Hb]]. rewrite Forall_forall in HB.
    exists y2, b. repeat split; [exact HK | apply HB; exact Hb | symmetry; exact Hlr].
Qed.

(** For a list with at least one box the constructor returns; the fields
    of the instance. *)
Lemma construct_shape (K : number -> Prop) (B : lbox -> Prop)
    (boxes : list rect) (bw m : number) (isLTR skip : bool) :
  boxes <> [] -> union_closed B -> Forall (box_passes K B bw) boxes ->
  exists o lastEdge,
    at_back (if isLTR then 0 else 1) (quantized_edges bw boxes) = Some lastEdge /\
    construct boxes bw m isLTR skip = Normal o /\
    o_box o =
      BBox (minX (fold_left (round_box bw) boxes bounds0) - m)
           (minY (fold_left (round_box bw) boxes bounds0) - m)
           (maxX (fold_left (round_box bw) boxes bounds0)
            - minX (fold_left (round_box bw) boxes bounds0) + Fin 2 * m)
           (maxY (fold_left (round_box bw) boxes bounds0)
            - minY (fold_left (round_box bw) boxes bounds0) + Fin 2 * m)
           (ex lastEdge, ey2 lastEdge) /\
    o_verticalEdges o =
      map (toBoxEdge (box_x (o_box o)) (box_y (o_box o))
             (box_width (o_box o)) (box_height (o_box o)))
          (quantized_edges bw boxes) /\
    o_intervals o = [] /\
    Forall (fun lr => exists y2 b, K y2 /\ B b /\
              lr = toLineRect (box_x (o_box o)) (box_y (o_box o))
                     (box_width (o_box o)) (box_height (o_box o)) y2 b)
      (o_lineRects o).
Proof.
  intros Hne Hu Hpass.
  destruct (exists_last Hne) as [pre [b Hboxes]].
  destruct (at_back_quantized bw pre b) as [Hb0 Hb1].
  rewrite <- Hboxes in Hb0, Hb1.
  assert (Hlast : exists lastEdge,
            at_back (if isLTR then 0 else 1) (quantized_edges bw boxes)
            = Some lastEdge).
  { destruct isLTR; eexists; eassumption. }
  destruct Hlast as [lastEdge Hlast].
  unfold construct. rewrite fold_edges. simpl b_edges. simpl app.
  rewrite Hlast.
  destruct skip.
  - eexists. exists lastEdge. split; [reflexivity |]. split; [reflexivity |].
    simpl. repeat split. constructor.
  - destruct (fold_groups K B bw boxes bounds0 (NoDup_nil _) (Forall_nil _) Hpass)
      as [Hd HF].
    destruct (mergeLines_ok K B _ Hd HF) as [merged [Hm HFm]].
    assert (HFe : Forall (group_ok K B) (entries merged)).
    { eapply Permutation_Forall; [apply Permutation_sym, entries_perm | exact HFm]. }
    destruct (mapM_partition_ok K B _ Hu HFe) as [ps [Hps HFps]].
    rewrite Hm. simpl. rewrite Hps. simpl.
    eexists. exists lastEdge. split; [reflexivity |]. split; [reflexivity |].
    simpl. repeat split. apply toLineRects_Forall. exact HFps.
Qed.

(** ** Arithmetic on finite numbers *)

Lemma sub_Fin (p r : Q) : Fin p - Fin r = Fin (Qred (p - r)).
Proof. reflexivity. Qed.

Lemma add_Fin (p r : Q) : Fin p + Fin r = Fin (Qred (p + r)).
Proof. reflexivity. Qed.

Lemma mul_Fin (p r : Q) : Fin p * Fin r = Fin (Qred (p * r)).
Proof. reflexivity. Qed.

Lemma div_Fin (p r : Q) : ~ (r == 0)%Q -> Fin p / Fin r = Fin (Qred (p / r)).
Proof.
  intros H. unfold div, sgn.
  destruct (r ?= 0)%Q eqn:E; try reflexivity.
  apply Qeq_alt in E. contradiction.
Qed.

Lemma min_Fin (p r : Q) :
  exists s, Num.min (Fin p) (Fin r) = Fin s /\ (s <= p)%Q /\ (s <= r)%Q /\
            (s = p \/ s = r).
Proof.
  unfold Num.min. destruct (Fin r <? Fin p) eqn:E; num_to_Q.
  - exists r. repeat split; auto; lra.
  - exists p. repeat split; auto; lra.
Qed.

Lemma max_Fin (p r : Q) :
  exists s, Num.max (Fin p) (Fin r) = Fin s /\ (p <= s)%Q /\ (r <= s)%Q /\
            (s = p \/ s = r).
Proof.
  unfold Num.max. destruct (Fin p <? Fin r) eqn:E; num_to_Q.
  - exists r. repeat split; auto; lra.
  - exists p. repeat split; auto; lra.
Qed.

(** Rounding down and up to the grid of [EPSILON]. *)
Lemma floor_grid (v : Q) :
  exists r, floor (Fin v / EPSILON) * EPSILON = Fin r /\
            (r <= v)%Q /\ (v < r + eps)%Q.
Proof.
  unfold EPSILON. change (1 # Z.to_pos (10 ^ NUMBER_OF_DIGITS)) with eps.
  rewrite div_Fin by (intros H; discriminate H).
  unfold floor. rewrite mul_Fin. eexists. split; [reflexivity |].
  pose proof (Qfloor_le (Qred (v / eps))) as H1.
  pose proof (Qlt_floor (Qred (v / eps))) as H2.
  pose proof (Qred_correct (v / eps)) as H3.
  pose proof (Qred_correct (inject_Z (Qfloor (Qred (v / eps))) * eps)) as H4.
  rewrite inject_Z_plus in H2.
  set (z := inject_Z (Qfloor (Qred (v / eps)))) in *.
  set (q := Qred (v / eps)) in *.
  set (r := Qred (z * eps)) in *.
  change (inject_Z 1) with 1%Q in H2.
  assert (H5 : (v == v / eps * eps)%Q) by (field; intros H; discriminate H).
  set (w := (v / eps)%Q) in *. clearbody r q z w.
  unfold eps in *. lra.
Qed.

Lemma ceil_grid (v : Q) :
  exists r, ceil (Fin v / EPSILON) * EPSILON = Fin r /\
            (v <= r)%Q /\ (r < v + eps)%Q.
Proof.
  unfold EPSILON. change (1 # Z.to_pos (10 ^ NUMBER_OF_DIGITS)) with eps.
  rewrite div_Fin by (intros H; discriminate H).
  unfold ceil. rewrite mul_Fin. eexists. split; [reflexivity |].
  pose proof (Qle_ceiling (Qred (v / eps))) as H1.
  pose proof (Qceiling_lt (Qred (v / eps))) as H2.
  pose proof (Qred_correct (v / eps)) as H3.
  pose proof (Qred_correct (inject_Z (Qceiling (Qred (v / eps))) * eps)) as H4.
  unfold Z.sub in H2. rewrite inject_Z_plus in H2.
  change (inject_Z (- (1))) with (-1 # 1)%Q in H2.
  set (z := inject_Z (Qceiling (Qred (v / eps)))) in *.
  set (q := Qred (v / eps)) in *.
  set (r := Qred (z * eps)) in *.
  assert (H5 : (v == v / eps * eps)%Q) by (field; intros H; discriminate H).
  set (w := (v / eps)%Q) in *. clearbody r q z w.
  unfold eps in *. lra.
Qed.

(** The rounded rectangle of a box of positive size: each side is moved
    outwards by the border width and then to the grid, by less than
    [EPSILON]. *)
Lemma quantize_good (bw : number) (b : rect) :
  good_box b -> good_margin bw ->
  exists qx1 qx2 qy1 qy2,
    quantize bw b = (Fin qx1, Fin qx2, Fin qy1, Fin qy2) /\
    (qx1 <= qv (x b) - qv bw)%Q /\ (qv (x b) - qv bw < qx1 + eps)%Q /\
    (qv (x b) + qv (width b) + qv bw <= qx2)%Q /\
    (qx2 < qv (x b) + qv (width b) + qv bw + eps)%Q /\
    (qy1 <= qv (y b) - qv bw)%Q /\ (qv (y b) - qv bw < qy1 + eps)%Q /\
    (qv (y b) + qv (height b) + qv bw <= qy2)%Q /\
    (qy2 < qv (y b) + qv (height b) + qv bw + eps)%Q.
Proof.
  intros [Hx [Hy [Hw [Hh _]]]] [Hb _].
  destruct b as [bx by_ bwid bhei]. simpl in *.
  destruct bx as [X | | |]; try contradiction.
  destruct by_ as [Y | | |]; try contradiction.
  destruct bwid as [W | | |]; try contradiction.
  destruct bhei as [H | | |]; try contradiction.
  destruct bw as [BW | | |]; try contradiction.
  unfold quantize. simpl x. simpl y. simpl width. simpl height.
  rewrite !add_Fin, !sub_Fin.
  destruct (floor_grid (Qred (X - BW))) as [qx1 [E1 [A1 A2]]].
  destruct (ceil_grid (Qred (Qred (X + W) + BW))) as [qx2 [E2 [B1 B2]]].
  destruct (floor_grid (Qred (Y - BW))) as [qy1 [E3 [C1 C2]]].
  destruct (ceil_grid (Qred (Qred (Y + H) + BW))) as [qy2 [E4 [D1 D2]]].
  rewrite E1, E2, E3, E4.
  exists qx1, qx2, qy1, qy2. split; [reflexivity |].
  rewrite !Qred_correct in *. simpl qv.
  repeat split; assumption.
Qed.

Lemma quantize_rounded (bw : number) (b : rect) :
  good_box b -> good_margin bw ->
  exists qx1 qx2 qy1 qy2,
    quantize bw b = (Fin qx1, Fin qx2, Fin qy1, Fin qy2) /\
    (qx1 < qx2)%Q /\ (qy1 < qy2)%Q.
Proof.
  intros Hb Hm.
  destruct (quantize_good bw b Hb Hm)
    as [qx1 [qx2 [qy1 [qy2 [E [A1 [A2 [B1 [B2 [C1 [C2 [D1 D2]]]]]]]]]]]].
  destruct Hb as [_ [_ [_ [_ [Hw Hh]]]]]. destruct Hm as [_ Hm].
  exists qx1, qx2, qy1, qy2. split; [exact E |]. split; lra.
Qed.

(** A coordinate relative to the bounding box. *)
Lemma toBox_coord (v lo hi m : Q) :
  (lo < hi)%Q -> (0 <= m)%Q ->
  exists r,
    (Fin v - (Fin lo - Fin m)) / (Fin hi - Fin lo + Fin 2 * Fin m) = Fin r /\
    (r == (v - lo + m) / (hi - lo + 2 * m))%Q.
Proof.
  intros Hlt Hm. rewrite !sub_Fin, mul_Fin, add_Fin.
  assert (HW : (Qred (Qred (hi - lo) + Qred (2 * m)) == hi - lo + 2 * m)%Q)
    by (rewrite !Qred_correct; reflexivity).
  rewrite div_Fin by (rewrite HW; lra).
  eexists. split; [reflexivity |].
  rewrite !Qred_correct.
  apply Qdiv_comp; [ring | reflexivity].
Qed.


Lemma rel_mono (v1 v2 lo hi m : Q) :
  (lo < hi)%Q -> (0 <= m)%Q -> (v1 < v2)%Q ->
  ((v1 - lo + m) / (hi - lo + 2 * m) < (v2 - lo + m) / (hi - lo + 2 * m))%Q.
Proof.
  intros Hlt Hm H. unfold Qdiv.
  apply Qmult_lt_compat_r; [| lra].
  apply Qinv_lt_0_compat. lra.
Qed.


(** ** The bounding rectangle *)

Lemma round_box_bounds (bw : number) (st : bounds) (b : rect) :
  minX (round_box bw st b) = Num.min (minX st) (fst (fst (fst (quantize bw b)))) /\
  maxX (round_box bw st b) = Num.max (maxX st) (snd (fst (fst (quantize bw b)))) /\
  minY (round_box bw st b) = Num.min (minY st) (snd (fst (quantize bw b))) /\
  maxY (round_box bw st b) = Num.max (maxY st) (snd (quantize bw b)).
Proof.
  unfold round_box. destruct (quantize bw b) as [[[qx1 qx2] qy1] qy2].
  simpl. repeat split.
Qed.

Lemma rounded_in_wider (a b c d a' b' c' d' : Q)
    (r : number * number * number * number) :
  (a' <= a)%Q -> (b <= b')%Q -> (c' <= c)%Q -> (d <= d')%Q ->
  rounded_in a b c d r -> rounded_in a' b' c' d' r.
Proof.
  intros Ha Hb Hc Hd [qx1 [qx2 [qy1 [qy2 [E H]]]]].
  exists qx1, qx2, qy1, qy2. split; [exact E |].
  repeat split; lra.
Qed.

(** The bounds after the loop over boxes of positive size, started with
    finite bounds. *)
Lemma fold_bounds (bw : number) (rest : list rect) :
  good_margin bw -> Forall good_box rest ->
  forall st a b c d,
  minX st = Fin a -> maxX st = Fin b -> minY st = Fin c -> maxY st = Fin d ->
  exists a' b' c' d',
    minX (fold_left (round_box bw) rest st) = Fin a' /\
    maxX (fold_left (round_box bw) rest st) = Fin b' /\
    minY (fold_left (round_box bw) rest st) = Fin c' /\
    maxY (fold_left (round_box bw) rest st) = Fin d' /\
    (a' <= a)%Q /\ (b <= b')%Q /\ (c' <= c)%Q /\ (d <= d')%Q /\
    Forall (fun bx => rounded_in a' b' c' d' (quantize bw bx)) rest.
Proof.
  intros Hm. induction 1 as [| bx rest Hbx _ IH]; intros st a b c d Ea Eb Ec Ed.
  - simpl. exists a, b, c, d. repeat split; try assumption; try lra. constructor.
  - simpl.
    destruct (quantize_rounded bw bx Hbx Hm) as [qx1 [qx2 [qy1 [qy2 [E [Hx Hy]]]]]].
    destruct (round_box_bounds bw st bx) as [R1 [R2 [R3 R4]]].
    rewrite E in R1, R2, R3, R4. cbn [fst snd] in R1, R2, R3, R4.
    rewrite Ea in R1. rewrite Eb in R2. rewrite Ec in R3. rewrite Ed in R4.
    destruct (min_Fin a qx1) as [a1 [Ea1 [A1 [A2 _]]]].
    destruct (max_Fin b qx2) as [b1 [Eb1 [B1 [B2 _]]]].
    destruct (min_Fin c qy1) as [c1 [Ec1 [C1 [C2 _]]]].
    destruct (max_Fin d qy2) as [d1 [Ed1 [D1 [D2 _]]]].
    rewrite Ea1 in R1. rewrite Eb1 in R2. rewrite Ec1 in R3. rewrite Ed1 in R4.
    destruct (IH _ a1 b1 c1 d1 R1 R2 R3 R4)
      as [a' [b' [c' [d' [G1 [G2 [G3 [G4 [L1 [L2 [L3 [L4 HF]]]]]]]]]]]].
    exists a', b', c', d'. repeat split; try assumption; try lra.
    constructor; [| exact HF].
    exists qx1, qx2, qy1, qy2. split; [exact E |]. repeat split; lra.
Qed.

(** The bounds of a list with at least one box of positive size. *)
Lemma construct_bounds (bw : number) (boxes : list rect) :
  good_margin bw -> Forall good_box boxes -> boxes <> [] ->
  exists a b c d,
    minX (fold_left (round_box bw) boxes bounds0) = Fin a /\
    maxX (fold_left (round_box bw) boxes bounds0) = Fin b /\
    minY (fold_left (round_box bw) boxes bounds0) = Fin c /\
    maxY (fold_left (round_box bw) boxes bounds0) = Fin d /\
    (a < b)%Q /\ (c < d)%Q /\
    Forall (fun bx => rounded_in a b c d (quantize bw bx)) boxes.
Proof.
  intros Hm HF Hne. destruct boxes as [| b0 rest]; [contradiction |].
  inversion HF as [| ? ? Hb0 Hrest]; subst. simpl.
  destruct (quantize_rounded bw b0 Hb0 Hm) as [qx1 [qx2 [qy1 [qy2 [E [Hx Hy]]]]]].
  destruct (round_box_bounds bw bounds0 b0) as [R1 [R2 [R3 R4]]].
  rewrite E in R1, R2, R3, R4. cbn [fst snd] in R1, R2, R3, R4.
  change (Num.min PInf (Fin qx1)) with (Fin qx1) in R1.
  change (Num.max NInf (Fin qx2)) with (Fin qx2) in R2.
  change (Num.min PInf (Fin qy1)) with (Fin qy1) in R3.
  change (Num.max NInf (Fin qy2)) with (Fin qy2) in R4.
  destruct (fold_bounds bw rest Hm Hrest _ qx1 qx2 qy1 qy2 R1 R2 R3 R4)
    as [a [b [c [d [G1 [G2 [G3 [G4 [L1 [L2 [L3 [L4 HFr]]]]]]]]]]]].
  exists a, b, c, d. repeat split; try assumption; try lra.
  constructor; [| exact HFr].
  exists qx1, qx2, qy1, qy2. split; [exact E |]. repeat split; lra.
Qed.






(** ** The coordinates that the sweep and the tracing give out *)

Section Coordinates.
Variable P : number -> Prop.

Lemma breakRound_all (x s e : number) (todo : list frag) :
  P x -> P s -> P e ->
  forall done pushed R,
  Forall (frag_all P) done -> Forall (frag_all P) todo ->
  Forall (frag_all P) pushed ->
  breakRound x s e done todo pushed = Some R -> Forall (frag_all P) R.
Proof.
  intros Hx Hs He. induction todo as [| [[x' y3] y4] todo IH];
    intros done pushed R Hd Ht Hp; simpl.
  - intros H. inversion H; subst. apply Forall_app. split; assumption.
  - inversion Ht as [| ? ? [Hx' [H3 H4]] Ht']; subst.
    unfold frag_x, frag_y1, frag_y2 in Hx', H3, H4. simpl in Hx', H3, H4.
    destruct ((e <=? y3) || (y4 <=? s)).
    + apply IH; try assumption. apply Forall_app. split; [exact Hd |].
      constructor; [repeat split; assumption | constructor].
    + destruct (y3 >=? s).
      * destruct (y4 >? e).
        -- apply IH; try assumption. apply Forall_app. split; [exact Hd |].
           constructor; [repeat split; assumption | constructor].
        -- destruct (Nat.eqb _ 1); [discriminate |]. apply IH; assumption.
      * apply IH; try assumption.
        -- apply Forall_app. split; [exact Hd |].
           constructor; [repeat split; assumption | constructor].
        -- destruct (y4 >? e); [| exact Hp]. apply Forall_app. split; [exact Hp |].
           constructor; [repeat split; assumption | constructor].
Qed.

Lemma breakLoop_all (x : number) (ivs : list interval) :
  P x -> Forall (interval_all P) ivs ->
  forall R, Forall (frag_all P) R -> Forall (frag_all P) (breakLoop x ivs R).
Proof.
  intros Hx. induction 1 as [| [s e] ivs [Hs He] _ IH]; intros R HR; simpl.
  - exact HR.
  - destruct (breakRound x s e [] R []) as [R' |] eqn:E; [| constructor].
    apply IH.
    apply (breakRound_all x s e R Hx Hs He [] [] R'); try assumption; constructor.
Qed.

Lemma Forall_firstn_any (A : Type) (Q0 : A -> Prop) (n : nat) (l : list A) :
  Forall Q0 l -> Forall Q0 (firstn n l).
Proof.
  intros H. rewrite <- (firstn_skipn n l) in H. apply Forall_app in H. apply H.
Qed.

Lemma Forall_skipn_any (A : Type) (Q0 : A -> Prop) (n : nat) (l : list A) :
  Forall Q0 l -> Forall Q0 (skipn n l).
Proof.
  intros H. rewrite <- (firstn_skipn n l) in H. apply Forall_app in H. apply H.
Qed.

Lemma breakEdge_all (ivs : list interval) (e : edge) :
  Forall (interval_all P) ivs -> edge_all P e ->
  Forall (frag_all P) (breakEdge ivs e).
Proof.
  intros Hi [Hx [H1 H2]]. unfold breakEdge.
  apply breakLoop_all; [exact Hx | apply Forall_firstn_any; exact Hi |].
  constructor; [repeat split; assumption | constructor].
Qed.

Lemma insert_all (ivs : list interval) (e : edge) :
  Forall (interval_all P) ivs -> edge_all P e ->
  Forall (interval_all P) (insert ivs e).
Proof.
  intros Hi [_ [H1 H2]]. unfold insert, splice_in.
  apply Forall_app. split; [apply Forall_firstn_any; exact Hi |].
  constructor; [split; assumption | apply Forall_skipn_any; exact Hi].
Qed.

Lemma splice_out_all (i : nat) (ivs : list interval) :
  Forall (interval_all P) ivs -> Forall (interval_all P) (splice_out i ivs).
Proof.
  intros Hi. unfold splice_out. apply Forall_app.
  split; [apply Forall_firstn_any | apply Forall_skipn_any]; exact Hi.
Qed.

Lemma remove_all (ivs : list interval) (e : edge) :
  Forall (interval_all P) ivs -> Forall (interval_all P) (remove ivs e).
Proof.
  intros Hi. unfold remove.
  destruct (remove_up _ _ _ _); [apply splice_out_all; exact Hi |].
  destruct (remove_down _ _ _ _); [apply splice_out_all; exact Hi | exact Hi].
Qed.

Lemma sweep_all (edges : list edge) :
  Forall (edge_all P) edges ->
  forall st, Forall (interval_all P) (fst st) -> Forall (frag_all P) (snd st) ->
  Forall (frag_all P) (snd (fold_left sweep_step edges st)).
Proof.
  induction 1 as [| e edges He _ IH]; intros [ivs out] Hi Ho; simpl in *.
  - exact Ho.
  - destruct (isLeft e); apply IH; simpl.
    + apply insert_all; assumption.
    + apply Forall_app. split; [exact Ho | apply breakEdge_all; assumption].
    + apply remove_all; assumption.
    + apply Forall_app. split; [exact Ho |].
      apply breakEdge_all; [apply remove_all |]; assumption.
Qed.

(** The tracing: every edge it visits is an edge of the array. *)
Variable es : list frag.
Hypothesis Hes : Forall (frag_all P) es.

Lemma edge_coords_all (e : nat) :
  (e < List.length es)%nat -> frag_all P (edge_coords es e).
Proof.
  intros H. unfold edge_coords. rewrite Forall_forall in Hes.
  apply Hes. apply nth_In. exact H.
Qed.

Lemma set_has_in (s : list nat) (n : nat) :
  set_has s (Some n) = true -> In n s.
Proof.
  simpl. intros H. apply existsb_exists in H. destruct H as [m [Hm E]].
  apply Nat.eqb_eq in E. subst m. exact Hm.
Qed.

Lemma set_delete_valid (n : nat) (s : list nat) :
  Forall (fun i => (i < List.length es)%nat) s ->
  Forall (fun i => (i < List.length es)%nat) (set_delete n s).
Proof.
  intros H. unfold set_delete. apply Forall_forall. intros i Hi.
  apply filter_In in Hi. rewrite Forall_forall in H. apply H. apply Hi.
Qed.

Lemma walk_all (nbrs : list (list nat)) (fuel : nat) :
  forall allEdges edge1 edge2 lx ly outline,
  Forall (fun i => (i < List.length es)%nat) allEdges ->
  P lx -> P ly -> Forall P outline ->
  Forall P (fst (walk fuel es nbrs allEdges edge1 edge2 lx ly outline)) /\
  Forall (fun i => (i < List.length es)%nat)
    (snd (walk fuel es nbrs allEdges edge1 edge2 lx ly outline)).
Proof.
  induction fuel as [| fuel IH]; intros allEdges edge1 edge2 lx ly outline Hv Hx Hy Ho.
  - simpl. split; [| exact Hv].
    apply Forall_app. split; [exact Ho | repeat constructor; assumption].
  - simpl.
    assert (Hstop : Forall P (outline ++ [lx; ly]))
      by (apply Forall_app; split; [exact Ho | repeat constructor; assumption]).
    assert (Hnext : forall e,
      (if set_has allEdges edge1 then edge1
       else if set_has allEdges edge2 then edge2 else None) = Some e ->
      In e allEdges).
    { intros e. destruct (set_has allEdges edge1) eqn:E1.
      - intros H. subst edge1. apply set_has_in. exact E1.
      - destruct (set_has allEdges edge2) eqn:E2; [| discriminate].
        intros H. subst edge2. apply set_has_in. exact E2. }
    destruct (if set_has allEdges edge1 then edge1
              else if set_has allEdges edge2 then edge2 else None) as [e |].
    2:{ simpl. split; assumption. }
    assert (He : (e < List.length es)%nat).
    { rewrite Forall_forall in Hv. apply Hv. apply Hnext. reflexivity. }
    pose proof (edge_coords_all e He) as Hc.
    destruct (edge_coords es e) as [[x0 y1] y2].
    destruct Hc as [Hc0 [Hc1 Hc2]].
    unfold frag_x, frag_y1, frag_y2 in Hc0, Hc1, Hc2. simpl in Hc0, Hc1, Hc2.
    apply IH.
    + apply set_delete_valid. exact Hv.
    + destruct (negb (lx === x0)); assumption.
    + destruct (ly === y1); assumption.
    + destruct (negb (lx === x0)); [| exact Ho].
      apply Forall_app. split; [exact Ho |].
      repeat constructor; try assumption.
      destruct (ly === y1); assumption.
Qed.

Lemma trace_all (nbrs : list (list nat)) (fuel : nat) :
  forall allEdges outlines,
  Forall (fun i => (i < List.length es)%nat) allEdges ->
  Forall (Forall P) outlines ->
  Forall (Forall P) (trace fuel es nbrs allEdges outlines).
Proof.
  induction fuel as [| fuel IH]; intros allEdges outlines Hv Ho; simpl.
  - exact Ho.
  - destruct allEdges as [| e rest]; [exact Ho |].
    assert (He : (e < List.length es)%nat) by (inversion Hv; assumption).
    pose proof (edge_coords_all e He) as Hc.
    destruct (edge_coords es e) as [[x0 y1] y2].
    destruct Hc as [Hc0 [Hc1 Hc2]].
    unfold frag_x, frag_y1, frag_y2 in Hc0, Hc1, Hc2. simpl in Hc0, Hc1, Hc2.
    pose proof (walk_all nbrs (List.length (set_delete e (e :: rest)))
                  (set_delete e (e :: rest)) (edge_nbr nbrs e 0) (edge_nbr nbrs e 1)
                  x0 y1 [x0; y2] (set_delete_valid e _ Hv) Hc0 Hc1
                  (Forall_cons _ Hc0 (Forall_cons _ Hc2 (Forall_nil _)))) as [Hw1 Hw2].
    destruct (walk _ es nbrs (set_delete e (e :: rest)) _ _ x0 y1 [x0; y2])
      as [outline allEdges''].
    simpl in Hw1, Hw2. apply IH; [exact Hw2 |].
    apply Forall_app. split; [exact Ho | constructor; [exact Hw1 | constructor]].
Qed.

End Coordinates.

Lemma vertices_from_valid (es : list frag) :
  forall i, Forall (fun v : vertex => (vertex_edge v < i + List.length es)%nat)
              (vertices_from i es).
Proof.
  induction es as [| [[x0 y1] y2] es IH]; intros i; simpl.
  - constructor.
  - constructor; [unfold vertex_edge; simpl; lia |].
    constructor; [unfold vertex_edge; simpl; lia |].
    eapply Forall_impl; [| apply (IH (S i))]. simpl. intros v Hv. lia.
Qed.

Lemma set_add_valid (n bound : nat) (s : list nat) :
  (n < bound)%nat -> Forall (fun i => (i < bound)%nat) s ->
  Forall (fun i => (i < bound)%nat) (set_add n s).
Proof.
  intros Hn Hs. unfold set_add. destruct (set_has s (Some n)); [exact Hs |].
  apply Forall_app. split; [exact Hs | constructor; [exact Hn | constructor]].
Qed.

Lemma link_valid (bound : nat) (fuel : nat) :
  forall (vs : list vertex) (st : list (list nat) * list nat),
  (List.length vs <= fuel)%nat ->
  Forall (fun v : vertex => (vertex_edge v < bound)%nat) vs ->
  Forall (fun i => (i < bound)%nat) (snd st) ->
  Forall (fun i => (i < bound)%nat) (snd (link vs st)).
Proof.
  induction fuel as [| fuel IH]; intros vs [nbrs allEdges] Hlen Hvs Hall.
  - destruct vs; [exact Hall | simpl in Hlen; lia].
  - destruct vs as [| v1 [| v2 vs]]; try exact Hall.
    inversion Hvs as [| ? ? H1 Hvs1]; subst.
    inversion Hvs1 as [| ? ? H2 Hvs2]; subst.
    simpl. apply IH; [simpl in Hlen; lia | exact Hvs2 |].
    simpl. apply set_add_valid; [exact H2 |].
    apply set_add_valid; [exact H1 | exact Hall].
Qed.

(** Every coordinate of an outline is a coordinate of an outline edge. *)
Lemma traceOutlines_all (P : number -> Prop) (es : list frag) :
  Forall (frag_all P) es -> Forall (Forall P) (traceOutlines es).
Proof.
  intros Hes. unfold traceOutlines.
  assert (Hv : Forall (fun v : vertex => (vertex_edge v < List.length es)%nat)
                 (sortBy vertex_cmp (vertices_from 0 es))).
  { apply sortBy_Forall. apply (vertices_from_valid es 0). }
  pose proof (link_valid (List.length es) _ _
                (map (fun _ => []) es, []) (Nat.le_refl _) Hv (Forall_nil _)) as Hl.
  destruct (link (sortBy vertex_cmp (vertices_from 0 es)) (map (fun _ => []) es, []))
    as [nbrs allEdges].
  simpl in Hl. apply trace_all; [exact Hes | exact Hl | constructor].
Qed.

(** ** The fuel of the tracing loops *)

Lemma set_delete_length (n : nat) (s : list nat) :
  (List.length (set_delete n s) <= List.length s)%nat.
Proof. unfold set_delete. apply filter_length_le. Qed.

Lemma set_delete_shorter (n : nat) (s : list nat) :
  In n s -> (List.length (set_delete n s) < List.length s)%nat.
Proof.
  unfold set_delete. induction s as [| a s IH]; simpl; [contradiction |].
  intros [H | H].
  - subst a. rewrite Nat.eqb_refl. simpl.
    pose proof (filter_length_le (fun m => negb (Nat.eqb n m)) s). lia.
  - destruct (negb (Nat.eqb n a)); simpl; [apply IH in H; lia |].
    pose proof (filter_length_le (fun m => negb (Nat.eqb n m)) s). lia.
Qed.

(** [walk] never runs out of fuel: with as much fuel as there are edges in
    the set, more fuel gives the same result. *)
Lemma walk_fuel (es : list frag) (nbrs : list (list nat)) (fuel : nat) :
  forall allEdges edge1 edge2 lx ly outline extra,
  (List.length allEdges <= fuel)%nat ->
  walk (fuel + extra) es nbrs allEdges edge1 edge2 lx ly outline
  = walk fuel es nbrs allEdges edge1 edge2 lx ly outline.
Proof.
  induction fuel as [| fuel IH]; intros allEdges edge1 edge2 lx ly outline extra Hlen.
  - destruct allEdges; [| simpl in Hlen; lia].
    destruct extra; [reflexivity |]. simpl.
    destruct edge1, edge2; reflexivity.
  - simpl.
    destruct (if set_has allEdges edge1 then edge1
              else if set_has allEdges edge2 then edge2 else None) as [e |] eqn:E;
      [| reflexivity].
    assert (Hin : In e allEdges).
    { destruct (set_has allEdges edge1) eqn:E1.
      - subst edge1. apply set_has_in. exact E1.
      - destruct (set_has allEdges edge2) eqn:E2; [| discriminate].
        subst edge2. apply set_has_in. exact E2. }
    destruct (edge_coords es e) as [[x0 y1] y2].
    apply IH. pose proof (set_delete_shorter e allEdges Hin). lia.
Qed.

Lemma walk_shrinks (es : list frag) (nbrs : list (list nat)) (fuel : nat) :
  forall allEdges edge1 edge2 lx ly outline,
  (List.length (snd (walk fuel es nbrs allEdges edge1 edge2 lx ly outline))
   <= List.length allEdges)%nat.
Proof.
  induction fuel as [| fuel IH]; intros allEdges edge1 edge2 lx ly outline; simpl.
  - lia.
  - destruct (if set_has allEdges edge1 then edge1
              else if set_has allEdges edge2 then edge2 else None) as [e |];
      [| simpl; lia].
    destruct (edge_coords es e) as [[x0 y1] y2].
    eapply Nat.le_trans; [apply IH | apply set_delete_length].
Qed.

(** [trace] never runs out of fuel either. *)
Lemma trace_fuel (es : list frag) (nbrs : list (list nat)) (fuel : nat) :
  forall allEdges outlines extra,
  (List.length allEdges <= fuel)%nat ->
  trace (fuel + extra) es nbrs allEdges outlines
  = trace fuel es nbrs allEdges outlines.
Proof.
  induction fuel as [| fuel IH]; intros allEdges outlines extra Hlen.
  - destruct allEdges; [| simpl in Hlen; lia].
    destruct extra; reflexivity.
  - simpl. destruct allEdges as [| e rest]; [reflexivity |].
    destruct (edge_coords es e) as [[x0 y1] y2].
    pose proof (walk_shrinks es nbrs (List.length (set_delete e (e :: rest)))
                  (set_delete e (e :: rest)) (edge_nbr nbrs e 0) (edge_nbr nbrs e 1)
                  x0 y1 [x0; y2]) as Hs.
    destruct (walk _ es nbrs (set_delete e (e :: rest)) _ _ x0 y1 [x0; y2])
      as [outline allEdges''].
    cbn [snd] in Hs. apply IH.
    pose proof (set_delete_shorter e (e :: rest) (or_introl eq_refl)) as Hd.
    cbn [List.length] in Hlen, Hd. lia.
Qed.

(** ** The constructor: the last point, and what it does not check *)

Lemma any_union_closed : union_closed any_box.
Proof. intros a b _ _. exact I. Qed.

Lemma any_passes (bw : number) (boxes : list rect) :
  Forall (box_passes any_key any_box bw) boxes.
Proof. apply Forall_forall. intros b _. split; exact I. Qed.

(** For a list with at least one box the constructor returns. *)
Lemma construct_returns (boxes : list rect) (bw m : number) (isLTR skip : bool) :
  boxes <> [] ->
  exists o lastEdge,
    at_back (if isLTR then 0 else 1) (quantized_edges bw boxes) = Some lastEdge /\
    construct boxes bw m isLTR skip = Normal o /\
    lastPoint (o_box o) = (ex lastEdge, ey2 lastEdge).
Proof.
  intros Hne.
  destruct (construct_shape any_key any_box boxes bw m isLTR skip Hne
              any_union_closed (any_passes bw boxes))
    as [o [lastEdge [H1 [H2 [H3 _]]]]].
  exists o, lastEdge. split; [exact H1 |]. split; [exact H2 |].
  rewrite H3. reflexivity.
Qed.

(** C6, as the code has it.  The last point is taken from the array of
    edges in the order in which the boxes were given, before any sort: it is
    the [(x2, y2)] of the rounded last box when [isLTR] is true and its
    [(x1, y2)] when [isLTR] is false, in page coordinates. *)
Theorem lastPoint_of_last_box
    (pre : list rect) (b : rect) (bw m : number) (isLTR skip : bool) :
  exists o,
    construct (pre ++ [b]) bw m isLTR skip = Normal o /\
    lastPoint (o_box o) =
      (if isLTR then snd (fst (fst (quantize bw b)))
       else fst (fst (fst (quantize bw b))),
       snd (quantize bw b)).
Proof.
  assert (Hne : pre ++ [b] <> []) by (destruct pre; discriminate).
  destruct (construct_returns (pre ++ [b]) bw m isLTR skip Hne)
    as [o [lastEdge [H1 [H2 H3]]]].
  exists o. split; [exact H2 |]. rewrite H3.
  destruct (at_back_quantized bw pre b) as [Hb0 Hb1].
  destruct isLTR.
  - rewrite Hb0 in H1. inversion H1; subst. reflexivity.
  - rewrite Hb1 in H1. inversion H1; subst. reflexivity.
Qed.

(** C6 as stated fails: with the right box given first, the last point is
    on the last box, not on the rightmost edge. *)
Lemma lastPoint_counterexample :
  ~ lastPoint_is_rightmost swapped_boxes (num 0) (num 0) true.
Proof.
  intros H.
  assert (Hne : swapped_boxes <> []) by discriminate.
  destruct (construct_returns swapped_boxes (num 0) (num 0) true false Hne)
    as [o [lastEdge [H1 [H2 H3]]]].
  assert (Hsorted : at_back 0 (sortBy edge_cmp (quantized_edges (num 0) swapped_boxes))
                    = Some (Edge (Fin 11) (Fin 0) (Fin 1) false))
    by (vm_compute; reflexivity).
  specialize (H o _ H2 Hsorted). rewrite H3 in H.
  vm_compute in H1. inversion H1; subst lastEdge.
  simpl in H. discriminate H.
Qed.

(** C9, as the code has it.  With an empty list the constructor throws a
    [TypeError], whatever the other arguments: the last edge of the empty
    array is [undefined] and its element is read.  No argument is checked:
    with at least one box the constructor returns. *)
Theorem construct_empty_throws_else_returns :
  (forall bw m isLTR skip, construct [] bw m isLTR skip = Throw TypeError) /\
  (forall boxes bw m isLTR skip, boxes <> [] ->
     exists o, construct boxes bw m isLTR skip = Normal o).
Proof.
  split.
  - intros bw m isLTR skip. unfold construct. simpl. destruct isLTR; reflexivity.
  - intros boxes bw m isLTR skip Hne.
    destruct (construct_returns boxes bw m isLTR skip Hne) as [o [_ [_ [H _]]]].
    exists o. exact H.
Qed.

Lemma construct_returns_witness :
  empty_box <> [] /\
  exists o, construct empty_box (num 0) (num 0) true false = Normal o.
Proof.
  assert (Hne : empty_box <> []) by discriminate.
  split; [exact Hne |].
  exact (proj2 construct_empty_throws_else_returns
           empty_box (num 0) (num 0) true false Hne).
Defined.

(** C9 as stated fails: for a rectangle of no size, with no border and no
    margin, the constructor returns an instance whose edges are [NaN]; so
    it does for a rectangle whose abscissa is [NaN], and the box of that
    instance has the abscissa and the width [NaN]. *)
Lemma nan_counterexample :
  (exists o, construct empty_box (num 0) (num 0) true false = Normal o /\
             nan_polluted o) /\
  (exists o, construct nan_box (num 0) (num 0) true false = Normal o /\
             nan_polluted o /\
             box_x (o_box o) = NaN /\ box_width (o_box o) = NaN).
Proof.
  split.
  - eexists. split; [vm_compute; reflexivity |].
    left. left. reflexivity.
  - eexists. split; [vm_compute; reflexivity |].
    split; [left; left; reflexivity |].
    split; reflexivity.
Qed.

(** ** The baseline groups *)

(** C4 at the failing input: the groups at 9.5 (top 8) and 10 (top 7) are
    not merged although [8 >= 7], because the keys are compared as strings
    and ["10" >= "9.5"] is false, and the instance has two line rectangles;
    the groups at 100 (top 90) and 101 (top 85) are merged into one group at
    101 with the top 85. *)
Theorem merge_compares_keys_as_strings :
  lineByBaseHeight (fold_left (round_box (num 0)) jitter_boxes bounds0)
    = jitter_groups /\
  (num 8 >=? num 7) = true /\
  string_geb (toString (num 10)) (toString (Fin (19 # 2))) = false /\
  mergeLines jitter_groups = Normal jitter_groups /\
  (exists o,
     construct jitter_boxes (num 0) (num 0) true false = Normal o /\
     o_lineRects o
     = [LineRect (Fin 0) (Fin 1) (Fin 0) (Fin 1);
        LineRect (Fin 0) (Fin 1) (Fin (1 # 3)) (Fin (5 # 6))]) /\
  mergeLines close_groups
    = Normal [(num 101, Group [LBox (num 0) (num 90) (num 10);
                               LBox (num 20) (num 85) (num 30)] (num 85))].
Proof.
  split; [vm_compute; reflexivity |]. split; [vm_compute; reflexivity |].
  split; [vm_compute; reflexivity |]. split; [vm_compute; reflexivity |].
  split; [| vm_compute; reflexivity].
  eexists. split; vm_compute; reflexivity.
Qed.

(** A round of the merging loop: the groups are merged exactly when the
    string of the current key is not below that of the previous key and the
    previous [minY1] is at least the current one. *)
Lemma mergeLoop_round (d : dict group) (prevY2 currentY2 : number)
    (rest : list number) (newD : dict group) (prevObj currentObj : group) :
  lookup prevY2 newD = Some prevObj -> lookup currentY2 d = Some currentObj ->
  mergeLoop d prevY2 (currentY2 :: rest) newD =
  mergeLoop d currentY2 rest
    (if string_geb (toString currentY2) (toString prevY2)
        && (minY1 prevObj >=? minY1 currentObj)
     then delete prevY2
            (assign currentY2
               (Group (boxes prevObj ++ boxes currentObj)
                      (Num.min (minY1 prevObj) (minY1 currentObj))) newD)
     else assign currentY2 currentObj newD).
Proof.
  intros H1 H2. simpl. rewrite H1, H2.
  destruct (string_geb _ _ && _); reflexivity.
Qed.

(** C5 at the failing input: on a line of height 10, the box [25, 32]
    starts a new run after the box [0, 10] although the gap, 15, is not above
    20: the test compares the right edges, 32 - 10 = 22, and the instance
    has two line rectangles.  The boxes [0, 10], [12, 20], [200, 210] give
    the runs [0, 20] and [200, 210]. *)
Theorem partition_compares_right_edges :
  lineByBaseHeight (fold_left (round_box (num 0)) gap_boxes bounds0)
    = [gap_line] /\
  (exists o,
     construct gap_boxes (num 0) (num 0) true false = Normal o /\
     o_lineRects o
     = [LineRect (Fin 0) (Fin (5 # 16)) (Fin 0) (Fin 1);
        LineRect (Fin (25 # 32)) (Fin 1) (Fin 0) (Fin 1)]) /\
  partitionLine gap_line
    = Normal (num 10, [LBox (num 0) (num 0) (num 10); LBox (num 25) (num 0) (num 32)]) /\
  (num 25 - num 10 >? (num 10 - num 0) * Fin 2) = false /\
  (num 32 - num 10 >? (num 10 - num 0) * Fin 2) = true /\
  partitionLine three_box_line
    = Normal (num 10, [LBox (num 0) (num 0) (num 20); LBox (num 200) (num 0) (num 210)]).
Proof.
  split; [vm_compute; reflexivity |].
  split; [eexists; split; vm_compute; reflexivity |].
  repeat split; vm_compute; reflexivity.
Qed.

(** A round of the cutting loop: a box starts a new run exactly when its
    right edge is more than [maxSpaceSize] beyond the right edge of the run. *)
Lemma partitionLoop_round (maxSpaceSize : number) (done : list lbox)
    (lastBox currentBox : lbox) (rest : list lbox) :
  partitionLoop maxSpaceSize done lastBox (currentBox :: rest) =
  if x2 currentBox - x2 lastBox >? maxSpaceSize
  then partitionLoop maxSpaceSize (done ++ [lastBox]) currentBox rest
  else partitionLoop maxSpaceSize done
         (LBox (Num.min (x1 currentBox) (x1 lastBox))
               (Num.min (y1 currentBox) (y1 lastBox))
               (Num.max (x2 currentBox) (x2 lastBox))) rest.
Proof. reflexivity. Qed.

(** ** The coordinates of the results *)

Lemma getOutlines_result (o : Outliner) :
  snd (getOutlines o) =
  OutlinesResult
    (traceOutlines (snd (sweep (o_intervals o) (sortBy edge_cmp (o_verticalEdges o)))))
    (o_box o) (o_lineRects o).
Proof.
  unfold getOutlines.
  destruct (sweep (o_intervals o) (sortBy edge_cmp (o_verticalEdges o))).
  reflexivity.
Qed.

(** ** The coordinates of the results *)

Lemma min_either (a b : number) : Num.min a b = a \/ Num.min a b = b.
Proof.
  unfold Num.min. destruct a, b; try (left; reflexivity); try (right; reflexivity);
    match goal with |- context [if ?c then _ else _] => destruct c end;
    (left; reflexivity) || (right; reflexivity).
Qed.

Lemma max_either (a b : number) : Num.max a b = a \/ Num.max a b = b.
Proof.
  unfold Num.max. destruct a, b; try (left; reflexivity); try (right; reflexivity);
    match goal with |- context [if ?c then _ else _] => destruct c end;
    (left; reflexivity) || (right; reflexivity).
Qed.











(** ** A single rectangle *)







Lemma min_PInf (a : number) : Num.min PInf a = a.
Proof. destruct a; reflexivity. Qed.

Lemma max_NInf (a : number) : Num.max NInf a = a.
Proof. destruct a; reflexivity. Qed.




(** ** The edges of the instance are those of rectangles *)

Lemma box_rect_edges (a b c d M : Q) (p : number * number) (bw : number)
    (bx : rect) :
  (a < b)%Q -> (c < d)%Q -> (0 <= M)%Q ->
  rounded_in a b c d (quantize bw bx) ->
  map (toBoxEdge (Fin a - Fin M) (Fin c - Fin M)
         (Fin b - Fin a + Fin 2 * Fin M) (Fin d - Fin c + Fin 2 * Fin M))
      (box_edges bw bx)
  = edges_of
      (box_rect (BBox (Fin a - Fin M) (Fin c - Fin M)
                   (Fin b - Fin a + Fin 2 * Fin M)
                   (Fin d - Fin c + Fin 2 * Fin M) p) bw bx) /\
  wf_rect
    (box_rect (BBox (Fin a - Fin M) (Fin c - Fin M)
                 (Fin b - Fin a + Fin 2 * Fin M)
                 (Fin d - Fin c + Fin 2 * Fin M) p) bw bx).
Proof.
  intros Hab Hcd Hm0 [qx1 [qx2 [qy1 [qy2 [E [G1 [G2 [G3 [G4 [G5 G6]]]]]]]]]].
  unfold box_edges, box_rect. rewrite E.
  unfold toBoxEdge, relX, relY, edges_of, left_edge, right_edge, wf_rect.
  cbn [ex ey1 ey2 isLeft map rx1 rx2 ry1 ry2
       box_x box_y box_width box_height].
  destruct (toBox_coord qx1 a b M Hab Hm0) as [u1 [Ex1 Rx1]].
  destruct (toBox_coord qx2 a b M Hab Hm0) as [u2 [Ex2 Rx2]].
  destruct (toBox_coord qy1 c d M Hcd Hm0) as [v1 [Ey1 Ry1]].
  destruct (toBox_coord qy2 c d M Hcd Hm0) as [v2 [Ey2 Ry2]].
  rewrite Ex1, Ex2, Ey1, Ey2. cbn [qv].
  split; [reflexivity |].
  rewrite Rx1, Rx2, Ry1, Ry2.
  split; apply rel_mono; assumption.
Qed.

(** With boxes of positive size, a border width and a margin that are not
    negative: the edges of the instance are the left and right sides of the
    rounded rectangles in the coordinates of the box, in the order of the
    boxes, and each of these rectangles has [x1 < x2] and [y1 < y2]. *)
Lemma construct_edges (boxes : list rect) (bw m : number) (isLTR skip : bool) :
  boxes <> [] -> Forall good_box boxes -> good_margin bw -> good_margin m ->
  exists o,
    construct boxes bw m isLTR skip = Normal o /\
    o_intervals o = [] /\
    o_verticalEdges o = all_edges (box_rects (o_box o) bw boxes) /\
    Forall wf_rect (box_rects (o_box o) bw boxes).
Proof.
  intros Hne Hgood Hbw [Hmf Hm0].
  destruct (construct_bounds bw boxes Hbw Hgood Hne)
    as [a [b [c [d [Ea [Eb [Ec [Ed [Hab [Hcd Hin]]]]]]]]]].
  destruct (construct_shape any_key any_box boxes bw m isLTR skip Hne
              any_union_closed (any_passes bw boxes))
    as [o [lastEdge [_ [H2 [H3 [H4 [H5 _]]]]]]].
  rewrite Ea, Eb, Ec, Ed in H3.
  exists o. split; [exact H2 |]. split; [exact H5 |].
  rewrite H4. rewrite H3. cbn [box_x box_y box_width box_height].
  destruct m as [M | | |]; try contradiction. simpl in Hm0.
  clear H2 H3 H4 H5 Hne Hgood Ea Eb Ec Ed.
  unfold quantized_edges, all_edges, box_rects.
  induction Hin as [| bx rest Hbx _ IH]; [split; [reflexivity | constructor] |].
  destruct IH as [IH1 IH2].
  destruct (box_rect_edges a b c d M (ex lastEdge, ey2 lastEdge) bw bx
              Hab Hcd Hm0 Hbx) as [B1 B2].
  cbn [flat_map map]. rewrite map_app, IH1, B1.
  split; [reflexivity |]. constructor; assumption.
Qed.

(** ** Abutting rectangles *)

(** Two abutting unit squares, the left one given first: the side they
    share gives fragments although it is inside the union, both sides of
    the line being covered; the outlines are the two squares, not the
    rectangle that is their union. *)
Lemma abutting_emits_inside :
  (exists o,
     construct abutting_boxes (num 0) (num 0) true false = Normal o /\
     o_verticalEdges o = all_edges abutting_rects /\ o_intervals o = [] /\
     outlines (snd (getOutlines o))
     = [[Fin 0; Fin 1; Fin 0; Fin 0; Fin (1 # 2); Fin 0; Fin (1 # 2); Fin 1];
        [Fin (1 # 2); Fin 1; Fin (1 # 2); Fin 0; Fin 1; Fin 0; Fin 1; Fin 1]])
  /\
  Forall wf_rect abutting_rects /\ generic abutting_rects (1 # 2) /\
  snd (sweep [] (sortBy edge_cmp (all_edges abutting_rects)))
    = [(Fin 0, Fin 0, Fin 1); (Fin (1 # 2), Fin 0, Fin 1);
       (Fin (1 # 2), Fin 0, Fin 1); (Fin 1, Fin 0, Fin 1)] /\
  emitted (snd (sweep [] (sortBy edge_cmp (all_edges abutting_rects))))
    (1 # 2) (1 # 2) /\
  ~ on_boundary abutting_rects (1 # 2) (1 # 2).
Proof.
  split.
  { eexists. split; [vm_compute; reflexivity |].
    split; [reflexivity |]. split; [reflexivity |]. vm_compute. reflexivity. }
  split; [repeat constructor |].
  split; [repeat constructor; intros H; vm_compute in H; discriminate |].
  split; [vm_compute; reflexivity |].
  split.
  - apply Exists_cons_tl. apply Exists_cons_hd.
    vm_compute. repeat split; try discriminate; reflexivity.
  - intros [[_ H] | [H _]]; apply H.
    + apply Exists_cons_tl. apply Exists_cons_hd. simpl.
      repeat split; try reflexivity; discriminate.
    + apply Exists_cons_hd. simpl.
      repeat split; try reflexivity; discriminate.
Qed.

(** [getOutlines] on an instance made from boxes of positive size: the
    edges are sorted in ascending [(x, y1, y2)] order, the outlines are
    traced from the fragments of the sweep, and when no right side lies on
    the line of a left side with ordinates in common, a point [(x, t)],
    with [t] not the ordinate of a horizontal side, is on a fragment exactly
    when it is on the boundary of the union of the rounded rectangles. *)
Lemma getOutlines_boundary (boxes : list rect) (bw m : number)
    (isLTR skip : bool) :
  boxes <> [] -> Forall good_box boxes -> good_margin bw -> good_margin m ->
  exists o,
    construct boxes bw m isLTR skip = Normal o /\
    o_verticalEdges (fst (getOutlines o))
      = sortBy edge_cmp (o_verticalEdges o) /\
    StronglySorted edge_lex (sortBy edge_cmp (o_verticalEdges o)) /\
    Permutation (sortBy edge_cmp (o_verticalEdges o)) (o_verticalEdges o) /\
    outlines (snd (getOutlines o))
      = traceOutlines (snd (sweep [] (sortBy edge_cmp (o_verticalEdges o)))) /\
    (no_abutting (box_rects (o_box o) bw boxes) ->
     forall x t, generic (box_rects (o_box o) bw boxes) t ->
       emitted (snd (sweep [] (sortBy edge_cmp (o_verticalEdges o)))) x t <->
       on_boundary (box_rects (o_box o) bw boxes) x t).
Proof.
  intros Hne Hgood Hbw Hm.
  destruct (construct_edges boxes bw m isLTR skip Hne Hgood Hbw Hm)
    as [o [Hc [Hi [He Hwf]]]].
  exists o. split; [exact Hc |].
  assert (Hg : getOutlines o =
               (MkOutliner (o_box o) (sortBy edge_cmp (o_verticalEdges o))
                  (fst (sweep [] (sortBy edge_cmp (o_verticalEdges o))))
                  (o_lineRects o),
                OutlinesResult
                  (traceOutlines
                     (snd (sweep [] (sortBy edge_cmp (o_verticalEdges o)))))
                  (o_box o) (o_lineRects o))).
  { unfold getOutlines. rewrite Hi.
    destruct (sweep [] (sortBy edge_cmp (o_verticalEdges o))). reflexivity. }
  rewrite Hg. cbn [fst snd o_verticalEdges outlines].
  split; [reflexivity |].
  rewrite He.
  pose proof (sort_edges_sorted (all_edges (box_rects (o_box o) bw boxes))
                (all_edges_finite _)) as Hsort.
  pose proof (sortBy_perm edge edge_cmp
                (all_edges (box_rects (o_box o) bw boxes))) as Hperm.
  split; [exact Hsort |]. split; [exact Hperm |]. split; [reflexivity |].
  intros Hna.
  exact (proj2 (proj2 (proj2
           (sweep_boundary (box_rects (o_box o) bw boxes) Hwf Hna)))).
Qed.

(** C1.  A left edge is broken against the intervals and then inserted, a
    right edge is removed and then broken.  For boxes of positive size, with
    a border width and a margin that are not negative, [getOutlines] meets
    the edges in ascending [(x, y1, y2)] order, and when no right side lies
    on the line of a left side with ordinates in common, a point [(x, t)],
    with [t] not the ordinate of a horizontal side, is on a fragment exactly
    when it is on the boundary of the union of the rounded rectangles.  At
    the failing input, two abutting unit squares with the left one given
    first, the side they share gives fragments although both of its sides
    are covered, and [getOutlines] returns the two squares. *)
Theorem sweep_boundary_except_abutting :
  (forall intervals out e,
     sweep_step (intervals, out) e =
     if isLeft e then (insert intervals e, out ++ breakEdge intervals e)
     else (remove intervals e, out ++ breakEdge (remove intervals e) e)) /\
  (forall boxes bw m isLTR skip,
     boxes <> [] -> Forall good_box boxes -> good_margin bw ->
     good_margin m ->
     exists o,
       construct boxes bw m isLTR skip = Normal o /\
       o_verticalEdges (fst (getOutlines o))
         = sortBy edge_cmp (o_verticalEdges o) /\
       StronglySorted edge_lex (sortBy edge_cmp (o_verticalEdges o)) /\
       Permutation (sortBy edge_cmp (o_verticalEdges o)) (o_verticalEdges o) /\
       outlines (snd (getOutlines o))
         = traceOutlines
             (snd (sweep [] (sortBy edge_cmp (o_verticalEdges o)))) /\
       (no_abutting (box_rects (o_box o) bw boxes) ->
        forall x t, generic (box_rects (o_box o) bw boxes) t ->
          emitted (snd (sweep [] (sortBy edge_cmp (o_verticalEdges o)))) x t
          <-> on_boundary (box_rects (o_box o) bw boxes) x t)) /\
  (exists o,
     construct abutting_boxes (num 0) (num 0) true false = Normal o /\
     o_verticalEdges o = all_edges abutting_rects /\ o_intervals o = [] /\
     outlines (snd (getOutlines o))
     = [[Fin 0; Fin 1; Fin 0; Fin 0; Fin (1 # 2); Fin 0; Fin (1 # 2); Fin 1];
        [Fin (1 # 2); Fin 1; Fin (1 # 2); Fin 0; Fin 1; Fin 0; Fin 1; Fin 1]])
  /\
  emitted (snd (sweep [] (sortBy edge_cmp (all_edges abutting_rects))))
    (1 # 2) (1 # 2) /\
  ~ on_boundary abutting_rects (1 # 2) (1 # 2).
Proof.
  split.
  { intros intervals out e. simpl. destruct (isLeft e); reflexivity. }
  split; [exact getOutlines_boundary |].
  destruct abutting_emits_inside as [H1 [_ [_ [_ [H2 H3]]]]].
  split; [exact H1 |]. split; [exact H2 | exact H3].
Qed.

Lemma overlapping_boxes_ok :
  overlapping_boxes <> [] /\ Forall good_box overlapping_boxes /\
  good_margin (num 0).
Proof.
  split; [discriminate |]. split.
  - repeat constructor.
  - split; [exact I | discriminate].
Qed.

(** Two overlapping squares: in the coordinates of the box they are
    [[0, 2/3]] and [[1/3, 1]] squared, and the left side of the second one,
    inside the first one up to 2/3, gives a fragment from 2/3 on only. *)
Lemma sweep_witness :
  (overlapping_boxes <> [] /\ Forall good_box overlapping_boxes /\
   good_margin (num 0)) /\
  exists o,
    construct overlapping_boxes (num 0) (num 0) true false = Normal o /\
    box_rects (o_box o) (num 0) overlapping_boxes = overlapping_rects /\
    snd (sweep [] (sortBy edge_cmp (o_verticalEdges o)))
      = [(Fin 0, Fin 0, Fin (2 # 3)); (Fin (1 # 3), Fin (2 # 3), Fin 1);
         (Fin (2 # 3), Fin 0, Fin (1 # 3)); (Fin 1, Fin (1 # 3), Fin 1)] /\
    (emitted (snd (sweep [] (sortBy edge_cmp (o_verticalEdges o))))
       (1 # 3) (1 # 2)
     <-> on_boundary overlapping_rects (1 # 3) (1 # 2)).
Proof.
  split; [exact overlapping_boxes_ok |].
  destruct (proj1 (proj2 sweep_boundary_except_abutting)
              overlapping_boxes (num 0) (num 0) true false
              (proj1 overlapping_boxes_ok)
              (proj1 (proj2 overlapping_boxes_ok))
              (proj2 (proj2 overlapping_boxes_ok))
              (proj2 (proj2 overlapping_boxes_ok)))
    as [o [Hc [_ [_ [_ [_ Hb]]]]]].
  exists o. split; [exact Hc |].
  assert (Hr : box_rects (o_box o) (num 0) overlapping_boxes
               = overlapping_rects).
  { vm_compute in Hc. inversion Hc; subst o. vm_compute. reflexivity. }
  split; [exact Hr |]. split.
  - vm_compute in Hc. inversion Hc; subst o. vm_compute. reflexivity.
  - rewrite Hr in Hb.
    exact (Hb (proj2 overlapping_rects_ok) (1 # 3) (1 # 2) overlapping_generic).
Defined.

(* ================================================================== *)
(** * The store: which objects a call writes *)

Lemma closed_start (h : Store.heap) : Store.closed (List.length h) h.
Proof.
  split; [lia |]. intros l c Hl Hc.
  assert (Hs : nth_error h l <> None) by congruence.
  apply nth_error_Some in Hs. lia.
Qed.

Lemma keeps_refl (n : nat) (h : Store.heap) : Store.keeps n h h.
Proof. split; [lia | reflexivity]. Qed.

Lemma keeps_trans (n : nat) (h1 h2 h3 : Store.heap) :
  Store.keeps n h1 h2 -> Store.keeps n h2 h3 -> Store.keeps n h1 h3.
Proof.
  intros [L1 K1] [L2 K2]. split; [lia |].
  intros l Hl. rewrite K2, K1 by exact Hl. reflexivity.
Qed.

Lemma nth_error_update (A : Type) (l : nat) (c : A) (h : list A) (l' : nat) :
  (l < List.length h)%nat ->
  nth_error (firstn l h ++ c :: skipn (S l) h) l'
  = if Nat.eqb l' l then Some c else nth_error h l'.
Proof.
  intros Hl.
  assert (Hlen : List.length (firstn l h) = l) by (rewrite length_firstn; lia).
  destruct (Nat.eqb_spec l' l) as [-> | Hne].
  - rewrite nth_error_app2 by lia. rewrite Hlen, Nat.sub_diag. reflexivity.
  - destruct (Nat.lt_ge_cases l' l) as [Hlt | Hge].
    + rewrite nth_error_app1 by lia. rewrite nth_error_firstn.
      destruct (Nat.ltb_spec l' l); [reflexivity | lia].
    + rewrite nth_error_app2 by lia. rewrite Hlen.
      destruct (l' - l)%nat as [| k] eqn:Ek; [lia |]. cbn [nth_error].
      rewrite nth_error_skipn. f_equal. lia.
Qed.

Lemma safe_ret (A : Type) (n : nat) (a : A) (P : A -> Prop) :
  P a -> Store.safe n (Store.ret a) P.
Proof.
  intros HP h Hc. cbn. split; [exact Hc |]. split; [apply keeps_refl |].
  intros a' E. inversion E; subst. exact HP.
Qed.

Lemma safe_throw (A : Type) (n : nat) (e : error) (P : A -> Prop) :
  Store.safe n (Store.throw e) P.
Proof.
  intros h Hc. cbn. split; [exact Hc |]. split; [apply keeps_refl |].
  intros a' E. discriminate E.
Qed.

Lemma safe_stuck (A : Type) (n : nat) (P : A -> Prop) :
  Store.safe n Store.stuck P.
Proof.
  intros h Hc. cbn. split; [exact Hc |]. split; [apply keeps_refl |].
  intros a' E. discriminate E.
Qed.

Lemma safe_bind (A B : Type) (n : nat) (m : Store.M A) (k : A -> Store.M B)
    (P : A -> Prop) (Q : B -> Prop) :
  Store.safe n m P -> (forall a, P a -> Store.safe n (k a) Q) ->
  Store.safe n (Store.mbind m k) Q.
Proof.
  intros Hm Hk h Hc. unfold Store.mbind.
  destruct (Hm h Hc) as [C1 [K1 R1]].
  destruct (m h) as [[a | e |] h1]; cbn [fst snd] in *.
  - destruct (Hk a (R1 a eq_refl) h1 C1) as [C2 [K2 R2]].
    split; [exact C2 |]. split; [| exact R2].
    apply keeps_trans with h1; assumption.
  - split; [exact C1 |]. split; [exact K1 |]. intros b E. discriminate E.
  - split; [exact C1 |]. split; [exact K1 |]. intros b E. discriminate E.
Qed.

Lemma safe_weaken (A : Type) (n : nat) (m : Store.M A) (P Q : A -> Prop) :
  Store.safe n m P -> (forall a, P a -> Q a) -> Store.safe n m Q.
Proof.
  intros Hm HPQ h Hc. destruct (Hm h Hc) as [C1 [K1 R1]].
  split; [exact C1 |]. split; [exact K1 |].
  intros a E. apply HPQ, R1, E.
Qed.

Lemma safe_alloc (n : nat) (c : Store.cell) :
  Store.new_cell n c ->
  Store.safe n (Store.alloc c) (fun l => (n <= l)%nat).
Proof.
  intros Hnew h [Hn Hc]. cbn. split; [| split].
  - split; [rewrite length_app; lia |].
    intros l c' Hl Hc'.
    destruct (Nat.lt_ge_cases l (List.length h)) as [Hlt | Hge].
    + rewrite nth_error_app1 in Hc' by exact Hlt. exact (Hc l c' Hl Hc').
    + rewrite nth_error_app2 in Hc' by exact Hge.
      destruct (l - List.length h)%nat as [| k]; cbn in Hc'.
      * inversion Hc'; subst. exact Hnew.
      * destruct k; discriminate Hc'.
  - split; [rewrite length_app; lia |].
    intros l Hl. apply nth_error_app1. lia.
  - intros a E. inversion E; subst. exact Hn.
Qed.

Lemma safe_read (n : nat) (l : Store.loc) :
  Store.safe n (Store.read l) (fun c => (n <= l)%nat -> Store.new_cell n c).
Proof.
  intros h Hc. unfold Store.read.
  destruct (nth_error h l) as [c |] eqn:E; cbn [fst snd].
  - split; [exact Hc |]. split; [apply keeps_refl |].
    intros a Ea Hl. inversion Ea; subst. exact (proj2 Hc l a Hl E).
  - split; [exact Hc |]. split; [apply keeps_refl |].
    intros a Ea. discriminate Ea.
Qed.

Lemma safe_write (n : nat) (l : Store.loc) (c : Store.cell) :
  (n <= l)%nat -> Store.new_cell n c ->
  Store.safe n (Store.write l c) (fun _ => True).
Proof.
  intros Hl Hnew h [Hn Hc]. unfold Store.write.
  destruct (Nat.ltb_spec l (List.length h)) as [Hlt | Hge]; cbn [fst snd].
  - assert (Hlen : List.length (firstn l h ++ c :: skipn (S l) h)
                   = List.length h).
    { rewrite length_app, length_firstn. cbn [List.length].
      rewrite length_skipn. lia. }
    split; [| split].
    + split; [rewrite Hlen; exact Hn |].
      intros l' c' Hl' Hc'. rewrite nth_error_update in Hc' by exact Hlt.
      destruct (Nat.eqb l' l).
      * inversion Hc'; subst. exact Hnew.
      * exact (Hc l' c' Hl' Hc').
    + split; [rewrite Hlen; lia |].
      intros l' Hl'. rewrite nth_error_update by exact Hlt.
      destruct (Nat.eqb_spec l' l); [lia | reflexivity].
    + intros a _. exact I.
  - split; [split; assumption |]. split; [apply keeps_refl |].
    intros a E. discriminate E.
Qed.

(** The values and cells that hold no reference to an object from before. *)
Lemma new_lookup_prop (n : nat) (k : string) (ps : list (string * Store.value)) :
  Forall (fun p => Store.new_value n (snd p)) ps ->
  Store.new_value n (Store.lookup_prop k ps).
Proof.
  induction 1 as [| [k' v] ps Hv _ IH]; cbn; [exact I |].
  destruct (String.eqb k k'); [exact Hv | exact IH].
Qed.

Lemma new_assign_prop (n : nat) (k : string) (v : Store.value)
    (ps : list (string * Store.value)) :
  Store.new_value n v ->
  Forall (fun p => Store.new_value n (snd p)) ps ->
  Forall (fun p => Store.new_value n (snd p)) (Store.assign_prop k v ps).
Proof.
  intros Hv. induction 1 as [| [k' v'] ps Hv' Hps IH]; cbn.
  - constructor; [exact Hv | constructor].
  - destruct (String.eqb k k'); constructor; assumption.
Qed.

Lemma new_lookup (n : nat) (k : number) (ls : dict Store.value) :
  Forall (fun p => Store.new_value n (snd p)) ls ->
  Store.new_value n
    (match lookup k ls with Some v => v | None => Store.VUndefined end).
Proof.
  induction 1 as [| [k' v] ls Hv _ IH]; cbn; [exact I |].
  destruct (key_eqb k k'); [exact Hv | exact IH].
Qed.

Lemma new_assign (n : nat) (k : number) (v : Store.value)
    (ls : dict Store.value) :
  Store.new_value n v ->
  Forall (fun p => Store.new_value n (snd p)) ls ->
  Forall (fun p => Store.new_value n (snd p)) (assign k v ls).
Proof.
  intros Hv. induction 1 as [| [k' v'] ls Hv' Hls IH]; cbn.
  - constructor; [exact Hv | constructor].
  - destruct (key_eqb k k'); constructor; assumption.
Qed.

Lemma Forall_filter (A : Type) (P : A -> Prop) (f : A -> bool) (l : list A) :
  Forall P l -> Forall P (filter f l).
Proof.
  induction 1 as [| a l Ha _ IH]; cbn; [constructor |].
  destruct (f a); [constructor; assumption | exact IH].
Qed.

Lemma new_delete (n : nat) (k : number) (ls : dict Store.value) :
  Forall (fun p => Store.new_value n (snd p)) ls ->
  Forall (fun p => Store.new_value n (snd p)) (delete k ls).
Proof. apply Forall_filter. Qed.

Lemma new_entries (n : nat) (ls : dict Store.value) :
  Forall (fun p => Store.new_value n (snd p)) ls ->
  Forall (fun p => Store.new_value n (snd p)) (entries ls).
Proof.
  intros H. unfold entries. apply Forall_app. split.
  - apply sortBy_Forall. apply Forall_filter. exact H.
  - apply Forall_filter. exact H.
Qed.

Lemma new_nth (n : nat) (i : nat) (es : list Store.value) :
  Forall (Store.new_value n) es ->
  Store.new_value n (nth i es Store.VUndefined).
Proof.
  intros H. revert i. induction H as [| v es Hv _ IH]; intros [| i]; cbn;
    try exact I; [exact Hv | apply IH].
Qed.

Lemma new_nth_error (n : nat) (i : nat) (es : list Store.value) :
  Forall (Store.new_value n) es ->
  Store.new_value n
    (match nth_error es i with Some v => v | None => Store.VUndefined end).
Proof.
  intros H. revert i. induction H as [| v es Hv _ IH]; intros [| i]; cbn;
    try exact I; [exact Hv | apply IH].
Qed.

Lemma new_update (n : nat) (i : nat) (v : Store.value) (es : list Store.value) :
  Store.new_value n v -> Forall (Store.new_value n) es ->
  Forall (Store.new_value n) (firstn i es ++ v :: skipn (S i) es).
Proof.
  intros Hv H. apply Forall_app. split.
  - apply Forall_firstn_any. exact H.
  - constructor; [exact Hv |]. apply Forall_skipn_any. exact H.
Qed.

Lemma new_repeat (n k : nat) :
  Forall (Store.new_value n) (repeat Store.VUndefined k).
Proof. induction k; cbn; constructor; [exact I | assumption]. Qed.

Ltac new_solve :=
  cbn [Store.new_cell Store.new_value snd fst];
  repeat first [apply Forall_cons | apply Forall_nil
               | apply Forall_app; split];
  cbn [Store.new_cell Store.new_value snd fst];
  auto.

Ltac safe_cell c H :=
  eapply safe_bind; [apply safe_read |]; intros c H;
  destruct c;
  try apply safe_throw; try apply safe_stuck.

(** ** The operations on properties and arrays *)

Lemma safe_get_prop (n : nat) (o : Store.value) (k : string) :
  Store.safe n (Store.get_prop o k)
    (fun v => Store.new_value n o -> Store.new_value n v).
Proof.
  destruct o as [| m | b | l]; cbn [Store.get_prop];
    try apply safe_throw; try (apply safe_ret; intros _; exact I).
  safe_cell c H; apply safe_ret; intros Hl; [exact I |].
  apply new_lookup_prop. exact (H Hl).
Qed.

Lemma safe_set_prop (n : nat) (o : Store.value) (k : string) (v : Store.value) :
  Store.new_value n o -> Store.new_value n v ->
  Store.safe n (Store.set_prop o k v) (fun _ => True).
Proof.
  intros Ho Hv.
  destruct o as [| m | b | l]; cbn [Store.set_prop]; try apply safe_throw.
  safe_cell c H. apply safe_write; [exact Ho |].
  cbn. apply new_assign_prop; [exact Hv | exact (H Ho)].
Qed.

Lemma safe_get_line (n : nat) (d : Store.value) (k : number) :
  Store.safe n (Store.get_line d k)
    (fun v => Store.new_value n d -> Store.new_value n v).
Proof.
  destruct d as [| m | b | l]; cbn [Store.get_line];
    try apply safe_throw; try (apply safe_ret; intros _; exact I).
  safe_cell c H. apply safe_ret; intros Hl.
  apply new_lookup. exact (H Hl).
Qed.

Lemma safe_set_line (n : nat) (d : Store.value) (k : number) (v : Store.value) :
  Store.new_value n d -> Store.new_value n v ->
  Store.safe n (Store.set_line d k v) (fun _ => True).
Proof.
  intros Hd Hv.
  destruct d as [| m | b | l]; cbn [Store.set_line]; try apply safe_throw.
  safe_cell c H. apply safe_write; [exact Hd |].
  cbn. apply new_assign; [exact Hv | exact (H Hd)].
Qed.

Lemma safe_delete_line (n : nat) (d : Store.value) (k : number) :
  Store.new_value n d ->
  Store.safe n (Store.delete_line d k) (fun _ => True).
Proof.
  intros Hd.
  destruct d as [| m | b | l]; cbn [Store.delete_line]; try apply safe_throw.
  safe_cell c H. apply safe_write; [exact Hd |].
  cbn. apply new_delete. exact (H Hd).
Qed.

Lemma safe_object_entries (n : nat) (d : Store.value) :
  Store.safe n (Store.object_entries d)
    (fun es => Store.new_value n d ->
               Forall (fun p => Store.new_value n (snd p)) es).
Proof.
  destruct d as [| m | b | l]; cbn [Store.object_entries];
    try apply safe_throw; try (apply safe_ret; intros _; constructor).
  safe_cell c H. apply safe_ret; intros Hl.
  apply new_entries. exact (H Hl).
Qed.

Lemma safe_object_keys (n : nat) (d : Store.value) :
  Store.safe n (Store.object_keys d) (fun _ => True).
Proof.
  unfold Store.object_keys.
  eapply safe_bind; [apply safe_object_entries |].
  intros es _. apply safe_ret. exact I.
Qed.

Lemma safe_spread (n : nat) (a : Store.value) :
  Store.safe n (Store.spread a)
    (fun es => Store.new_value n a -> Forall (Store.new_value n) es).
Proof.
  destruct a as [| m | b | l]; cbn [Store.spread]; try apply safe_throw.
  safe_cell c H. apply safe_ret; intros Hl. exact (H Hl).
Qed.

Lemma safe_array_length (n : nat) (a : Store.value) :
  Store.safe n (Store.array_length a) (fun _ => True).
Proof.
  unfold Store.array_length.
  eapply safe_bind; [apply safe_spread |].
  intros es _. apply safe_ret. exact I.
Qed.

Lemma safe_elem (n : nat) (a : Store.value) (i : nat) :
  Store.safe n (Store.elem a i)
    (fun v => Store.new_value n a -> Store.new_value n v).
Proof.
  destruct a as [| m | b | l]; cbn [Store.elem];
    try apply safe_throw; try (apply safe_ret; intros _; exact I).
  safe_cell c H. apply safe_ret; intros Hl.
  apply new_nth. exact (H Hl).
Qed.

Lemma safe_set_elem (n : nat) (a : Store.value) (i : nat) (v : Store.value) :
  Store.new_value n a -> Store.new_value n v ->
  Store.safe n (Store.set_elem a i v) (fun _ => True).
Proof.
  intros Ha Hv.
  destruct a as [| m | b | l]; cbn [Store.set_elem]; try apply safe_throw.
  safe_cell c H.
  destruct (i <? List.length elems)%nat; apply safe_write; try exact Ha; cbn.
  - apply new_update; [exact Hv | exact (H Ha)].
  - apply Forall_app. split; [exact (H Ha) |].
    apply Forall_app. split; [apply new_repeat |].
    constructor; [exact Hv | constructor].
Qed.

Lemma safe_push (n : nat) (a : Store.value) (vs : list Store.value) :
  Store.new_value n a -> Forall (Store.new_value n) vs ->
  Store.safe n (Store.push a vs) (fun _ => True).
Proof.
  intros Ha Hvs.
  destruct a as [| m | b | l]; cbn [Store.push]; try apply safe_throw.
  safe_cell c H. apply safe_write; [exact Ha |]. cbn.
  apply Forall_app. split; [exact (H Ha) | exact Hvs].
Qed.

Lemma safe_set_elems (n : nat) (a : Store.value) (vs : list Store.value) :
  Store.new_value n a -> Forall (Store.new_value n) vs ->
  Store.safe n (Store.set_elems a vs) (fun _ => True).
Proof.
  intros Ha Hvs.
  destruct a as [| m | b | l]; cbn [Store.set_elems]; try apply safe_throw.
  safe_cell c H. apply safe_write; [exact Ha | exact Hvs].
Qed.

Lemma safe_at_back (n : nat) (a : Store.value) (k : nat) :
  Store.safe n (Store.at_back a k)
    (fun v => Store.new_value n a -> Store.new_value n v).
Proof.
  unfold Store.at_back.
  eapply safe_bind; [apply safe_spread |].
  intros es Hes. apply safe_ret. intros Ha.
  apply new_nth_error. apply Forall_rev. exact (Hes Ha).
Qed.

(** ** Loops *)

Lemma safe_traverse (A B : Type) (n : nat) (f : A -> Store.M B)
    (P : A -> Prop) (Q : B -> Prop) (l : list A) :
  (forall a, P a -> Store.safe n (f a) Q) ->
  Forall P l -> Store.safe n (Store.traverse f l) (Forall Q).
Proof.
  intros Hf. induction 1 as [| a l Ha _ IH]; cbn [Store.traverse].
  - apply safe_ret. constructor.
  - eapply safe_bind; [exact (Hf a Ha) |]. intros b Hb.
    eapply safe_bind; [exact IH |]. intros bs Hbs.
    apply safe_ret. constructor; assumption.
Qed.

Lemma safe_for_of_from (St : Type) (n count i : nat) (a : Store.value)
    (body : St -> Store.value -> Store.M St) (Inv : St -> Prop) (s : St) :
  (forall s v, Inv s -> (Store.new_value n a -> Store.new_value n v) ->
               Store.safe n (body s v) Inv) ->
  Inv s -> Store.safe n (Store.for_of_from count i a body s) Inv.
Proof.
  intros Hbody. revert i s.
  induction count as [| count IH]; intros i s Hs; cbn [Store.for_of_from].
  - apply safe_ret. exact Hs.
  - eapply safe_bind; [apply safe_elem |]. intros v Hv.
    eapply safe_bind; [exact (Hbody s v Hs Hv) |]. intros s' Hs'.
    apply IH. exact Hs'.
Qed.

Lemma safe_for_of (St : Type) (n : nat) (a : Store.value)
    (body : St -> Store.value -> Store.M St) (Inv : St -> Prop) (s : St) :
  (forall s v, Inv s -> (Store.new_value n a -> Store.new_value n v) ->
               Store.safe n (body s v) Inv) ->
  Inv s -> Store.safe n (Store.for_of a body s) Inv.
Proof.
  intros Hbody Hs. unfold Store.for_of.
  eapply safe_bind; [apply safe_array_length |]. intros k _.
  apply safe_for_of_from; assumption.
Qed.

(** A clone is a new object, whatever is cloned. *)
Lemma safe_clone (n depth : nat) (v : Store.value) :
  Store.safe n (Store.clone depth v) (Store.new_value n).
Proof.
  revert v. induction depth as [| depth IH]; intros v.
  - destruct v; cbn [Store.clone]; try (apply safe_ret; exact I).
    apply safe_stuck.
  - destruct v as [| m | b | l]; cbn [Store.clone];
      try (apply safe_ret; exact I).
    eapply safe_bind; [apply safe_read |]. intros c _.
    destruct c as [es | ps | ls].
    + eapply safe_bind.
      * apply safe_traverse with (P := fun _ => True);
          [intros a _; apply IH | apply Forall_forall; intros; exact I].
      * intros es' Hes'. eapply safe_bind; [apply safe_alloc; exact Hes' |].
        intros l' Hl'. apply safe_ret. exact Hl'.
    + eapply safe_bind.
      * apply safe_traverse
          with (P := fun _ => True) (Q := fun p => Store.new_value n (snd p));
          [| apply Forall_forall; intros; exact I].
        intros p _. eapply safe_bind; [apply IH |]. intros v' Hv'.
        apply safe_ret. exact Hv'.
      * intros ps' Hps'. eapply safe_bind; [apply safe_alloc; exact Hps' |].
        intros l' Hl'. apply safe_ret. exact Hl'.
    + eapply safe_bind.
      * apply safe_traverse
          with (P := fun _ => True) (Q := fun p => Store.new_value n (snd p));
          [| apply Forall_forall; intros; exact I].
        intros p _. eapply safe_bind; [apply IH |]. intros v' Hv'.
        apply safe_ret. exact Hv'.
      * intros ls' Hls'. eapply safe_bind; [apply safe_alloc; exact Hls' |].
        intros l' Hl'. apply safe_ret. exact Hl'.
Qed.

Lemma safe_structuredClone (n : nat) (v : Store.value) :
  Store.safe n (Store.structuredClone v) (Store.new_value n).
Proof. apply safe_clone. Qed.

Ltac safe_op :=
  first
    [ apply safe_get_prop | apply safe_get_line | apply safe_elem
    | apply safe_at_back | apply safe_spread | apply safe_array_length
    | apply safe_object_entries | apply safe_object_keys
    | apply safe_structuredClone
    | apply safe_alloc; solve [new_solve]
    | apply safe_set_prop; solve [new_solve]
    | apply safe_set_line; solve [new_solve]
    | apply safe_delete_line; solve [new_solve]
    | apply safe_set_elem; solve [new_solve]
    | apply safe_push; solve [new_solve]
    | apply safe_set_elems; solve [new_solve] ].

Ltac safe_step :=
  lazymatch goal with
  | |- Store.safe _ (Store.mbind _ _) _ => eapply safe_bind; [| intros ? ?]
  | |- Store.safe _ (Store.ret _) _ => apply safe_ret; solve [new_solve]
  | |- Store.safe _ (Store.throw _) _ => apply safe_throw
  | |- Store.safe _ Store.stuck _ => apply safe_stuck
  | |- Store.safe _ (match ?g with _ => _ end) _ => destruct g
  | |- Store.safe _ _ _ => safe_op
  end.

(** One statement: the call at the head is settled, the rest is left. *)
Ltac safe_next :=
  eapply safe_bind; [solve [repeat safe_step] | intros ? ?].

Tactic Notation "safe_next" "as" ident(v) ident(H) :=
  eapply safe_bind; [solve [repeat safe_step] | intros v H].

(** ** The constructor *)

Lemma safe_round_box (n : nat) (this : Store.value) (borderWidth : number)
    (lineByBaseHeight : Store.value) (st : number * number * number * number)
    (b : Store.value) :
  Store.new_value n this -> Store.new_value n lineByBaseHeight ->
  Store.safe n (Store.round_box this borderWidth lineByBaseHeight st b)
    (fun _ => True).
Proof.
  intros Hthis Hlines. unfold Store.round_box.
  repeat safe_step.
Qed.

Lemma safe_toBoxEdge (n : nat) (sx sy w h : number) (u : unit)
    (edge : Store.value) :
  Store.new_value n edge ->
  Store.safe n (Store.toBoxEdge sx sy w h u edge) (fun _ => True).
Proof.
  intros Hedge. unfold Store.toBoxEdge. repeat safe_step.
Qed.

Lemma safe_mergeLoop (n : nat) (lineByBaseHeight newLineByBaseHeight : Store.value)
    (prevY2 : number) (rest : list number) :
  Store.new_value n lineByBaseHeight ->
  Store.new_value n newLineByBaseHeight ->
  Store.safe n
    (Store.mergeLoop lineByBaseHeight newLineByBaseHeight prevY2 rest)
    (fun _ => True).
Proof.
  intros Hl Hnew. revert prevY2.
  induction rest as [| currentY2 rest IH]; intros prevY2;
    cbn [Store.mergeLoop].
  - apply safe_ret. exact I.
  - do 3 safe_next.
    eapply safe_bind with (P := fun _ => True).
    { destruct (string_geb (toString currentY2) (toString prevY2)).
      - do 2 safe_next. apply safe_ret. exact I.
      - apply safe_ret. exact I. }
    intros test _.
    eapply safe_bind with (P := fun _ => True).
    { destruct test; repeat safe_step. }
    intros _ _. apply IH.
Qed.

Lemma safe_mergeLines (n : nat) (lineByBaseHeight : Store.value) :
  Store.new_value n lineByBaseHeight ->
  Store.safe n (Store.mergeLines lineByBaseHeight) (Store.new_value n).
Proof.
  intros Hl. unfold Store.mergeLines.
  safe_next as lineKeys Hk.
  destruct lineKeys as [| k ks]; [apply safe_ret; exact Hl |].
  safe_next as ks' Hk'.
  destruct (sortBy (fun a b => a - b) ks') as [| firstValue rest];
    [apply safe_ret; exact Hl |].
  do 3 safe_next.
  eapply safe_bind; [apply safe_mergeLoop; [exact Hl | assumption] |].
  intros _ _. apply safe_ret. assumption.
Qed.

Lemma Forall_map_snd (A B : Type) (P : B -> Prop) (l : list (A * B)) :
  Forall (fun p => P (snd p)) l -> Forall P (map snd l).
Proof. induction 1; cbn; constructor; assumption. Qed.

Lemma safe_sort_by_x1 (n : nat) (a : Store.value) :
  Store.new_value n a ->
  Store.safe n (Store.sort_by_x1 a) (fun _ => True).
Proof.
  intros Ha. unfold Store.sort_by_x1.
  safe_next as es Hes.
  eapply safe_bind.
  { apply safe_traverse
      with (P := Store.new_value n) (Q := fun p => Store.new_value n (snd p));
      [| auto].
    intros v Hv. safe_next. apply safe_ret. exact Hv. }
  intros ks Hks. apply safe_set_elems; [exact Ha |].
  apply Forall_map_snd. apply sortBy_Forall. exact Hks.
Qed.

Lemma safe_partitionLoop (n : nat) (maxSpaceSize : number)
    (boxesSorted partitionedBoxes : Store.value) (i count : nat) :
  Store.new_value n boxesSorted -> Store.new_value n partitionedBoxes ->
  Store.safe n
    (Store.partitionLoop maxSpaceSize boxesSorted partitionedBoxes i count)
    (fun _ => True).
Proof.
  intros Hb Hp. revert i.
  induction count as [| count IH]; intros i; cbn [Store.partitionLoop].
  - apply safe_ret. exact I.
  - do 4 safe_next.
    eapply safe_bind with (P := fun _ => True).
    { match goal with |- context [if ?t then _ else _] => destruct t end;
        repeat safe_step. }
    intros _ _. apply IH.
Qed.

Lemma safe_partitionLine (n : nat) (entry : number * Store.value) :
  Store.new_value n (snd entry) ->
  Store.safe n (Store.partitionLine entry)
    (fun r => Store.new_value n (snd r)).
Proof.
  destruct entry as [y2 obj]. cbn [snd]. intros Hobj.
  unfold Store.partitionLine.
  safe_next.
  eapply safe_bind; [apply safe_sort_by_x1; auto |]. intros _ _.
  do 5 safe_next.
  eapply safe_bind; [apply safe_partitionLoop; new_solve |]. intros _ _.
  apply safe_ret. assumption.
Qed.

Lemma safe_toLineRect (n : nat) (sx sy w h : number)
    (lineRects : Store.value) (y2 : number) (u : unit) (b : Store.value) :
  Store.new_value n lineRects ->
  Store.safe n (Store.toLineRect sx sy w h lineRects y2 u b) (fun _ => True).
Proof.
  intros Hl. unfold Store.toLineRect. repeat safe_step.
Qed.

Lemma safe_toLineRects (n : nat) (sx sy w h : number)
    (lineRects : Store.value) (partitionedLines : list (number * Store.value)) :
  Store.new_value n lineRects ->
  Store.safe n (Store.toLineRects sx sy w h lineRects partitionedLines)
    (fun _ => True).
Proof.
  intros Hl.
  induction partitionedLines as [| [y2 pb] rest IH]; cbn [Store.toLineRects].
  - apply safe_ret. exact I.
  - eapply safe_bind with (P := fun _ => True); [| intros _ _; exact IH].
    apply safe_for_of; [| exact I].
    intros s v _ _. apply safe_toLineRect. exact Hl.
Qed.

Lemma safe_construct (n : nat) (this boxes : Store.value)
    (borderWidth innerMargin : number) (isLTR skipLineRects : bool) :
  Store.new_value n this ->
  Store.safe n
    (Store.construct this boxes borderWidth innerMargin isLTR skipLineRects)
    (fun _ => True).
Proof.
  intros Hthis. unfold Store.construct.
  safe_next.
  eapply safe_bind with (P := fun _ => True).
  { apply safe_for_of; [| exact I].
    intros s v _ _. apply safe_round_box; [exact Hthis | assumption]. }
  intros [[[minX maxX] minY] maxY] _.
  do 6 safe_next.
  eapply safe_bind with (P := fun _ => True).
  { apply safe_for_of; [| exact I].
    intros s v _ Hv. apply safe_toBoxEdge. auto. }
  intros _ _.
  do 2 safe_next.
  destruct skipLineRects; [apply safe_ret; exact I |].
  eapply safe_bind; [apply safe_mergeLines; assumption |]. intros merged Hm.
  safe_next as es Hes.
  eapply safe_bind.
  { apply safe_traverse
      with (P := fun p => Store.new_value n (snd p))
           (Q := fun p => Store.new_value n (snd p)); [| auto].
    intros p Hp. apply safe_partitionLine. exact Hp. }
  intros partitionedLines _.
  safe_next.
  eapply safe_bind; [apply safe_toLineRects; assumption |]. intros _ _.
  safe_step.
Qed.

Lemma safe_new_Outliner (n : nat) (boxes : Store.value)
    (borderWidth innerMargin : number) (isLTR skipLineRects : bool) :
  Store.safe n
    (Store.new_Outliner boxes borderWidth innerMargin isLTR skipLineRects)
    (Store.new_value n).
Proof.
  unfold Store.new_Outliner.
  do 8 safe_next.
  eapply safe_bind; [apply safe_construct; assumption |]. intros _ _.
  apply safe_ret. assumption.
Qed.

(** ** [getOutlines] and [getUnderlinesAndStrikeouts] *)

Lemma safe_read_edge (n : nat) (e : Store.value) :
  Store.safe n (Store.read_edge e) (fun _ => True).
Proof. unfold Store.read_edge. repeat safe_step. Qed.

Lemma safe_sort_edges (n : nat) (a : Store.value) :
  Store.new_value n a ->
  Store.safe n (Store.sort_edges a) (fun _ => True).
Proof.
  intros Ha. unfold Store.sort_edges.
  safe_next as es Hes.
  eapply safe_bind.
  { apply safe_traverse
      with (P := Store.new_value n) (Q := fun p => Store.new_value n (snd p));
      [| auto].
    intros v Hv. eapply safe_bind; [apply safe_read_edge |]. intros e _.
    apply safe_ret. exact Hv. }
  intros ks Hks. apply safe_set_elems; [exact Ha |].
  apply Forall_map_snd. apply sortBy_Forall. exact Hks.
Qed.

Lemma safe_read_intervals (n : nat) (this : Store.value) :
  Store.safe n (Store.read_intervals this) (fun _ => True).
Proof.
  unfold Store.read_intervals.
  do 2 safe_next.
  eapply safe_weaken.
  - apply safe_traverse with (P := fun _ => True) (Q := fun _ => True);
      [| apply Forall_forall; intros; exact I].
    intros v _. repeat safe_step.
  - intros; exact I.
Qed.

Lemma safe_breakRound (n count : nat) (x start end_ results : Store.value)
    (j jj : nat) :
  Store.new_value n x -> Store.new_value n start -> Store.new_value n end_ ->
  Store.new_value n results ->
  Store.safe n (Store.breakRound count x start end_ results j jj)
    (fun _ => True).
Proof.
  intros Hx Hs He Hr. revert j jj.
  induction count as [| count IH]; intros j jj; cbn [Store.breakRound].
  - apply safe_ret. exact I.
  - safe_next as f Hf. safe_next as y3 Hy3. safe_next as y4 Hy4.
    destruct (_ || _); [apply IH |].
    destruct (_ >=? _).
    + destruct (_ >? _).
      * safe_next as f' Hf'. safe_next. apply IH.
      * destruct (Nat.eqb jj 1); [apply safe_ret; exact I |].
        safe_next as es Hes.
        eapply safe_bind; [| intros _ _; apply IH].
        apply safe_set_elems; [exact Hr |].
        unfold splice_out. apply Forall_app. split.
        -- apply Forall_firstn_any. auto.
        -- apply Forall_skipn_any. auto.
    + safe_next as f' Hf'. safe_next.
      eapply safe_bind with (P := fun _ => True);
        [| intros _ _; apply IH].
      destruct (_ >? _); repeat safe_step.
Qed.

Lemma safe_breakLoop (n count i : nat) (this x results : Store.value) :
  Store.new_value n this -> Store.new_value n x ->
  Store.new_value n results ->
  Store.safe n (Store.breakLoop count i this x results) (fun _ => True).
Proof.
  intros Hthis Hx Hr. revert i.
  induction count as [| count IH]; intros i; cbn [Store.breakLoop].
  - apply safe_ret. exact I.
  - safe_next as intervals Hi. safe_next as iv Hiv.
    safe_next as start Hs. safe_next as end_ He. safe_next as jj Hjj.
    eapply safe_bind; [apply safe_breakRound; auto |]. intros stop _.
    destruct stop; [apply safe_ret; exact I | apply IH].
Qed.

Lemma safe_breakEdge (n : nat) (this edge : Store.value) :
  Store.new_value n this -> Store.new_value n edge ->
  Store.safe n (Store.breakEdge this edge) (Store.new_value n).
Proof.
  intros Hthis Hedge. unfold Store.breakEdge.
  safe_next as x Hx. safe_next as y1 Hy1. safe_next as y2 Hy2.
  safe_next as f Hf. safe_next as results Hr.
  eapply safe_bind; [apply safe_read_intervals |]. intros ivs _.
  eapply safe_bind; [apply safe_breakLoop; auto |]. intros stop _.
  destruct stop.
  - safe_next as empty Hempty. apply safe_ret. exact Hempty.
  - apply safe_ret. exact Hr.
Qed.

Lemma safe_splice_intervals (n : nat) (this : Store.value)
    (f : list Store.value -> list Store.value) :
  Store.new_value n this ->
  (forall es, Forall (Store.new_value n) es -> Forall (Store.new_value n) (f es)) ->
  Store.safe n (Store.splice_intervals this f) (fun _ => True).
Proof.
  intros Hthis Hf. unfold Store.splice_intervals.
  safe_next as intervals Hi. safe_next as es Hes.
  apply safe_set_elems; auto.
Qed.

Lemma safe_insert (n : nat) (this edge : Store.value) :
  Store.new_value n this -> Store.new_value n edge ->
  Store.safe n (Store.insert this edge) (fun _ => True).
Proof.
  intros Hthis Hedge. unfold Store.insert.
  do 2 safe_next.
  eapply safe_bind; [apply safe_read_intervals |]. intros ivs _.
  safe_next as iv Hiv.
  apply safe_splice_intervals; [exact Hthis |].
  intros es Hes. unfold splice_in. apply Forall_app. split.
  - apply Forall_firstn_any. exact Hes.
  - constructor; [exact Hiv | apply Forall_skipn_any; exact Hes].
Qed.

Lemma safe_remove (n : nat) (this edge : Store.value) :
  Store.new_value n this ->
  Store.safe n (Store.remove this edge) (fun _ => True).
Proof.
  intros Hthis. unfold Store.remove.
  do 2 safe_next.
  eapply safe_bind; [apply safe_read_intervals |]. intros ivs _.
  assert (Hout : forall i es,
            Forall (Store.new_value n) es ->
            Forall (Store.new_value n) (splice_out i es)).
  { intros i es Hes. unfold splice_out. apply Forall_app. split.
    - apply Forall_firstn_any. exact Hes.
    - apply Forall_skipn_any. exact Hes. }
  destruct (remove_up _ _ _ _) as [i |].
  - apply safe_splice_intervals; [exact Hthis | apply Hout].
  - destruct (remove_down _ _ _ _) as [i |].
    + apply safe_splice_intervals; [exact Hthis | apply Hout].
    + apply safe_ret. exact I.
Qed.

Lemma safe_sweep_step (n : nat) (this outlineVerticalEdges : Store.value)
    (u : unit) (edge : Store.value) :
  Store.new_value n this -> Store.new_value n outlineVerticalEdges ->
  Store.new_value n edge ->
  Store.safe n (Store.sweep_step this outlineVerticalEdges u edge)
    (fun _ => True).
Proof.
  intros Hthis Hout Hedge. unfold Store.sweep_step.
  safe_next as l Hl.
  destruct (Store.to_boolean l).
  - eapply safe_bind; [apply safe_breakEdge; assumption |]. intros r Hr.
    safe_next as fs Hfs.
    eapply safe_bind; [apply safe_push; auto |]. intros _ _.
    apply safe_insert; assumption.
  - eapply safe_bind; [apply safe_remove; assumption |]. intros _ _.
    eapply safe_bind; [apply safe_breakEdge; assumption |]. intros r Hr.
    safe_next as fs Hfs.
    apply safe_push; auto.
Qed.

Lemma safe_push_vertices (n : nat) (edges : Store.value) (u : unit)
    (edge : Store.value) :
  Store.new_value n edges -> Store.new_value n edge ->
  Store.safe n (Store.push_vertices edges u edge) (fun _ => True).
Proof.
  intros He Hedge. unfold Store.push_vertices. repeat safe_step.
Qed.

Lemma safe_sort_vertices (n : nat) (a : Store.value) :
  Store.new_value n a ->
  Store.safe n (Store.sort_vertices a) (fun _ => True).
Proof.
  intros Ha. unfold Store.sort_vertices.
  safe_next as es Hes.
  eapply safe_bind.
  { apply safe_traverse
      with (P := Store.new_value n) (Q := fun p => Store.new_value n (snd p));
      [| auto].
    intros v Hv. do 2 safe_next. apply safe_ret. exact Hv. }
  intros ks Hks. apply safe_set_elems; [exact Ha |].
  apply Forall_map_snd. apply sortBy_Forall. exact Hks.
Qed.

Lemma new_set_add (n : nat) (l : Store.loc) (s : list Store.loc) :
  (n <= l)%nat -> Forall (fun k => (n <= k)%nat) s ->
  Forall (fun k => (n <= k)%nat) (set_add l s).
Proof.
  intros Hl Hs. unfold set_add. destruct (set_has _ _); [exact Hs |].
  apply Forall_app. split; [exact Hs |]. constructor; [exact Hl | constructor].
Qed.

Lemma new_set_delete (n : nat) (l : Store.loc) (s : list Store.loc) :
  Forall (fun k => (n <= k)%nat) s ->
  Forall (fun k => (n <= k)%nat) (set_delete l s).
Proof. apply Forall_filter. Qed.

Lemma safe_link (n count i : nat) (edges : Store.value)
    (allEdges : list Store.loc) :
  Store.new_value n edges -> Forall (fun k => (n <= k)%nat) allEdges ->
  Store.safe n (Store.link count i edges allEdges)
    (Forall (fun k => (n <= k)%nat)).
Proof.
  intros He. revert i allEdges.
  induction count as [| count IH]; intros i allEdges Hall; cbn [Store.link].
  - apply safe_ret. exact Hall.
  - safe_next as v1 Hv1. safe_next as edge1 H1.
    safe_next as v2 Hv2. safe_next as edge2 H2.
    do 2 safe_next.
    destruct edge1 as [| | | l1]; try apply safe_stuck.
    destruct edge2 as [| | | l2]; try apply safe_stuck.
    apply IH. apply new_set_add; [exact (H2 (Hv2 He)) |].
    apply new_set_add; [exact (H1 (Hv1 He)) | exact Hall].
Qed.

Lemma safe_walk (n fuel : nat) (allEdges : list Store.loc)
    (edge1 edge2 lastPointX lastPointY outline : Store.value) :
  Forall (fun k => (n <= k)%nat) allEdges ->
  Store.new_value n lastPointX -> Store.new_value n lastPointY ->
  Store.new_value n outline ->
  Store.safe n
    (Store.walk fuel allEdges edge1 edge2 lastPointX lastPointY outline)
    (Forall (fun k => (n <= k)%nat)).
Proof.
  revert allEdges edge1 edge2 lastPointX lastPointY.
  induction fuel as [| fuel IH];
    intros allEdges edge1 edge2 lastPointX lastPointY Hall Hx Hy Ho;
    cbn [Store.walk].
  - safe_next. apply safe_ret. exact Hall.
  - assert (Hnext : forall v, Store.has allEdges v = true ->
                              Store.new_value n v).
    { intros [| | | l] Hv; cbn in Hv |- *; try exact I.
      apply existsb_exists in Hv. destruct Hv as [k [Hin Hk]].
      apply Nat.eqb_eq in Hk. subst k.
      rewrite Forall_forall in Hall. exact (Hall l Hin). }
    set (next := if Store.has allEdges edge1 then edge1
                 else if Store.has allEdges edge2 then edge2
                 else Store.VUndefined).
    assert (Hn : Store.new_value n next).
    { unfold next. destruct (Store.has allEdges edge1) eqn:E1;
        [exact (Hnext _ E1) |].
      destruct (Store.has allEdges edge2) eqn:E2;
        [exact (Hnext _ E2) | exact I]. }
    clearbody next.
    destruct next as [| | | l];
      try (safe_next; apply safe_ret; exact Hall).
    safe_next as x Hx'. safe_next as y1 Hy1. safe_next as y2 Hy2.
    safe_next as e1 He1. safe_next as e2 He2.
    eapply safe_bind with (P := fun _ => True).
    { destruct (negb _); [| apply safe_ret; exact I].
      apply safe_push; [exact Ho |].
      destruct (Store.strict_eq lastPointY y1); new_solve. }
    intros _ _. apply IH.
    + apply new_set_delete. exact Hall.
    + destruct (negb _); auto.
    + destruct (Store.strict_eq lastPointY y1); auto.
    + exact Ho.
Qed.

Lemma safe_trace (n fuel : nat) (allEdges : list Store.loc)
    (outlines : Store.value) :
  Forall (fun k => (n <= k)%nat) allEdges -> Store.new_value n outlines ->
  Store.safe n (Store.trace fuel allEdges outlines) (fun _ => True).
Proof.
  intros Hall Ho. revert allEdges Hall.
  induction fuel as [| fuel IH]; intros allEdges Hall; cbn [Store.trace].
  - apply safe_ret. exact I.
  - destruct allEdges as [| l rest]; [apply safe_ret; exact I |].
    assert (Hl : Store.new_value n (Store.VRef l))
      by (inversion Hall; assumption).
    safe_next as x Hx. safe_next as y1 Hy1. safe_next as y2 Hy2.
    safe_next as edge1 H1. safe_next as edge2 H2.
    safe_next as outline Hout. safe_next.
    eapply safe_bind.
    { apply safe_walk; auto. apply new_set_delete. exact Hall. }
    intros allEdges'' Hall''. apply IH. exact Hall''.
Qed.

(** [Store.walk] never runs out of fuel: with as much fuel as there are
    edges in the set, more fuel gives the same result. *)
Lemma has_in (allEdges : list Store.loc) (l : Store.loc) :
  Store.has allEdges (Store.VRef l) = true -> In l allEdges.
Proof.
  cbn. intros H. apply existsb_exists in H. destruct H as [k [Hin Hk]].
  apply Nat.eqb_eq in Hk. subst k. exact Hin.
Qed.

Lemma next_in (allEdges : list Store.loc) (edge1 edge2 : Store.value)
    (l : Store.loc) :
  (if Store.has allEdges edge1 then edge1
   else if Store.has allEdges edge2 then edge2 else Store.VUndefined)
  = Store.VRef l ->
  In l allEdges.
Proof.
  destruct (Store.has allEdges edge1) eqn:E1.
  - intros ->. apply has_in. exact E1.
  - destruct (Store.has allEdges edge2) eqn:E2; [| discriminate].
    intros ->. apply has_in. exact E2.
Qed.

Ltac run_op :=
  match goal with
  | |- context [match ?m ?h with _ => _ end] =>
      match type of h with
      | Store.heap => destruct (m h) as [[? | ? |] ?]; try reflexivity
      end
  end.

Lemma store_walk_fuel (fuel : nat) :
  forall allEdges edge1 edge2 lx ly outline extra h,
  (List.length allEdges <= fuel)%nat ->
  Store.walk (fuel + extra) allEdges edge1 edge2 lx ly outline h
  = Store.walk fuel allEdges edge1 edge2 lx ly outline h.
Proof.
  induction fuel as [| fuel IH];
    intros allEdges edge1 edge2 lx ly outline extra h Hlen.
  - destruct allEdges; [| simpl in Hlen; lia].
    destruct extra; [reflexivity |]. cbn [Nat.add Store.walk].
    destruct edge1, edge2; reflexivity.
  - cbn [Nat.add Store.walk].
    destruct (if Store.has allEdges edge1 then edge1
              else if Store.has allEdges edge2 then edge2
              else Store.VUndefined) as [| | | l] eqn:E; try reflexivity.
    pose proof (next_in allEdges edge1 edge2 l E) as Hin.
    pose proof (set_delete_shorter l allEdges Hin) as Hshort.
    unfold Store.mbind.
    do 6 run_op.
    apply IH. lia.
Qed.

Lemma store_walk_shrinks (fuel : nat) :
  forall allEdges edge1 edge2 lx ly outline h s,
  fst (Store.walk fuel allEdges edge1 edge2 lx ly outline h)
    = Store.Returned s ->
  (List.length s <= List.length allEdges)%nat.
Proof.
  induction fuel as [| fuel IH];
    intros allEdges edge1 edge2 lx ly outline h s.
  - cbn [Store.walk]. unfold Store.mbind.
    destruct (Store.push outline [lx; ly] h) as [[? | ? |] ?]; cbn;
      intros E; inversion E; subst; lia.
  - cbn [Store.walk].
    destruct (if Store.has allEdges edge1 then edge1
              else if Store.has allEdges edge2 then edge2
              else Store.VUndefined) as [| | | l] eqn:E;
      try (unfold Store.mbind;
           destruct (Store.push outline [lx; ly] h) as [[? | ? |] ?]; cbn;
           intros E'; inversion E'; subst; lia).
    unfold Store.mbind.
    repeat match goal with
    | |- context [match ?m ?h0 with _ => _ end] =>
        match type of h0 with
        | Store.heap =>
            destruct (m h0) as [[? | ? |] ?];
            try (cbn; intros E'; discriminate E')
        end
    end.
    intros Hs. apply IH in Hs.
    pose proof (set_delete_length l allEdges). lia.
Qed.

(** [Store.trace] never runs out of fuel either. *)
Lemma store_trace_fuel (fuel : nat) :
  forall allEdges outlines extra h,
  (List.length allEdges <= fuel)%nat ->
  Store.trace (fuel + extra) allEdges outlines h
  = Store.trace fuel allEdges outlines h.
Proof.
  induction fuel as [| fuel IH]; intros allEdges outlines extra h Hlen.
  - destruct allEdges; [| simpl in Hlen; lia].
    destruct extra; reflexivity.
  - cbn [Nat.add Store.trace]. destruct allEdges as [| l rest]; [reflexivity |].
    unfold Store.mbind.
    do 7 run_op.
    match goal with
    | |- context [Store.walk ?f ?s ?a ?b ?c ?d ?e ?h0] =>
        pose proof (store_walk_shrinks f s a b c d e h0) as Hs;
        destruct (Store.walk f s a b c d e h0) as [[s' | ? |] h'];
        try reflexivity
    end.
    specialize (Hs s' eq_refl).
    apply IH.
    pose proof (set_delete_shorter l (l :: rest) (or_introl eq_refl)).
    cbn [List.length] in *. lia.
Qed.

Lemma safe_traceOutlines (n : nat) (this outlineVerticalEdges : Store.value) :
  Store.new_value n this -> Store.new_value n outlineVerticalEdges ->
  Store.safe n (Store.traceOutlines this outlineVerticalEdges)
    (Store.new_value n).
Proof.
  intros Hthis Hout. unfold Store.traceOutlines.
  safe_next as edges He.
  eapply safe_bind with (P := fun _ => True).
  { apply safe_for_of; [| exact I].
    intros s v _ Hv. apply safe_push_vertices; auto. }
  intros _ _.
  eapply safe_bind; [apply safe_sort_vertices; exact He |]. intros _ _.
  safe_next as ii Hii.
  eapply safe_bind; [apply safe_link; [exact He | constructor] |].
  intros allEdges Hall.
  safe_next as outlines Ho.
  eapply safe_bind; [apply safe_trace; assumption |]. intros _ _.
  safe_next as box Hbox. safe_next as lineRects Hlr.
  safe_next as result Hres.
  apply safe_ret. exact Hres.
Qed.

Lemma safe_getOutlines (n : nat) (this : Store.value) :
  Store.new_value n this ->
  Store.safe n (Store.getOutlines this) (Store.new_value n).
Proof.
  intros Hthis. unfold Store.getOutlines.
  safe_next as verticalEdges Hve.
  eapply safe_bind; [apply safe_sort_edges; auto |]. intros _ _.
  safe_next as outlineVerticalEdges Hout.
  safe_next as verticalEdges' Hve'.
  eapply safe_bind with (P := fun _ => True).
  { apply safe_for_of; [| exact I].
    intros s v _ Hv. apply safe_sweep_step; auto. }
  intros _ _. apply safe_traceOutlines; assumption.
Qed.

Lemma safe_getUnderlinesAndStrikeouts (n : nat) (this : Store.value) :
  Store.new_value n this ->
  Store.safe n (Store.getUnderlinesAndStrikeouts this) (Store.new_value n).
Proof.
  intros Hthis. unfold Store.getUnderlinesAndStrikeouts.
  safe_next as box Hbox. safe_next as lineRects Hlr.
  safe_next as result Hres.
  apply safe_ret. exact Hres.
Qed.

Lemma safe_session (n : nat) (boxes : Store.value)
    (borderWidth innerMargin : number) (isLTR skipLineRects : bool)
    (ms : list Store.method) :
  Store.safe n
    (Store.session boxes borderWidth innerMargin isLTR skipLineRects ms)
    (fun r => Store.new_value n (fst r) /\ Forall (Store.new_value n) (snd r)).
Proof.
  unfold Store.session.
  eapply safe_bind; [apply safe_new_Outliner |]. intros this Hthis.
  eapply safe_bind.
  { apply safe_traverse with (P := fun _ => True) (Q := Store.new_value n);
      [| apply Forall_forall; intros; exact I].
    intros m _. destruct m; cbn [Store.call].
    - apply safe_getOutlines. exact Hthis.
    - apply safe_getUnderlinesAndStrikeouts. exact Hthis. }
  intros results Hres. apply safe_ret. split; assumption.
Qed.

Lemma keeps_extends (h h' : Store.heap) :
  Store.keeps (List.length h) h h' -> Store.extends h h'.
Proof.
  intros [_ K] l c Hc. rewrite K; [exact Hc |].
  apply nth_error_Some. congruence.
Qed.

(** ** What is reached from a new object is new *)

Lemma new_cell_values (n : nat) (c : Store.cell) :
  Store.new_cell n c -> Forall (Store.new_value n) (Store.cell_values c).
Proof.
  destruct c as [es | ps | ls]; cbn; intros H;
    [exact H | apply Forall_map_snd; exact H | apply Forall_map_snd; exact H].
Qed.

Lemma reaches_new (n : nat) (h : Store.heap) (v : Store.value) (l : Store.loc) :
  Store.closed n h -> Store.new_value n v -> Store.reaches h v l ->
  (n <= l)%nat.
Proof.
  intros [_ Hc] Hv Hr. induction Hr as [l | l c v l' Hl Hin _ IH].
  - exact Hv.
  - apply IH. pose proof (new_cell_values n c (Hc l c Hv Hl)) as Hall.
    rewrite Forall_forall in Hall. apply Hall. exact Hin.
Qed.

(** ** Reading the rectangles of the caller *)

Lemma reads_only_ret (A : Type) (a : A) : Store.reads_only (Store.ret a).
Proof. intros h. split; [reflexivity |]. intros h' a' _ E. exact E. Qed.

Lemma reads_only_throw (A : Type) (e : error) :
  Store.reads_only (@Store.throw A e).
Proof. intros h. split; [reflexivity |]. intros h' a' _ E. discriminate E. Qed.

Lemma reads_only_stuck (A : Type) : Store.reads_only (@Store.stuck A).
Proof. intros h. split; [reflexivity |]. intros h' a' _ E. discriminate E. Qed.

Lemma reads_only_bind (A B : Type) (m : Store.M A) (k : A -> Store.M B) :
  Store.reads_only m -> (forall a, Store.reads_only (k a)) ->
  Store.reads_only (Store.mbind m k).
Proof.
  intros Hm Hk h. destruct (Hm h) as [S1 R1]. unfold Store.mbind.
  destruct (m h) as [[a | e |] h1] eqn:E; cbn [fst snd] in *; subst h1.
  - destruct (Hk a h) as [S2 R2]. split; [exact S2 |].
    intros h' b Hext Eb.
    pose proof (R1 h' a Hext eq_refl) as E'.
    destruct (Hm h') as [S1' _].
    destruct (m h') as [o h1']; cbn [fst snd] in *; subst.
    exact (R2 h' b Hext Eb).
  - split; [reflexivity |]. intros h' b _ Eb. discriminate Eb.
  - split; [reflexivity |]. intros h' b _ Eb. discriminate Eb.
Qed.

Lemma reads_only_read (l : Store.loc) : Store.reads_only (Store.read l).
Proof.
  intros h. unfold Store.read. split.
  - destruct (nth_error h l); reflexivity.
  - intros h' c Hext E. destruct (nth_error h l) as [c' |] eqn:El;
      [| discriminate E].
    cbn in E. inversion E; subst. rewrite (Hext l c El). reflexivity.
Qed.

Ltac reads_step :=
  lazymatch goal with
  | |- Store.reads_only (Store.mbind _ _) =>
      apply reads_only_bind; [| intros ?]
  | |- Store.reads_only (Store.ret _) => apply reads_only_ret
  | |- Store.reads_only (Store.throw _) => apply reads_only_throw
  | |- Store.reads_only Store.stuck => apply reads_only_stuck
  | |- Store.reads_only (Store.read _) => apply reads_only_read
  | |- Store.reads_only (match ?g with _ => _ end) => destruct g
  end.

Lemma reads_only_get_prop (o : Store.value) (k : string) :
  Store.reads_only (Store.get_prop o k).
Proof. unfold Store.get_prop. repeat reads_step. Qed.

Lemma reads_only_spread (a : Store.value) : Store.reads_only (Store.spread a).
Proof. unfold Store.spread. repeat reads_step. Qed.

Lemma reads_only_traverse (A B : Type) (f : A -> Store.M B) (l : list A) :
  (forall a, Store.reads_only (f a)) -> Store.reads_only (Store.traverse f l).
Proof.
  intros Hf. induction l as [| a l IH]; cbn [Store.traverse].
  - apply reads_only_ret.
  - apply reads_only_bind; [apply Hf |]. intros b.
    apply reads_only_bind; [exact IH |]. intros bs. apply reads_only_ret.
Qed.

Lemma reads_only_read_rect (b : Store.value) :
  Store.reads_only (Store.read_rect b).
Proof.
  unfold Store.read_rect.
  repeat (apply reads_only_bind; [apply reads_only_get_prop | intros ?]).
  apply reads_only_ret.
Qed.

Lemma reads_only_read_boxes (boxes : Store.value) :
  Store.reads_only (Store.read_boxes boxes).
Proof.
  unfold Store.read_boxes.
  apply reads_only_bind; [apply reads_only_spread |]. intros es.
  apply reads_only_traverse. apply reads_only_read_rect.
Qed.

(** C10.  The caller's objects after a use of the class.  Whatever the
    store [h] and the argument [boxes] are, after [new Outliner(boxes, ...)]
    and any calls of [getOutlines] and [getUnderlinesAndStrikeouts]: every
    object of [h] is what it was; so the array [boxes] reads as the same
    rectangles, with the same length and the same [x], [y], [width] and
    [height]; and every object reached from the instance or from a result
    (the edges, the intervals, the line rectangles, the box) was made by
    these calls. *)
Theorem caller_boxes_untouched (h : Store.heap) (boxes : Store.value)
    (borderWidth innerMargin : number) (isLTR skipLineRects : bool)
    (ms : list Store.method) :
  let r := Store.session boxes borderWidth innerMargin isLTR skipLineRects
             ms h in
  Store.extends h (snd r) /\
  (forall bs, fst (Store.read_boxes boxes h) = Store.Returned bs ->
              fst (Store.read_boxes boxes (snd r)) = Store.Returned bs) /\
  (forall this results l,
     fst r = Store.Returned (this, results) ->
     Store.reaches (snd r) this l \/
     Exists (fun v => Store.reaches (snd r) v l) results ->
     (List.length h <= l)%nat).
Proof.
  intros r.
  destruct (safe_session (List.length h) boxes borderWidth innerMargin isLTR
              skipLineRects ms h (closed_start h)) as [Hc [Hk Hr]].
  fold r in Hc, Hk, Hr.
  pose proof (keeps_extends h (snd r) Hk) as Hext.
  split; [exact Hext |]. split.
  - intros bs Hbs.
    exact (proj2 (reads_only_read_boxes boxes h) (snd r) bs Hext Hbs).
  - intros this results l E Hl.
    destruct (Hr (this, results) E) as [Hthis Hres]. cbn [fst snd] in *.
    destruct Hl as [Hl | Hl].
    + exact (reaches_new (List.length h) (snd r) this l Hc Hthis Hl).
    + apply Exists_exists in Hl. destruct Hl as [v [Hin Hv]].
      rewrite Forall_forall in Hres.
      exact (reaches_new (List.length h) (snd r) v l Hc (Hres v Hin) Hv).
Qed.

Lemma caller_boxes_witness :
  let h := Store.store_of swapped_boxes in
  let boxes := Store.boxes_of swapped_boxes in
  let r := Store.session boxes (num 0) (num 0) true false
             [Store.GetOutlines; Store.GetUnderlinesAndStrikeouts] h in
  fst (Store.read_boxes boxes h) = Store.Returned swapped_boxes /\
  (exists this results, fst r = Store.Returned (this, results)) /\
  fst (Store.read_boxes boxes (snd r)) = Store.Returned swapped_boxes.
Proof.
  intros h boxes r.
  assert (Hread : fst (Store.read_boxes boxes h) = Store.Returned swapped_boxes)
    by (vm_compute; reflexivity).
  split; [exact Hread |]. split.
  - eexists. eexists. vm_compute. reflexivity.
  - exact (proj1 (proj2 (caller_boxes_untouched h boxes (num 0) (num 0) true
                           false
                           [Store.GetOutlines; Store.GetUnderlinesAndStrikeouts]))
             swapped_boxes Hread).
Defined.

(** ** The store and the values

    On these inputs the constructor and [getOutlines] on the store return
    what they return on values. *)

Ltac agrees_by_computation :=
  unfold agrees;
  match goal with
  | |- match ?r with _ => _ end =>
      let v := eval vm_compute in r in
      change r with v; cbv beta iota
  end;
  first
    [ vm_compute; reflexivity
    | eexists; split; [vm_compute; reflexivity |];
      split; [vm_compute; reflexivity |];
      match goal with
      | |- match ?r with _ => _ end =>
          let v := eval vm_compute in r in
          change r with v; cbv beta iota
      end;
      split; vm_compute; reflexivity ].

Lemma agrees_jitter : agrees jitter_boxes (num 0) (num 0) true false.
Proof. agrees_by_computation. Qed.

Lemma agrees_swapped : agrees swapped_boxes (num 0) (num 0) false false.
Proof. agrees_by_computation. Qed.

Lemma agrees_abutting : agrees abutting_boxes (num 0) (num 0) true false.
Proof. agrees_by_computation. Qed.

Lemma agrees_line : agrees line_boxes (num 1) (num 2) true false.
Proof. agrees_by_computation. Qed.

Lemma agrees_skip : agrees line_boxes (num 0) (num 0) false true.
Proof. agrees_by_computation. Qed.

Lemma agrees_empty : agrees [] (num 0) (num 0) true false.
Proof. agrees_by_computation. Qed.

Lemma agrees_overlapping : agrees overlapping_boxes (num 0) (num 0) true false.
Proof. agrees_by_computation. Qed.

Lemma agrees_cross : agrees cross_boxes (num 0) (num 1) false false.
Proof. agrees_by_computation. Qed.

Lemma agrees_nested : agrees nested_boxes (num 0) (num 0) true false.
Proof. agrees_by_computation. Qed.

(** * The editors that call the outliner *)

(** ** The boxes of a selection *)





Lemma selectionBoxes_kept (rotation : number) (layer : rect) (bboxes : list rect) :
  AnnotationEditorLayer.selectionBoxes rotation layer bboxes
  = map (fun b => AnnotationEditorLayer.rotator rotation layer
                    (x b) (y b) (width b) (height b))
        (filter has_size bboxes).
Proof.
  induction bboxes as [| b rest IH]; [reflexivity |].
  destruct b as [bx by_ bw bh].
  cbn [AnnotationEditorLayer.selectionBoxes filter].
  unfold has_size at 1. cbn [width height].
  destruct ((bw === Fin 0) || (bh === Fin 0)); cbn [negb].
  - exact IH.
  - cbn [map x y width height]. rewrite IH. reflexivity.
Qed.

(** X4.  [pointerUpAfterSelection], from the rectangles of the selection
    on.  The boxes given on are those that the [rotator] makes of the
    rectangles whose width and height are both different from 0, one box
    per rectangle and in their order.  They are given to
    [addTempHighlight] (generic mode) or to [#createAndAddNewEditor] only
    when there is at least one; the list given on is never empty, and the
    outliners of the temporary highlight are then built without the
    exception of the constructor.  When nothing is given on, every
    rectangle of the selection has no width or no height. *)
Theorem selection_boxes_handed_on (generic ltr : bool) (rotation : number)
    (layer : rect) (bboxes : list rect) :
  match AnnotationEditorLayer.pointerUpAfterSelection generic rotation layer bboxes with
  | AnnotationEditorLayer.AddTempHighlight boxes =>
      generic = true /\ boxes <> [] /\
      boxes = map (fun b => AnnotationEditorLayer.rotator rotation layer
                              (x b) (y b) (width b) (height b))
                  (filter has_size bboxes) /\
      exists this,
        AnnotationEditorLayer.tempHighlight ltr
          (AnnotationEditorLayer.AddTempHighlight boxes) = Some (Normal this)
  | AnnotationEditorLayer.CreateAndAddNewEditor boxes =>
      generic = false /\ boxes <> [] /\
      boxes = map (fun b => AnnotationEditorLayer.rotator rotation layer
                              (x b) (y b) (width b) (height b))
                  (filter has_size bboxes)
  | AnnotationEditorLayer.RemoveTempHighlight =>
      generic = true /\ filter has_size bboxes = []
  | AnnotationEditorLayer.NoAction =>
      generic = false /\ filter has_size bboxes = []
  end.
Proof.
  pose proof (selectionBoxes_kept rotation layer bboxes) as Hk.
  unfold AnnotationEditorLayer.pointerUpAfterSelection.
  destruct (AnnotationEditorLayer.selectionBoxes rotation layer bboxes)
    as [| b0 boxes] eqn:E.
  - assert (Hnil : filter has_size bboxes = []).
    { destruct (filter has_size bboxes); [reflexivity | discriminate Hk]. }
    destruct generic; cbn; split; [reflexivity | exact Hnil | reflexivity | exact Hnil].
  - destruct generic; cbn [List.length Nat.eqb negb].
    + split; [reflexivity |]. split; [discriminate |]. split; [exact Hk |].
      unfold AnnotationEditorLayer.tempHighlight, HighlightEditor.createOutlines.
      assert (Hne : b0 :: boxes <> []) by discriminate.
      destruct (construct_returns (b0 :: boxes) (Fin (1 # 1000)) (Fin 0) true false Hne)
        as [o1 [e1 [_ [C1 _]]]].
      destruct (construct_returns (b0 :: boxes) (Fin (1 # 400)) (Fin (1 # 1000)) ltr false Hne)
        as [o2 [e2 [_ [C2 _]]]].
      rewrite C1. cbn [bind]. rewrite C2. cbn [bind].
      eexists. reflexivity.
    + split; [reflexivity |]. split; [discriminate |]. exact Hk.
Qed.

(** * More on the outliner *)

(** ** A second call of [getOutlines] *)

Lemma edge_cmp_lex (a b : edge) :
  finite_edge a -> finite_edge b -> edge_lex a b ->
  (edge_cmp a b >? Fin 0) = false.
Proof.
  intros Ha Hb Hlex.
  rewrite (finite_edge_Fin a Ha), (finite_edge_Fin b Hb).
  unfold edge_lex in Hlex.
  set (ax := qv (ex a)) in *. set (ay1 := qv (ey1 a)) in *.
  set (ay2 := qv (ey2 a)) in *. set (bx := qv (ex b)) in *.
  set (by1 := qv (ey1 b)) in *. set (by2 := qv (ey2 b)) in *.
  unfold edge_cmp, or_else, sub, truthy. cbn [ex ey1 ey2].
  destruct (Qeq_bool (Qred (ax - bx)) 0) eqn:Ex; cbn [negb].
  - apply Qeq_bool_iff in Ex. rewrite Qred_correct in Ex.
    destruct (Qeq_bool (Qred (ay1 - by1)) 0) eqn:Ey1; cbn [negb].
    + apply Qeq_bool_iff in Ey1. rewrite Qred_correct in Ey1.
      apply gtb_Fin_false. rewrite Qred_correct.
      destruct Hlex as [H | [_ [H | [_ H]]]]; lra.
    + apply Qeq_bool_neq in Ey1. rewrite Qred_correct in Ey1.
      apply gtb_Fin_false. rewrite Qred_correct.
      destruct Hlex as [H | [_ [H | [H _]]]]; try lra;
        exfalso; apply Ey1; lra.
  - apply Qeq_bool_neq in Ex. rewrite Qred_correct in Ex.
    apply gtb_Fin_false. rewrite Qred_correct.
    destruct Hlex as [H | [H _]]; try lra;
      exfalso; apply Ex; lra.
Qed.

(** Sorting sorted edges changes nothing. *)
Lemma sort_edges_again (l : list edge) :
  Forall finite_edge l -> StronglySorted edge_lex l -> sortBy edge_cmp l = l.
Proof.
  intros Hf Hs. induction Hs as [| a l Hs IH Ha]; [reflexivity |].
  inversion Hf as [| ? ? Hfa Hfl]; subst.
  cbn [sortBy]. rewrite (IH Hfl).
  destruct l as [| b l']; [reflexivity |].
  cbn [sort_insert].
  inversion Ha as [| ? ? Hab _]; subst. inversion Hfl as [| ? ? Hfb _]; subst.
  rewrite (edge_cmp_lex a b Hfa Hfb Hab). reflexivity.
Qed.

(** The state of the sweep is kept along the edges. *)
Lemma sweep_inv_fold (S : list edge) :
  forall (P : list edge) (I : list interval) (out : list frag),
  sweep_inv P I -> Forall proper_edge S ->
  (forall S1 e S2, S = S1 ++ e :: S2 -> isLeft e = false ->
     (count (right_if (on_edge (fun a b => (a === ey1 e) && (b === ey2 e)))) (P ++ S1)
      < count (left_if (on_edge (fun a b => (a === ey1 e) && (b === ey2 e)))) (P ++ S1))%nat) ->
  sweep_inv (P ++ S) (fst (fold_left sweep_step S (I, out))).
Proof.
  induction S as [| e S IH]; intros P I out Hinv HS Hbal.
  - rewrite app_nil_r. exact Hinv.
  - inversion HS as [| ? ? He HS']; subst.
    assert (Hbal' : forall S1 e' S2, S = S1 ++ e' :: S2 -> isLeft e' = false ->
      (count (right_if (on_edge (fun a b => (a === ey1 e') && (b === ey2 e'))))
         ((P ++ [e]) ++ S1)
       < count (left_if (on_edge (fun a b => (a === ey1 e') && (b === ey2 e'))))
           ((P ++ [e]) ++ S1))%nat).
    { intros S1 e' S2 HS2 Hl'. rewrite <- app_assoc. simpl.
      apply (Hbal (e :: S1) e' S2); [rewrite HS2; reflexivity | exact Hl']. }
    replace (P ++ e :: S) with ((P ++ [e]) ++ S)
      by (rewrite <- app_assoc; reflexivity).
    cbn [fold_left sweep_step]. destruct (isLeft e) eqn:El.
    + apply IH; [apply sweep_inv_left; assumption | exact HS' | exact Hbal'].
    + apply IH; [| exact HS' | exact Hbal'].
      apply sweep_inv_right; try assumption.
      pose proof (Hbal [] e S eq_refl El) as Hb0. rewrite app_nil_r in Hb0.
      exact Hb0.
Qed.

Lemma count_length (A : Type) (l : list A) :
  count (fun _ => true) l = List.length l.
Proof.
  unfold count. induction l as [| a l IH]; [reflexivity |].
  simpl. rewrite IH. reflexivity.
Qed.

(** After the sweep of the sorted edges of rectangles the interval array
    is empty. *)
Lemma sweep_leaves_no_interval (rects : list qrect) :
  Forall wf_rect rects ->
  fst (sweep [] (sortBy edge_cmp (all_edges rects))) = [].
Proof.
  intros Hwf.
  pose proof (sort_edges_sorted (all_edges rects) (all_edges_finite rects)) as Hsort.
  pose proof (sortBy_perm edge edge_cmp (all_edges rects)) as Hperm.
  set (L := sortBy edge_cmp (all_edges rects)) in *.
  pose proof (balanced_sorted rects L Hwf Hperm Hsort) as Hbal.
  assert (Hinv : sweep_inv ([] ++ L) (fst (fold_left sweep_step L ([], [])))).
  { apply sweep_inv_fold.
    - exact sweep_inv_start.
    - eapply Permutation_Forall; [apply Permutation_sym; exact Hperm |].
      apply all_edges_proper. exact Hwf.
    - intros S1 e S2 HL Hl. simpl. apply (Hbal S1 e S2 HL Hl). }
  unfold sweep. simpl app in Hinv.
  set (I := fst (fold_left sweep_step L ([], []))) in *.
  assert (Hc : compat (fun _ _ => true)) by (intros a a' b b' _ _; reflexivity).
  pose proof (si_count Hinv Hc) as Hcount.
  rewrite (count_perm _ _ _ _ Hperm) in Hcount.
  rewrite (count_perm _ (left_if _) _ _ Hperm) in Hcount.
  rewrite !count_all_edges in Hcount.
  unfold right_if, left_if, on_edge, on_interval in Hcount. cbn [isLeft left_edge right_edge negb andb] in Hcount.
  rewrite !count_length in Hcount.
  rewrite (count_false _ (fun _ : qrect => false) rects (fun _ _ => eq_refl))
    in Hcount.
  destruct I as [| iv I']; [reflexivity |]. simpl in Hcount. lia.
Qed.

(** X5.  [getOutlines] can be called again.  On an instance whose
    interval array is empty and whose vertical edges are the left and
    right sides of rectangles with finite coordinates and a positive size
    (what the constructor leaves when the rounded rectangles, as computed
    and converted, are such), the sweep of [getOutlines] leaves the
    interval array empty again and the edges sorted; a second call on the
    instance gives the same result as the first and leaves the same
    instance. *)
Theorem getOutlines_twice (o : Outliner) (rects : list qrect) :
  o_verticalEdges o = all_edges rects -> Forall wf_rect rects ->
  o_intervals o = [] ->
  o_intervals (fst (getOutlines o)) = [] /\
  o_verticalEdges (fst (getOutlines o)) = sortBy edge_cmp (o_verticalEdges o) /\
  getOutlines (fst (getOutlines o)) = getOutlines o.
Proof.
  intros He Hwf Hi.
  pose proof (sweep_leaves_no_interval _ Hwf) as Hempty.
  pose proof (sort_edges_sorted _ (all_edges_finite rects)) as Hsorted.
  assert (Hf : Forall finite_edge (sortBy edge_cmp (all_edges rects))).
  { apply sortBy_Forall. apply all_edges_finite. }
  pose proof (sort_edges_again _ Hf Hsorted) as Hagain.
  unfold getOutlines. rewrite Hi, He.
  destruct (sweep [] (sortBy edge_cmp (all_edges rects)))
    as [intervals out] eqn:Es.
  cbn [fst snd o_intervals o_verticalEdges o_box o_lineRects] in *.
  subst intervals.
  split; [reflexivity |]. split; [reflexivity |].
  rewrite Hagain, Es. reflexivity.
Qed.

(** The two overlapping squares. *)
Lemma getOutlines_twice_witness :
  let o := MkOutliner (BBox (num 0) (num 0) (num 1) (num 1) (num 1, num 1))
             (all_edges overlapping_rects) [] [] in
  (o_verticalEdges o = all_edges overlapping_rects /\
   Forall wf_rect overlapping_rects /\ o_intervals o = []) /\
  o_intervals (fst (getOutlines o)) = [] /\
  getOutlines (fst (getOutlines o)) = getOutlines o.
Proof.
  intros o.
  split; [split; [reflexivity | split; [exact (proj1 overlapping_rects_ok) | reflexivity]] |].
  destruct (getOutlines_twice o overlapping_rects eq_refl
              (proj1 overlapping_rects_ok) eq_refl) as [H1 [_ H3]].
  split; assumption.
Defined.

(** ** [#binarySearch] *)

(** X6.  [#binarySearch(y)] on an interval array with finite bounds that
    is sorted by the start of the intervals returns an index [r] between
    0 and the length of the array such that every interval before [r]
    starts at [y] or before and every interval from [r] on starts at [y]
    or after; when an interval starts at [y], the interval at [r] does. *)
Theorem binarySearch_contract (array : list interval) (y : Q) :
  Forall finite_interval array -> sorted_by_start array ->
  (binarySearch array (Fin y) <= List.length array)%nat /\
  (forall i, (i < binarySearch array (Fin y))%nat -> (st array i <= y)%Q) /\
  (forall i, (binarySearch array (Fin y) <= i < List.length array)%nat ->
     (y <= st array i)%Q) /\
  ((exists i, (i < List.length array)%nat /\ (st array i == y)%Q) ->
   (binarySearch array (Fin y) < List.length array)%nat /\
   (st array (binarySearch array (Fin y)) == y)%Q).
Proof.
  intros Hf Hs.
  destruct (binarySearch_spec array y Hf Hs) as [H1 [H2 [H3 H4]]].
  split; [exact H1 |]. split; [exact H2 |]. split; [exact H3 |].
  intros [i [Hi Hy]]. destruct H4 as [H4 | H4]; [exact H4 |].
  exfalso. exact (H4 i Hi Hy).
Qed.

Lemma binarySearch_contract_witness :
  (Forall finite_interval sample_intervals /\ sorted_by_start sample_intervals) /\
  binarySearch sample_intervals (Fin 1) = 2%nat /\
  (st sample_intervals (binarySearch sample_intervals (Fin 1)) == 1)%Q.
Proof.
  split; [split; [exact sample_intervals_finite | exact sample_intervals_sorted] |].
  split; [reflexivity |].
  refine (proj2 (proj2 (proj2 (proj2
            (binarySearch_contract sample_intervals 1
               sample_intervals_finite sample_intervals_sorted))) _)).
  exists 2%nat. split; [simpl; lia | reflexivity].
Defined.

(** ** The outlines of [#getOutlines] *)

Lemma walk_length (es : list frag) (nbrs : list (list nat)) (fuel : nat) :
  forall allEdges edge1 edge2 lx ly outline,
  exists k,
    List.length (fst (walk fuel es nbrs allEdges edge1 edge2 lx ly outline))
    = (List.length outline + 2 + 4 * k)%nat.
Proof.
  induction fuel as [| fuel IH]; intros allEdges edge1 edge2 lx ly outline.
  - exists 0%nat. simpl. rewrite length_app. simpl. lia.
  - cbn [walk].
    destruct (if set_has allEdges edge1 then edge1
              else if set_has allEdges edge2 then edge2 else None) as [e |].
    2:{ exists 0%nat. simpl. rewrite length_app. simpl. lia. }
    destruct (edge_coords es e) as [[x0 y1] y2].
    destruct (negb (lx === x0)).
    + destruct (IH (set_delete e allEdges) (edge_nbr nbrs e 0) (edge_nbr nbrs e 1)
                  x0 (if ly === y1 then y2 else y1)
                  (outline ++ [lx; ly; x0; if ly === y1 then y1 else y2]))
        as [k Hk].
      exists (S k). rewrite Hk, length_app. simpl. lia.
    + destruct (IH (set_delete e allEdges) (edge_nbr nbrs e 0) (edge_nbr nbrs e 1)
                  lx (if ly === y1 then y2 else y1) outline)
        as [k Hk].
      exists k. exact Hk.
Qed.

Lemma trace_lengths (es : list frag) (nbrs : list (list nat)) (fuel : nat) :
  forall allEdges outlines,
  Forall (fun o => exists k, List.length o = (4 + 4 * k)%nat) outlines ->
  Forall (fun o => exists k, List.length o = (4 + 4 * k)%nat)
    (trace fuel es nbrs allEdges outlines).
Proof.
  induction fuel as [| fuel IH]; intros allEdges outlines Hall.
  - destruct allEdges; exact Hall.
  - cbn [trace]. destruct allEdges as [| e rest]; [exact Hall |].
    destruct (edge_coords es e) as [[x0 y1] y2].
    destruct (walk_length es nbrs (List.length (set_delete e (e :: rest)))
                (set_delete e (e :: rest)) (edge_nbr nbrs e 0) (edge_nbr nbrs e 1)
                x0 y1 [x0; y2]) as [k Hk].
    destruct (walk (List.length (set_delete e (e :: rest))) es nbrs
                (set_delete e (e :: rest)) (edge_nbr nbrs e 0) (edge_nbr nbrs e 1)
                x0 y1 [x0; y2]) as [outline allEdges''].
    apply IH. apply Forall_app. split; [exact Hall |].
    constructor; [| constructor]. exists k. cbn [fst] in Hk. rewrite Hk.
    simpl. lia.
Qed.

Lemma traceOutlines_lengths (es : list frag) :
  Forall (fun o => exists k, List.length o = (4 + 4 * k)%nat) (traceOutlines es).
Proof.
  unfold traceOutlines.
  destruct (link (sortBy vertex_cmp (vertices_from 0 es))
              (map (fun _ => []) es, [])) as [nbrs allEdges].
  apply trace_lengths. constructor.
Qed.

(** X7.  Every outline that [getOutlines] returns, on any instance, is a
    flat array of [4 + 4 k] numbers: at least two points, each of two
    numbers, and an even number of points. *)
Theorem outlines_are_point_lists (o : Outliner) :
  Forall (fun outline => exists k, List.length outline = (4 + 4 * k)%nat)
    (outlines (snd (getOutlines o))).
Proof.
  rewrite getOutlines_result. cbn [outlines]. apply traceOutlines_lengths.
Qed.

(** ** The bounding box *)

Ltac order_cases a m b :=
  destruct a as [p | | |], m as [q | | |], b as [r | | |];
  unfold Num.min, Num.max;
  repeat match goal with
  | |- context [if ?c then _ else _] => let E := fresh "E" in destruct c eqn:E
  end;
  try reflexivity;
  repeat match goal with
  | H : (PInf <? _) = _ |- _ => cbv in H
  | H : (_ <? PInf) = _ |- _ => cbv in H
  | H : (NInf <? _) = _ |- _ => cbv in H
  | H : (_ <? NInf) = _ |- _ => cbv in H
  | H : (NaN <? _) = _ |- _ => cbv in H
  | H : (_ <? NaN) = _ |- _ => cbv in H
  end;
  try discriminate; try reflexivity;
  num_to_Q;
  try (apply (proj2 (ltb_Fin_false _ _))); try lra.

(** What is not below a bound is not below the bound after a round. *)
Lemma ltb_min_l (a m b : number) :
  (a <? m) = false -> (a <? Num.min m b) = false.
Proof. intros H. order_cases a m b. Qed.

Lemma ltb_min_r (m b : number) : (b <? Num.min m b) = false.
Proof.
  destruct (min_either m b) as [E | E]; rewrite E.
  - unfold Num.min in E. destruct m as [q | | |], b as [r | | |];
      try reflexivity; try discriminate E;
      destruct (_ <? _) eqn:T in E; try discriminate E;
      try (inversion E; subst; clear E); try exact T; try reflexivity;
      num_to_Q; try (apply (proj2 (ltb_Fin_false _ _))); try lra.
  - destruct b as [r | | |]; try reflexivity.
    apply (proj2 (ltb_Fin_false _ _)). lra.
Qed.

Lemma ltb_max_l (a m b : number) :
  (m <? a) = false -> (Num.max m b <? a) = false.
Proof. intros H. order_cases a m b. Qed.

Lemma ltb_max_r (m b : number) : (Num.max m b <? b) = false.
Proof.
  destruct (max_either m b) as [E | E]; rewrite E.
  - unfold Num.max in E. destruct m as [q | | |], b as [r | | |];
      try reflexivity; try discriminate E;
      destruct (_ <? _) eqn:T in E; try discriminate E;
      try (inversion E; subst; clear E); try exact T; try reflexivity;
      num_to_Q; try (apply (proj2 (ltb_Fin_false _ _))); try lra.
  - destruct b as [r | | |]; try reflexivity.
    apply (proj2 (ltb_Fin_false _ _)). lra.
Qed.

(** Each bound of the constructor is that of the start or a side of the
    rounded rectangle of a box. *)
Lemma bounds_attained (bw : number) (boxes : list rect) :
  forall st,
  let st' := fold_left (round_box bw) boxes st in
  (minX st' = minX st \/
   Exists (fun b => minX st' = fst (fst (fst (quantize bw b)))) boxes) /\
  (maxX st' = maxX st \/
   Exists (fun b => maxX st' = snd (fst (fst (quantize bw b)))) boxes) /\
  (minY st' = minY st \/
   Exists (fun b => minY st' = snd (fst (quantize bw b))) boxes) /\
  (maxY st' = maxY st \/
   Exists (fun b => maxY st' = snd (quantize bw b)) boxes).
Proof.
  induction boxes as [| b rest IH]; intros st; cbn [fold_left].
  - cbv zeta. repeat split; left; reflexivity.
  - cbv zeta. destruct (IH (round_box bw st b)) as [A [B [C D]]].
    destruct (round_box_bounds bw st b) as [R1 [R2 [R3 R4]]].
    repeat split.
    + destruct A as [A | A]; [| right; apply Exists_cons_tl; exact A].
      rewrite A, R1. destruct (min_either (minX st) (fst (fst (fst (quantize bw b)))))
        as [E | E]; rewrite E; [left; reflexivity |].
      right. apply Exists_cons_hd. reflexivity.
    + destruct B as [B | B]; [| right; apply Exists_cons_tl; exact B].
      rewrite B, R2. destruct (max_either (maxX st) (snd (fst (fst (quantize bw b)))))
        as [E | E]; rewrite E; [left; reflexivity |].
      right. apply Exists_cons_hd. reflexivity.
    + destruct C as [C | C]; [| right; apply Exists_cons_tl; exact C].
      rewrite C, R3. destruct (min_either (minY st) (snd (fst (quantize bw b))))
        as [E | E]; rewrite E; [left; reflexivity |].
      right. apply Exists_cons_hd. reflexivity.
    + destruct D as [D | D]; [| right; apply Exists_cons_tl; exact D].
      rewrite D, R4. destruct (max_either (maxY st) (snd (quantize bw b)))
        as [E | E]; rewrite E; [left; reflexivity |].
      right. apply Exists_cons_hd. reflexivity.
Qed.

(** No side of a rounded rectangle is beyond the bound of its kind. *)
Lemma bounds_extreme (bw : number) (boxes : list rect) :
  forall st,
  let st' := fold_left (round_box bw) boxes st in
  (Forall (fun b => (q_x1 bw b <? minX st') = false) boxes /\
   forall a, (a <? minX st) = false -> (a <? minX st') = false) /\
  (Forall (fun b => (maxX st' <? q_x2 bw b) = false) boxes /\
   forall a, (maxX st <? a) = false -> (maxX st' <? a) = false) /\
  (Forall (fun b => (q_y1 bw b <? minY st') = false) boxes /\
   forall a, (a <? minY st) = false -> (a <? minY st') = false) /\
  (Forall (fun b => (maxY st' <? q_y2 bw b) = false) boxes /\
   forall a, (maxY st <? a) = false -> (maxY st' <? a) = false).
Proof.
  induction boxes as [| b rest IH]; intros st; cbn [fold_left]; cbv zeta.
  - repeat split; try constructor; intros a H; exact H.
  - destruct (IH (round_box bw st b)) as [[A1 A2] [[B1 B2] [[C1 C2] [D1 D2]]]].
    destruct (round_box_bounds bw st b) as [R1 [R2 [R3 R4]]].
    fold (q_x1 bw b) in R1. fold (q_x2 bw b) in R2.
    fold (q_y1 bw b) in R3. fold (q_y2 bw b) in R4.
    repeat split.
    + constructor; [| exact A1]. apply A2. rewrite R1. apply ltb_min_r.
    + intros a H. apply A2. rewrite R1. apply ltb_min_l. exact H.
    + constructor; [| exact B1]. apply B2. rewrite R2. apply ltb_max_r.
    + intros a H. apply B2. rewrite R2. apply ltb_max_l. exact H.
    + constructor; [| exact C1]. apply C2. rewrite R3. apply ltb_min_r.
    + intros a H. apply C2. rewrite R3. apply ltb_min_l. exact H.
    + constructor; [| exact D1]. apply D2. rewrite R4. apply ltb_max_r.
    + intros a H. apply D2. rewrite R4. apply ltb_max_l. exact H.
Qed.

(** Started from no bound, each bound is a side of the rounded rectangle
    of some box. *)
Lemma bounds_of_some_box (bw : number) (boxes : list rect) :
  boxes <> [] ->
  let st' := fold_left (round_box bw) boxes bounds0 in
  Exists (fun b => minX st' = q_x1 bw b) boxes /\
  Exists (fun b => maxX st' = q_x2 bw b) boxes /\
  Exists (fun b => minY st' = q_y1 bw b) boxes /\
  Exists (fun b => maxY st' = q_y2 bw b) boxes.
Proof.
  intros Hne. destruct boxes as [| b0 rest]; [contradiction |].
  cbn [fold_left]. cbv zeta.
  destruct (bounds_attained bw rest (round_box bw bounds0 b0)) as [A [B [C D]]].
  cbv zeta in A, B, C, D.
  destruct (round_box_bounds bw bounds0 b0) as [R1 [R2 [R3 R4]]].
  cbn [minX maxX minY maxY bounds0] in R1, R2, R3, R4.
  rewrite min_PInf in R1, R3. rewrite max_NInf in R2, R4.
  repeat split.
  - destruct A as [A | A]; [apply Exists_cons_hd; rewrite A; exact R1 |].
    apply Exists_cons_tl. exact A.
  - destruct B as [B | B]; [apply Exists_cons_hd; rewrite B; exact R2 |].
    apply Exists_cons_tl. exact B.
  - destruct C as [C | C]; [apply Exists_cons_hd; rewrite C; exact R3 |].
    apply Exists_cons_tl. exact C.
  - destruct D as [D | D]; [apply Exists_cons_hd; rewrite D; exact R4 |].
    apply Exists_cons_tl. exact D.
Qed.

(** X8.  The box of the constructor is the bounding box of the rounded
    rectangles, moved outwards by the margin.  For a list of boxes that
    is not empty the constructor returns, and there are four bounds
    [X1], [X2], [Y1], [Y2] such that the box is [x = X1 - innerMargin],
    [y = Y1 - innerMargin], [width = X2 - X1 + 2 * innerMargin], [height =
    Y2 - Y1 + 2 * innerMargin], where [X1] is the left side of the rounded
    rectangle of some box and no rounded rectangle has a left side below
    it, [X2] is the right side of one and none has a right side above it,
    and so for the top sides with [Y1] and the bottom sides with [Y2]. *)
Theorem box_is_bounding_box (boxes : list rect) (bw m : number)
    (isLTR skip : bool) :
  boxes <> [] ->
  exists o X1 X2 Y1 Y2,
    construct boxes bw m isLTR skip = Normal o /\
    box_x (o_box o) = X1 - m /\
    box_y (o_box o) = Y1 - m /\
    box_width (o_box o) = X2 - X1 + Fin 2 * m /\
    box_height (o_box o) = Y2 - Y1 + Fin 2 * m /\
    (Exists (fun b => X1 = q_x1 bw b) boxes /\
     Forall (fun b => (q_x1 bw b <? X1) = false) boxes) /\
    (Exists (fun b => X2 = q_x2 bw b) boxes /\
     Forall (fun b => (X2 <? q_x2 bw b) = false) boxes) /\
    (Exists (fun b => Y1 = q_y1 bw b) boxes /\
     Forall (fun b => (q_y1 bw b <? Y1) = false) boxes) /\
    (Exists (fun b => Y2 = q_y2 bw b) boxes /\
     Forall (fun b => (Y2 <? q_y2 bw b) = false) boxes).
Proof.
  intros Hne.
  destruct (construct_shape any_key any_box boxes bw m isLTR skip Hne
              any_union_closed (any_passes bw boxes))
    as [o [lastEdge [_ [H2 [H3 _]]]]].
  destruct (bounds_of_some_box bw boxes Hne) as [A [B [C D]]].
  destruct (bounds_extreme bw boxes bounds0) as [[A1 _] [[B1 _] [[C1 _] [D1 _]]]].
  cbv zeta in A, B, C, D, A1, B1, C1, D1.
  exists o,
    (minX (fold_left (round_box bw) boxes bounds0)),
    (maxX (fold_left (round_box bw) boxes bounds0)),
    (minY (fold_left (round_box bw) boxes bounds0)),
    (maxY (fold_left (round_box bw) boxes bounds0)).
  split; [exact H2 |]. rewrite H3. cbn [box_x box_y box_width box_height].
  repeat split; assumption.
Qed.

(** Two boxes: the bounds are sides of their rounded rectangles. *)
Lemma box_is_bounding_box_witness :
  page_boxes <> [] /\
  exists o X1 X2,
    construct page_boxes (Fin (1 # 1000)) (Fin 0) true true = Normal o /\
    box_x (o_box o) = X1 - Fin 0 /\
    box_width (o_box o) = X2 - X1 + Fin 2 * Fin 0 /\
    Exists (fun b => X1 = q_x1 (Fin (1 # 1000)) b) page_boxes /\
    Forall (fun b => (X2 <? q_x2 (Fin (1 # 1000)) b) = false) page_boxes.
Proof.
  assert (Hne : page_boxes <> []) by discriminate.
  split; [exact Hne |].
  destruct (box_is_bounding_box page_boxes (Fin (1 # 1000)) (Fin 0) true true Hne)
    as [o [X1 [X2 [Y1 [Y2 [H1 [H2 [_ [H4 [_ [[H6 _] [[_ H7] _]]]]]]]]]]]].
  exists o, X1, X2. repeat split; assumption.
Defined.

(** ** The numbers of the outlines *)

(** X9.  [getOutlines] computes no coordinate: on any instance, every
    number of every outline it returns is a coordinate of a vertical edge
    of the instance (or a bound of an interval left in its interval
    array). *)
Theorem outlines_use_edge_numbers (o : Outliner) :
  Forall (Forall (fun v => In v (instance_numbers o)))
    (outlines (snd (getOutlines o))).
Proof.
  rewrite getOutlines_result. cbn [outlines].
  apply traceOutlines_all. unfold sweep. apply sweep_all.
  - apply sortBy_Forall. apply Forall_forall. intros e He.
    unfold edge_all, instance_numbers.
    repeat split; apply in_or_app; left; apply in_flat_map; exists e;
      (split; [exact He | simpl; tauto]).
  - cbn [fst]. apply Forall_forall. intros iv Hiv.
    unfold interval_all, instance_numbers.
    split; apply in_or_app; right; apply in_flat_map; exists iv;
      (split; [exact Hiv | simpl; tauto]).
  - constructor.
Qed.

(** * What the editors make of the outliner *)


(** ** [LinkNodeEditor] and [UnderlineEditor] *)




(** ** [HighlightEditor] and [TempHighlight] *)

(** X11.  [#createOutlines] of [HighlightEditor] and of [TempHighlight]
    takes the position and the size of the editor from the box of the
    outliner with the border 0.001, and the last point from the outliner
    with the border 0.0025 and the margin 0.001.  For a list of boxes
    that ends with the box [bl] it returns, and the toolbar position is
    the lower right corner of the rounded rectangle of [bl] for the border
    0.0025 (the lower left corner when the direction is not left to
    right), minus the origin of the box of the first outliner and divided
    by its size. *)
Theorem highlight_toolbar_position (pre : list rect) (bl : rect)
    (ltr skipLineRects : bool) :
  exists this o1,
    construct (pre ++ [bl]) (Fin (1 # 1000)) (Fin 0) true false = Normal o1 /\
    HighlightEditor.createOutlines (pre ++ [bl]) ltr skipLineRects = Normal this /\
    HighlightEditor.this_x this = box_x (o_box o1) /\
    HighlightEditor.this_y this = box_y (o_box o1) /\
    HighlightEditor.this_width this = box_width (o_box o1) /\
    HighlightEditor.this_height this = box_height (o_box o1) /\
    HighlightEditor.this_lastPoint this
    = (((if ltr then q_x2 (Fin (1 # 400)) bl else q_x1 (Fin (1 # 400)) bl)
        - box_x (o_box o1)) / box_width (o_box o1),
       (q_y2 (Fin (1 # 400)) bl - box_y (o_box o1)) / box_height (o_box o1)).
Proof.
  assert (Hne : pre ++ [bl] <> []) by (destruct pre; discriminate).
  destruct (construct_returns (pre ++ [bl]) (Fin (1 # 1000)) (Fin 0) true false Hne)
    as [o1 [e1 [_ [C1 _]]]].
  destruct (construct_returns (pre ++ [bl]) (Fin (1 # 400)) (Fin (1 # 1000)) ltr
              skipLineRects Hne) as [o2 [e2 [H1 [C2 H3]]]].
  destruct (at_back_quantized (Fin (1 # 400)) pre bl) as [Hb0 Hb1].
  fold (q_x1 (Fin (1 # 400)) bl) (q_x2 (Fin (1 # 400)) bl)
       (q_y1 (Fin (1 # 400)) bl) (q_y2 (Fin (1 # 400)) bl) in Hb0, Hb1.
  assert (Hlast : lastPoint (o_box o2)
                  = (if ltr then q_x2 (Fin (1 # 400)) bl
                     else q_x1 (Fin (1 # 400)) bl, q_y2 (Fin (1 # 400)) bl)).
  { rewrite H3. destruct ltr.
    - rewrite Hb0 in H1. inversion H1; subst. reflexivity.
    - rewrite Hb1 in H1. inversion H1; subst. reflexivity. }
  exists (HighlightEditor.Fields (box_x (o_box o1)) (box_y (o_box o1))
            (box_width (o_box o1)) (box_height (o_box o1))
            (snd (getOutlines o1)) (snd (getOutlines o2))
            (((if ltr then q_x2 (Fin (1 # 400)) bl else q_x1 (Fin (1 # 400)) bl)
              - box_x (o_box o1)) / box_width (o_box o1),
             (q_y2 (Fin (1 # 400)) bl - box_y (o_box o1)) / box_height (o_box o1))),
         o1.
  split; [exact C1 |].
  cbn [HighlightEditor.this_x HighlightEditor.this_y HighlightEditor.this_width
       HighlightEditor.this_height HighlightEditor.this_lastPoint].
  split; [| repeat split; reflexivity].
  unfold HighlightEditor.createOutlines. rewrite C1. cbn [bind].
  rewrite C2. cbn [bind].
  assert (Hb1' : res_box (snd (getOutlines o1)) = o_box o1)
    by (rewrite getOutlines_result; reflexivity).
  assert (Hb2' : res_box (snd (getOutlines o2)) = o_box o2)
    by (rewrite getOutlines_result; reflexivity).
  rewrite Hb1', Hb2', Hlast. destruct ltr; reflexivity.
Qed.

(** ** [#serializeOutlines] *)

Lemma serializePoints_length (tx ty w h : number) (n : nat) :
  forall outline,
  List.length outline = (2 * n)%nat ->
  List.length (HighlightEditor.serializePoints tx ty w h outline)
  = List.length outline.
Proof.
  induction n as [| n IH]; intros outline Hlen.
  - destruct outline; [reflexivity | discriminate Hlen].
  - destruct outline as [| u [| v rest]]; try (simpl in Hlen; lia).
    cbn [HighlightEditor.serializePoints List.length].
    rewrite IH; [reflexivity | simpl in Hlen; lia].
Qed.

(** X12.  [#serializeOutlines] of [HighlightEditor] after
    [#createOutlines], whatever the page: it returns one array per
    outline, with as many numbers as the outline has.  The loop reads the
    outline two numbers at a time; the outlines of the outliner have an
    even length, so it never reads past the end of one (which would write
    a [NaN] and make the array longer). *)
Theorem serialized_outlines_lengths (boxes : list rect)
    (ltr skipLineRects : bool) (pageWidth pageHeight : number) :
  boxes <> [] ->
  exists this,
    HighlightEditor.createOutlines boxes ltr skipLineRects = Normal this /\
    map (@List.length number)
      (HighlightEditor.serializeOutlines pageWidth pageHeight this)
    = map (@List.length number) (outlines (HighlightEditor.highlightOutlines this)).
Proof.
  intros Hne.
  destruct (construct_returns boxes (Fin (1 # 1000)) (Fin 0) true false Hne)
    as [o1 [e1 [_ [C1 _]]]].
  destruct (construct_returns boxes (Fin (1 # 400)) (Fin (1 # 1000)) ltr
              skipLineRects Hne) as [o2 [e2 [_ [C2 _]]]].
  unfold HighlightEditor.createOutlines. rewrite C1. cbn [bind].
  rewrite C2. cbn [bind]. eexists. split; [reflexivity |].
  unfold HighlightEditor.serializeOutlines.
  cbn [HighlightEditor.this_x HighlightEditor.this_y HighlightEditor.this_width
       HighlightEditor.this_height HighlightEditor.highlightOutlines].
  pose proof (traceOutlines_lengths
                (snd (sweep (o_intervals o1) (sortBy edge_cmp (o_verticalEdges o1)))))
    as Hlen.
  rewrite getOutlines_result. cbn [outlines res_box].
  rewrite map_map. apply map_ext_in. intros outline Hin.
  destruct (proj1 (Forall_forall _ _) Hlen outline Hin) as [k Hk].
  apply (serializePoints_length _ _ _ _ (2 + 2 * k)). rewrite Hk. lia.
Qed.

Lemma serialized_outlines_lengths_witness :
  page_boxes <> [] /\
  exists this,
    HighlightEditor.createOutlines page_boxes true true = Normal this /\
    map (@List.length number)
      (HighlightEditor.serializeOutlines (Fin 600) (Fin 800) this)
    = [8%nat; 8%nat].
Proof.
  assert (Hne : page_boxes <> []) by discriminate.
  split; [exact Hne |].
  destruct (serialized_outlines_lengths page_boxes true true (Fin 600) (Fin 800) Hne)
    as [this [H1 H2]].
  exists this. split; [exact H1 |]. rewrite H2.
  assert (E : exists t,
            HighlightEditor.createOutlines page_boxes true true = Normal t /\
            map (@List.length number) (outlines (HighlightEditor.highlightOutlines t))
            = [8%nat; 8%nat]).
  { eexists. split; vm_compute; reflexivity. }
  destruct E as [t [Ht El]]. rewrite H1 in Ht. inversion Ht; subst t. exact El.
Defined.

(** ** [#serializeBoxes] and [deserialize] *)

Lemma serializeBoxes_length (pw ph : number) (boxes : list rect) :
  List.length (serializeBoxes pw ph boxes) = (List.length boxes * 8)%nat.
Proof.
  induction boxes as [| b boxes IH]; [reflexivity |].
  unfold serializeBoxes in *. cbn [flat_map]. rewrite length_app, IH.
  destruct b. reflexivity.
Qed.

Lemma elem_app (pre l : list number) (j : nat) :
  elem (pre ++ l) (List.length pre + j) = elem l j.
Proof. unfold elem. apply app_nth2_plus. Qed.

(** The box read from the eight numbers written for [b], with the first
    field read at the index 4 of the whole array. *)
Lemma deserializeLoop_shape (pw ph : number) (boxes : list rect) :
  forall pre : list number,
  deserializeLoop (List.length boxes) (List.length pre)
    (pre ++ serializeBoxes pw ph boxes) pw ph
  = map (fun b =>
           Rect (elem (pre ++ serializeBoxes pw ph boxes) 4 / pw)
                (Fin 1 - ((Fin 1 - y b - height b) * ph + height b * ph) / ph)
                ((x b * pw + width b * pw - x b * pw) / pw)
                (((Fin 1 - y b - height b) * ph + height b * ph
                  - (Fin 1 - y b - height b) * ph) / ph))
        boxes.
Proof.
  induction boxes as [| b boxes IH]; intros pre; [reflexivity |].
  destruct b as [bx by_ bw bh].
  change (serializeBoxes pw ph (Rect bx by_ bw bh :: boxes))
    with (quad (bx * pw) ((Fin 1 - by_ - bh) * ph) (bw * pw) (bh * ph)
          ++ serializeBoxes pw ph boxes).
  set (q := pre ++ quad (bx * pw) ((Fin 1 - by_ - bh) * ph) (bw * pw) (bh * ph)
                ++ serializeBoxes pw ph boxes).
  cbn [List.length deserializeLoop map x y width height].
  f_equal.
  - assert (E0 : elem q (List.length pre) = bx * pw).
    { unfold q. rewrite <- (Nat.add_0_r (List.length pre)).
      rewrite elem_app. reflexivity. }
    assert (E1 : elem q (List.length pre + 1) = (Fin 1 - by_ - bh) * ph)
      by (unfold q; rewrite elem_app; reflexivity).
    assert (E2 : elem q (List.length pre + 2) = bx * pw + bw * pw)
      by (unfold q; rewrite elem_app; reflexivity).
    assert (E5 : elem q (List.length pre + 5) = (Fin 1 - by_ - bh) * ph + bh * ph)
      by (unfold q; rewrite elem_app; reflexivity).
    rewrite E0, E1, E2, E5. reflexivity.
  - specialize (IH (pre ++ quad (bx * pw) ((Fin 1 - by_ - bh) * ph)
                             (bw * pw) (bh * ph))).
    rewrite length_app in IH. cbn [quad List.length] in IH.
    rewrite <- app_assoc in IH. exact IH.
Qed.

(** X13.  [deserialize] after [#serializeBoxes] ([HighlightEditor] and
    [UnderlineEditor]), whatever the boxes and the page: one box is read
    per box written, and the abscissa of every box read is computed from
    the number at the index 4 of the whole array, which is the abscissa of
    the first box written times the page width: all the boxes read have
    the abscissa of the first one. *)
Theorem boxes_round_trip (b0 : rect) (rest : list rect)
    (pageWidth pageHeight : number) :
  List.length
    (deserializeBoxes (serializeBoxes pageWidth pageHeight (b0 :: rest))
       pageWidth pageHeight)
  = List.length (b0 :: rest) /\
  Forall (fun read => x read = x b0 * pageWidth / pageWidth)
    (deserializeBoxes (serializeBoxes pageWidth pageHeight (b0 :: rest))
       pageWidth pageHeight).
Proof.
  unfold deserializeBoxes. rewrite serializeBoxes_length.
  rewrite Nat.div_add_l by discriminate. change (7 / 8)%nat with 0%nat.
  rewrite Nat.add_0_r.
  pose proof (deserializeLoop_shape pageWidth pageHeight (b0 :: rest) []) as Hs.
  cbn [app List.length] in Hs. cbn [List.length]. rewrite Hs.
  assert (H4 : elem (serializeBoxes pageWidth pageHeight (b0 :: rest)) 4
               = x b0 * pageWidth) by (destruct b0; reflexivity).
  rewrite H4. split.
  - rewrite length_map. reflexivity.
  - apply Forall_forall. intros read Hin. apply in_map_iff in Hin.
    destruct Hin as [b [E _]]. subst read. reflexivity.
Qed.
